(** * dcrdex client: market-maker planning and account signing

    A shallow embedding of [client/mm/mm_basic.go] (the basic market maker:
    validation of the configuration, lot-size rescaling, basis price, fee
    gap, per-rung order price, the per-epoch planner, the single-flight
    rebalance and the loop that triggers it) and of parts of
    [client/core/types.go]: the key group of [dexAccount] (key derivation,
    unlock, lock, locked, sign), the amounts a market has locked in orders,
    and the token of an ID.

    Go's [uint64] is a [Z] with its wrap-around written out; [float64] is the
    IEEE 754 binary64 format of [SpecFloat]; a Go [(T, error)] result is a
    sum; the bot's collaborators appear as records of functions and every call
    the bot makes on them is appended to a log. *)

From Stdlib Require Import ZArith List Bool String Ascii Lia.
From Stdlib Require Import DecimalString Setoid QArith Qpower Lqa.
From Stdlib Require Import Floats.SpecFloat.
Import ListNotations.
Local Open Scope Z_scope.

(** ** Machine integers *)

Definition uint64 := Z.
Definition uint32 := Z.

Definition wrap64 (x : Z) : uint64 := x mod 2 ^ 64.

Definition in_uint64 (x : Z) : Prop := 0 <= x < 2 ^ 64.

(** ** Errors and results *)

(** [errors.New msg] and [fmt.Errorf (prefix ++ ": %w") err]. *)
Inductive error : Type :=
| New (msg : string)
| Wrap (prefix : string) (err : error).

Definition result (A : Type) : Type := (A + error)%type.
Definition Ok {A : Type} (a : A) : result A := inl a.
Definition Err {A : Type} (e : error) : result A := inr e.

(** [err.Error()]. *)
Fixpoint errorString (e : error) : string :=
  match e with
  | New msg => msg
  | Wrap prefix err => (prefix ++ ": " ++ errorString err)%string
  end.

(** ** float64 *)

Definition float64 : Type := spec_float.

(** What a conversion [uint64(f)] yields when [f] is not in range is left to
    the implementation by the Go specification; the platform provides it. *)
Class Platform : Type := {
  uint64_out_of_range : float64 -> Z
}.

Module F64.

Definition prec : Z := 53.
Definition emax : Z := 1024.

(** [float64(n)] for an integer [n]: round to nearest, ties to even. *)
Definition of_Z (n : Z) : float64 := binary_normalize prec emax n 0 false.

Definition add : float64 -> float64 -> float64 := SFadd prec emax.
Definition sub : float64 -> float64 -> float64 := SFsub prec emax.
Definition mul : float64 -> float64 -> float64 := SFmul prec emax.
Definition div : float64 -> float64 -> float64 := SFdiv prec emax.
Definition abs : float64 -> float64 := SFabs.
Definition eqb : float64 -> float64 -> bool := SFeqb.
Definition ltb : float64 -> float64 -> bool := SFltb.
Definition gtb (x y : float64) : bool := SFltb y x.

(** The float64 closest to the decimal constant [num / den]. *)
Definition const (num den : Z) : float64 := div (of_Z num) (of_Z den).

Definition zero : float64 := S754_zero false.

(** [math.Round]: nearest integer, halves away from zero; zeros,
    infinities and NaN are returned unchanged. *)
Definition Round (x : float64) : float64 :=
  match x with
  | S754_finite s m e =>
      if 0 <=? e then x
      else binary_normalize prec emax
             (cond_Zopp s ((Zpos m + 2 ^ (- e - 1)) / 2 ^ (- e))) 0 s
  | _ => x
  end.

(** The integer part of a finite float (fraction discarded). *)
Definition trunc (x : float64) : option Z :=
  match x with
  | S754_zero _ => Some 0
  | S754_finite s m e =>
      Some (cond_Zopp s
              (if 0 <=? e then Zpos m * 2 ^ e else Zpos m / 2 ^ (- e)))
  | _ => None
  end.

(** The conversion [uint64(x)]. *)
Definition to_uint64 {P : Platform} (x : float64) : uint64 :=
  match trunc x with
  | Some n =>
      if (0 <=? n) && (n <? 2 ^ 64) then n
      else wrap64 (uint64_out_of_range x)
  | None => wrap64 (uint64_out_of_range x)
  end.

End F64.

(** A platform on which every out-of-range conversion gives 2^63, the
    "integer indefinite" value of x86-64. *)
Definition indefinite63 : Platform := {|
  uint64_out_of_range _ := 2 ^ 63
|}.

(** * client/mm/mm_basic.go *)

(** ** Configuration *)

(** [GapStrategy] is a Go string type with five named values. *)
Definition GapStrategy : Type := string.

Definition GapStrategyMultiplier : GapStrategy := "multiplier"%string.
Definition GapStrategyAbsolute : GapStrategy := "absolute"%string.
Definition GapStrategyAbsolutePlus : GapStrategy := "absolute-plus"%string.
Definition GapStrategyPercent : GapStrategy := "percent"%string.
Definition GapStrategyPercentPlus : GapStrategy := "percent-plus"%string.

Module OrderPlacement.
Record t : Type := mk {
  Lots : uint64;
  GapFactor : float64
}.
End OrderPlacement.

Module BasicMarketMakingConfig.
Record t : Type := mk {
  GapStrategy : GapStrategy;
  SellPlacements : list OrderPlacement.t;
  BuyPlacements : list OrderPlacement.t;
  DriftTolerance : float64
}.
End BasicMarketMakingConfig.

Definition needBreakEvenHalfSpread (strat : GapStrategy) : bool :=
  String.eqb strat GapStrategyAbsolutePlus
  || String.eqb strat GapStrategyPercentPlus
  || String.eqb strat GapStrategyMultiplier.

(** ** Validation of the configuration *)

(** [math.MaxFloat64]. *)
Definition MaxFloat64 : float64 := S754_finite false (2 ^ 53 - 1) 971.

(** The errors [validate] builds with [fmt.Errorf], each with the values its
    message renders: "drift tolerance %f out of bounds", "unknown gap
    strategy %q", "%s gap factor %f is out of bounds %+v", "duplicate sell
    placement %f", "duplicate buy placement %f", "invalid sell placement: %w"
    and "invalid buy placement: %w". *)
Inductive validateError : Type :=
| DriftToleranceOutOfBounds (driftTolerance : float64)
| UnknownGapStrategy (strat : GapStrategy)
| GapFactorOutOfBounds (strat : GapStrategy) (gapFactor : float64)
                       (limits : float64 * float64)
| DuplicatePlacement (sell : bool) (gapFactor : float64)
| InvalidPlacement (sell : bool) (err : validateError).

(** The [limits] the closure [validatePlacement] picks for a strategy; [None]
    is its default case. *)
Definition limits (strat : GapStrategy) : option (float64 * float64) :=
  if String.eqb strat GapStrategyMultiplier then
    Some (F64.of_Z 1, F64.of_Z 100)
  else if String.eqb strat GapStrategyPercent
          || String.eqb strat GapStrategyPercentPlus then
    Some (F64.zero, F64.const 1 10)
  else if String.eqb strat GapStrategyAbsolute
          || String.eqb strat GapStrategyAbsolutePlus then
    Some (F64.zero, MaxFloat64)
  else None.

Definition validatePlacement (strat : GapStrategy) (p : OrderPlacement.t)
  : option validateError :=
  match limits strat with
  | None => Some (UnknownGapStrategy strat)
  | Some (lo, hi) =>
      if F64.ltb (OrderPlacement.GapFactor p) lo
         || F64.gtb (OrderPlacement.GapFactor p) hi
      then Some (GapFactorOutOfBounds strat (OrderPlacement.GapFactor p)
                                      (lo, hi))
      else None
  end.

(** One of the two loops of [validate]. [seen] holds the keys of the map
    [sellPlacements] (or [buyPlacements]); a float64 key is found when it is
    [==] to a key of the map, so a NaN is never found. *)
Fixpoint validate_loop (sell : bool) (strat : GapStrategy)
         (placements : list OrderPlacement.t) (seen : list float64)
  : option validateError :=
  match placements with
  | [] => None
  | p :: rest =>
      if existsb (F64.eqb (OrderPlacement.GapFactor p)) seen then
        Some (DuplicatePlacement sell (OrderPlacement.GapFactor p))
      else
        match validatePlacement strat p with
        | Some err => Some (InvalidPlacement sell err)
        | None =>
            validate_loop sell strat rest
                          (OrderPlacement.GapFactor p :: seen)
        end
  end.

(** [validate] writes the default drift tolerance into the configuration
    before it checks anything: the configuration it leaves behind comes back
    with the error, [None] for nil. *)
Definition validate (c : BasicMarketMakingConfig.t)
  : BasicMarketMakingConfig.t * option validateError :=
  let driftTolerance :=
    if F64.eqb (BasicMarketMakingConfig.DriftTolerance c) F64.zero
    then F64.const 1 1000
    else BasicMarketMakingConfig.DriftTolerance c in
  let strat := BasicMarketMakingConfig.GapStrategy c in
  let c := BasicMarketMakingConfig.mk
             strat (BasicMarketMakingConfig.SellPlacements c)
             (BasicMarketMakingConfig.BuyPlacements c) driftTolerance in
  if F64.ltb driftTolerance F64.zero
     || F64.gtb driftTolerance (F64.const 1 100)
  then (c, Some (DriftToleranceOutOfBounds driftTolerance))
  else if negb (String.eqb strat GapStrategyMultiplier)
          && negb (String.eqb strat GapStrategyPercent)
          && negb (String.eqb strat GapStrategyPercentPlus)
          && negb (String.eqb strat GapStrategyAbsolute)
          && negb (String.eqb strat GapStrategyAbsolutePlus)
  then (c, Some (UnknownGapStrategy strat))
  else
    match validate_loop true strat
                        (BasicMarketMakingConfig.SellPlacements c) [] with
    | Some err => (c, Some err)
    | None =>
        match validate_loop false strat
                            (BasicMarketMakingConfig.BuyPlacements c) [] with
        | Some err => (c, Some err)
        | None => (c, None)
        end
    end.

(** ** Lot-size rescaling *)

Section UpdateLotSize.
Context {P : Platform}.

(** The first loop of [updateLotSize]: [qtyCounter += p.Lots * originalLotSize]. *)
Definition totalQty (placements : list OrderPlacement.t)
           (originalLotSize : uint64) : uint64 :=
  fold_left
    (fun qtyCounter p =>
       wrap64 (qtyCounter + wrap64 (OrderPlacement.Lots p * originalLotSize)))
    placements 0.

(** [uint64(math.Round((float64(p.Lots) * float64(originalLotSize)) /
    float64(newLotSize)))]. *)
Definition roundedLots (p : OrderPlacement.t)
           (originalLotSize newLotSize : uint64) : uint64 :=
  F64.to_uint64
    (F64.Round
       (F64.div
          (F64.mul (F64.of_Z (OrderPlacement.Lots p))
                   (F64.of_Z originalLotSize))
          (F64.of_Z newLotSize))).

(** The second loop, threading [qtyCounter] and [newPlacements]. The
    integer division [qtyCounter / newLotSize] panics when [newLotSize] is
    zero: [None]. *)
Fixpoint updateLotSize_loop (placements : list OrderPlacement.t)
         (originalLotSize newLotSize : uint64) (qtyCounter : uint64)
         (newPlacements : list OrderPlacement.t)
  : option (list OrderPlacement.t) :=
  match placements with
  | [] => Some newPlacements
  | p :: rest =>
      let lots := roundedLots p originalLotSize newLotSize in
      let lots := Z.max lots 1 in
      if newLotSize =? 0 then None
      else
        let maxLots := qtyCounter / newLotSize in
        let lots := Z.min lots maxLots in
        if lots =? 0 then
          updateLotSize_loop rest originalLotSize newLotSize
                             qtyCounter newPlacements
        else
          updateLotSize_loop rest originalLotSize newLotSize
            (wrap64 (qtyCounter - wrap64 (lots * newLotSize)))
            (newPlacements
               ++ [OrderPlacement.mk lots (OrderPlacement.GapFactor p)])
  end.

Definition updateLotSize (placements : list OrderPlacement.t)
           (originalLotSize newLotSize : uint64)
  : option (list OrderPlacement.t) :=
  let qtyCounter := totalQty placements originalLotSize in
  updateLotSize_loop placements originalLotSize newLotSize qtyCounter [].

(** The method [updateLotSize] of [BasicMarketMakingConfig]: sells first,
    then buys. *)
Definition config_updateLotSize (c : BasicMarketMakingConfig.t)
           (originalLotSize newLotSize : uint64)
  : option BasicMarketMakingConfig.t :=
  match updateLotSize (BasicMarketMakingConfig.SellPlacements c)
                      originalLotSize newLotSize with
  | None => None
  | Some sells =>
      match updateLotSize (BasicMarketMakingConfig.BuyPlacements c)
                          originalLotSize newLotSize with
      | None => None
      | Some buys =>
          Some (BasicMarketMakingConfig.mk
                  (BasicMarketMakingConfig.GapStrategy c) sells buys
                  (BasicMarketMakingConfig.DriftTolerance c))
      end
  end.

End UpdateLotSize.

(** ** Rate quantization *)

(** The multiple of [step] nearest to [r], as a number of steps (halves go
    up). *)
Definition nearestSteps (r step : Z) : Z := (2 * r + step) / (2 * step).

(** Modelled from the spec: [steppedRate] is declared outside the files under
    src/. The spec's quantization rule is "round to nearest multiple of the
    rate step; a zero input yields a zero output regardless of step (must be
    special-cased ...)". The result is a uint64. *)
Definition steppedRate (r step : uint64) : uint64 :=
  if r =? 0 then 0 else wrap64 (nearestSteps r step * step).

(** ** Collaborators of the calculator *)

(** The fields of [market] the maker reads. [lotSize] and [rateStep] are the
    values their atomics hold when loaded; [msgRate] (conventional rate to
    message-rate units) is a method declared outside these files. *)
Record market : Type := {
  baseID : uint32;
  quoteID : uint32;
  lotSize : uint64;
  rateStep : uint64;
  msgRate : float64 -> uint64
}.

Record oracle : Type := {
  getMarketPrice : uint32 -> uint32 -> float64
}.

(** What the core adaptor answers during one cycle. *)
Record botCoreAdaptor : Type := {
  ExchangeRateFromFiatSources : uint64;
  OrderFeesInUnits : bool -> bool -> uint64 -> result uint64
}.

Module calc.
(** [calc.RateEncodingFactor], a constant of package dex/calc. *)
Class Constants : Type := {
  RateEncodingFactor : float64
}.
End calc.

Module FeeGapStats.
Record t : Type := mk {
  BasisPrice : uint64;
  RemoteGap : uint64;
  FeeGap : uint64;
  RoundTripFees : uint64
}.
End FeeGapStats.

(** ** The calculator *)

Definition errNoBasisPrice : error :=
  New "no oracle or fiat rate available".
Definition errOracleFiatMismatch : error :=
  New "oracle rate and fiat rate mismatch".

(** The interface [basicMMCalculator]. *)
Module basicMMCalculator.
Record t : Type := mk {
  basisPrice : result uint64;
  halfSpread : uint64 -> result uint64;
  feeGapStats : uint64 -> result FeeGapStats.t
}.
End basicMMCalculator.

Module basicMMCalculatorImpl.
Section Impl.
Context {P : Platform} {K : calc.Constants}.

(** The fields [market] (embedded), [oracle], [core] and [cfg]. *)
Record t : Type := mk {
  mkt : market;
  orcl : oracle;
  core : botCoreAdaptor;
  cfg : BasicMarketMakingConfig.t
}.

Definition maxOracleFiatMismatch : float64 := F64.const 5 100.

(** [math.Abs((float64(oracleRate) - float64(rateFromFiat)) /
    float64(oracleRate))]. *)
Definition mismatch (oracleRate rateFromFiat : uint64) : float64 :=
  F64.abs
    (F64.div (F64.sub (F64.of_Z oracleRate) (F64.of_Z rateFromFiat))
             (F64.of_Z oracleRate)).

Definition basisPrice (b : t) : result uint64 :=
  let oracleRate :=
    msgRate (mkt b)
            (getMarketPrice (orcl b) (baseID (mkt b)) (quoteID (mkt b))) in
  let rateFromFiat := ExchangeRateFromFiatSources (core b) in
  let rateStep := rateStep (mkt b) in
  if rateFromFiat =? 0 then
    if oracleRate =? 0 then Err errNoBasisPrice
    else Ok (steppedRate oracleRate rateStep)
  else if oracleRate =? 0 then Ok (steppedRate rateFromFiat rateStep)
  else if F64.gtb (mismatch oracleRate rateFromFiat) maxOracleFiatMismatch
  then Err errOracleFiatMismatch
  else Ok (steppedRate oracleRate rateStep).

(** [uint64(math.Round(g * calc.RateEncodingFactor))] for
    [r := float64(basisPrice) / calc.RateEncodingFactor] and
    [g := float64(f) * r / float64(f+2*l)]. *)
Definition halfGap (basisPrice f l : uint64) : uint64 :=
  let r := F64.div (F64.of_Z basisPrice) calc.RateEncodingFactor in
  let g := F64.div (F64.mul (F64.of_Z f) r)
                   (F64.of_Z (wrap64 (f + wrap64 (2 * l)))) in
  F64.to_uint64 (F64.Round (F64.mul g calc.RateEncodingFactor)).

Definition feeGapStats (b : t) (basisPrice : uint64)
  : result FeeGapStats.t :=
  if basisPrice =? 0 then Err (New "basis price cannot be zero")
  else
    match OrderFeesInUnits (core b) true true basisPrice with
    | inr err => Err (Wrap "error getting sell fees in base units" err)
    | inl sellFeesInBaseUnits =>
        match OrderFeesInUnits (core b) false true basisPrice with
        | inr err => Err (Wrap "error getting buy fees in base units" err)
        | inl buyFeesInBaseUnits =>
            let f := wrap64 (sellFeesInBaseUnits + buyFeesInBaseUnits) in
            let l := lotSize (mkt b) in
            let halfGap := halfGap basisPrice f l in
            Ok (FeeGapStats.mk basisPrice 0 (wrap64 (halfGap * 2)) f)
        end
    end.

Definition halfSpread (b : t) (basisPrice : uint64) : result uint64 :=
  match feeGapStats b basisPrice with
  | inr err => Err err
  | inl feeStats => Ok (FeeGapStats.FeeGap feeStats / 2)
  end.

(** The implementation seen through the interface. *)
Definition calculator (b : t) : basicMMCalculator.t :=
  basicMMCalculator.mk (basisPrice b) (halfSpread b) (feeGapStats b).

End Impl.
End basicMMCalculatorImpl.

(** ** The bot: its state and the calls it makes *)

Module TradePlacement.
Record t : Type := mk {
  Rate : uint64;
  Lots : uint64
}.
End TradePlacement.

(** An [OrderReport] is declared outside these files; the maker only hands
    the reports it gets from [multiTrade] on to the epoch report, so a report
    is an opaque token here. *)
Inductive OrderReport : Type := OrderReportRef (n : nat).

Module EpochReport.
Record t : Type := mk {
  PreOrderProblems : option error;
  BuysReport : option OrderReport;
  SellsReport : option OrderReport;
  EpochNum : uint64
}.

(** Modelled from the spec: [setPreOrderProblems] is declared outside the
    files under src/. The spec has the failure of the placement computation
    "recorded in the epoch report" as a pre-order problem; a nil error
    records none. *)
Definition setPreOrderProblems (err : option error) (r : t) : t :=
  mk err (BuysReport r) (SellsReport r) (EpochNum r).
End EpochReport.

(** Every call the maker makes on its adaptor or its calculator. *)
Inductive Call : Type :=
| CallBasisPrice
| CallFeeGapStats (basisPrice : uint64)
| CallRegisterFeeGap (feeGap : FeeGapStats.t)
| CallCheckBotHealth (epochNum : uint64)
| CallTryCancelOrders (epoch : uint64) (cancelAll : bool)
| CallMultiTrade (placements : list TradePlacement.t) (sell : bool)
                 (driftTolerance : float64) (epoch : uint64)
| CallUpdateEpochReport (report : EpochReport.t).

(** The mutable part of a [basicMarketMaker]: the atomic flag and the log of
    calls made so far, oldest first. *)
Record botState : Type := {
  rebalanceRunning : bool;
  calls : list Call
}.

(** Computations that read and update the bot state. *)
Definition Bot (A : Type) : Type := botState -> A * botState.

Definition ret {A : Type} (a : A) : Bot A := fun s => (a, s).

Definition bind {A B : Type} (c : Bot A) (k : A -> Bot B) : Bot B :=
  fun s => let (a, s') := c s in k a s'.

Declare Scope bot_scope.
Delimit Scope bot_scope with bot.
Notation "x <- c ;; k" := (bind c (fun x => k))
  (at level 61, c at next level, right associativity) : bot_scope.
Notation "c ;; k" := (bind c (fun _ => k))
  (at level 61, right associativity) : bot_scope.

(** Record a call and hand back what the collaborator answers. *)
Definition call {A : Type} (c : Call) (answer : A) : Bot A :=
  fun s => (answer, {| rebalanceRunning := rebalanceRunning s;
                       calls := calls s ++ [c] |}).

(** [atomic.Bool]: CompareAndSwap and Store on [rebalanceRunning]. *)
Definition CompareAndSwap (old new : bool) : Bot bool :=
  fun s =>
    if Bool.eqb (rebalanceRunning s) old
    then (true, {| rebalanceRunning := new; calls := calls s |})
    else (false, s).

Definition Store (val : bool) : Bot unit :=
  fun s => (tt, {| rebalanceRunning := val; calls := calls s |}).

(** [defer d] before [body]: [d] runs when [body] returns. *)
Definition defer {A : Type} (d : Bot unit) (body : Bot A) : Bot A :=
  (a <- body ;; d ;; ret a)%bot.

(** The immutable part of a [basicMarketMaker], with what its adaptor
    answers during the cycle. *)
Record basicMarketMaker : Type := {
  mmMarket : market;
  cfg : BasicMarketMakingConfig.t;
  calculator : basicMMCalculator.t;
  checkBotHealth : uint64 -> bool;
  multiTrade : list TradePlacement.t -> bool -> float64 -> uint64
               -> option OrderReport
}.

Section Maker.
Context {P : Platform}.
Variable m : basicMarketMaker.

Definition orderPrice (basisPrice feeAdj : uint64) (sell : bool)
           (gapFactor : float64) : uint64 :=
  let strat := BasicMarketMakingConfig.GapStrategy (cfg m) in
  (* Apply the base strategy. *)
  let adj :=
    if String.eqb strat GapStrategyMultiplier then
      F64.to_uint64 (F64.Round (F64.mul (F64.of_Z feeAdj) gapFactor))
    else if String.eqb strat GapStrategyPercent
            || String.eqb strat GapStrategyPercentPlus then
      F64.to_uint64 (F64.Round (F64.mul gapFactor (F64.of_Z basisPrice)))
    else if String.eqb strat GapStrategyAbsolute
            || String.eqb strat GapStrategyAbsolutePlus then
      msgRate (mmMarket m) gapFactor
    else 0 in
  (* Add the break-even to the "-plus" strategies *)
  let adj :=
    if String.eqb strat GapStrategyAbsolutePlus
       || String.eqb strat GapStrategyPercentPlus
    then wrap64 (adj + feeAdj) else adj in
  let adj := steppedRate adj (rateStep (mmMarket m)) in
  if sell then wrap64 (basisPrice + adj)
  else if basisPrice <? adj then 0
  else basisPrice - adj.

(** The closure [orders] of [ordersToPlace]. *)
Definition orders (basisPrice feeAdj : uint64)
           (orderPlacements : list OrderPlacement.t) (sell : bool)
  : list TradePlacement.t :=
  fold_left
    (fun placements p =>
       let rate :=
         orderPrice basisPrice feeAdj sell (OrderPlacement.GapFactor p) in
       let lots := if rate =? 0 then 0 else OrderPlacement.Lots p in
       placements ++ [TradePlacement.mk rate lots])
    orderPlacements [].

Definition ordersToPlace
  : Bot (result (list TradePlacement.t * list TradePlacement.t)) :=
  (r <- call CallBasisPrice (basicMMCalculator.basisPrice (calculator m)) ;;
   match r with
   | inr err => ret (Err err)
   | inl basisPrice =>
       r <- call (CallFeeGapStats basisPrice)
                 (basicMMCalculator.feeGapStats (calculator m) basisPrice) ;;
       match r with
       | inr err => ret (Err (Wrap "error calculating fee gap stats" err))
       | inl feeGap =>
           call (CallRegisterFeeGap feeGap) tt ;;
           let feeAdj :=
             if needBreakEvenHalfSpread
                  (BasicMarketMakingConfig.GapStrategy (cfg m))
             then FeeGapStats.FeeGap feeGap / 2 else 0 in
           let buyOrders :=
             orders basisPrice feeAdj
                    (BasicMarketMakingConfig.BuyPlacements (cfg m)) false in
           let sellOrders :=
             orders basisPrice feeAdj
                    (BasicMarketMakingConfig.SellPlacements (cfg m)) true in
           ret (Ok (buyOrders, sellOrders))
       end
   end)%bot.

(** The body of [rebalance] after the flag is taken. *)
Definition rebalance_body (newEpoch : uint64) : Bot unit :=
  (healthy <- call (CallCheckBotHealth newEpoch) (checkBotHealth m newEpoch) ;;
   if negb healthy then
     call (CallTryCancelOrders newEpoch false) tt
   else
     placed <- ordersToPlace ;;
     reports <-
       match placed with
       | inr determinePlacementsErr =>
           call (CallTryCancelOrders newEpoch false) tt ;;
           ret (None, None, Some determinePlacementsErr)
       | inl (buyOrders, sellOrders) =>
           let drift := BasicMarketMakingConfig.DriftTolerance (cfg m) in
           buysReport <- call (CallMultiTrade buyOrders false drift newEpoch)
                              (multiTrade m buyOrders false drift newEpoch) ;;
           sellsReport <- call (CallMultiTrade sellOrders true drift newEpoch)
                               (multiTrade m sellOrders true drift newEpoch) ;;
           ret (buysReport, sellsReport, None)
       end ;;
     let '(buysReport, sellsReport, determinePlacementsErr) := reports in
     let epochReport :=
       EpochReport.mk None buysReport sellsReport newEpoch in
     let epochReport :=
       EpochReport.setPreOrderProblems determinePlacementsErr epochReport in
     call (CallUpdateEpochReport epochReport) tt)%bot.

Definition rebalance (newEpoch : uint64) : Bot unit :=
  (swapped <- CompareAndSwap false true ;;
   if negb swapped then ret tt
   else defer (Store false) (rebalance_body newEpoch))%bot.

End Maker.

(** ** The loop *)

(** What a [select] of the goroutine of [botLoop] receives: a notification
    of the book feed, with the current epoch when its payload is a
    [*core.ResolvedEpoch]; the closed feed; or the done context. *)
Inductive selected : Type :=
| Notification (resolvedEpoch : option uint64)
| FeedClosed
| ContextDone.

(** Where the goroutine stands once it has received all of a list: still in
    its [select], or returned, after [m.kill()] or on the done context. *)
Inductive loopEnd : Type :=
| Selecting
| Killed
| Cancelled.

Section BotLoop.
Context {P : Platform} {K : calc.Constants}.

Fixpoint botLoop_goroutine (m : basicMarketMaker) (received : list selected)
  : Bot loopEnd :=
  match received with
  | [] => ret Selecting
  | Notification (Some current) :: rest =>
      (rebalance m current ;; botLoop_goroutine m rest)%bot
  | Notification None :: rest => botLoop_goroutine m rest
  | FeedClosed :: _ => ret Killed
  | ContextDone :: _ => ret Cancelled
  end.

(** [botLoop]: [syncBook] is what [m.core.SyncBook] answers, [orcl] and
    [core] are the fields [oracle] and [core] of the maker, from which the
    calculator is built before the goroutine starts. *)
Definition botLoop (m : basicMarketMaker) (orcl : oracle)
           (core : botCoreAdaptor) (syncBook : result unit)
           (received : list selected) : result (Bot loopEnd) :=
  match syncBook with
  | inr err => Err (New ("failed to sync book: " ++ errorString err))
  | inl _ =>
      let calculator :=
        basicMMCalculatorImpl.calculator
          (basicMMCalculatorImpl.mk (mmMarket m) orcl core (cfg m)) in
      Ok (botLoop_goroutine
            {| mmMarket := mmMarket m; cfg := cfg m;
               calculator := calculator;
               checkBotHealth := checkBotHealth m;
               multiTrade := multiTrade m |}
            received)
  end.

End BotLoop.

(** * client/core/types.go: the key group of [dexAccount] *)

Module core.

Definition bytes : Type := list Byte.byte.

(** A secp256k1 private key, by its serialization. *)
Definition PrivateKey : Type := bytes.

(** [signMsg] is declared outside these files; it is the signing primitive
    the account is given. *)
Class Signer : Type := {
  signMsg : PrivateKey -> bytes -> bytes
}.

(** The fields behind [keyMtx], and the two flags behind [authMtx]. A nil
    [privKey] is [None]. *)
Record dexAccount : Type := {
  host : string;
  viewOnly : bool;
  encKey : bytes;
  privKey : option PrivateKey;
  id : bytes;
  isAuthed : bool;
  disabled : bool
}.

(** [lock] clears the account private key. *)
Definition lock (a : dexAccount) : dexAccount :=
  {| host := host a; viewOnly := viewOnly a; encKey := encKey a;
     privKey := None; id := id a;
     isAuthed := isAuthed a; disabled := disabled a |}.

Definition locked (a : dexAccount) : bool :=
  match privKey a with None => true | Some _ => false end.

Definition status (a : dexAccount) : bool * bool :=
  (Nat.ltb 0 (List.length (encKey a)),
   match privKey a with None => false | Some _ => true end).

Definition errAccountLocked : error := New "account locked".

Definition sign {S : Signer} (a : dexAccount) (msg : bytes) : result bytes :=
  match privKey a with
  | None => Err errAccountLocked
  | Some k => Ok (signMsg k msg)
  end.

End core.

(** * client/core/types.go: key derivation and unlocking *)

Definition wrap32 (x : Z) : uint32 := x mod 2 ^ 32.

(** [%d] of an unsigned integer. *)
Definition decimal (n : Z) : string :=
  NilEmpty.string_of_uint (N.to_uint (Z.to_N n)).

Module hdkeychain.
(** [hdkeychain.HardenedKeyStart], 0x80000000: the first hardened child
    index. *)
Definition HardenedKeyStart : uint32 := 2 ^ 31.
End hdkeychain.

(** The BIP-43 purpose fields: ASCII "dex" and "bond". *)
Definition hdKeyPurposeAccts : uint32 :=
  wrap32 (hdkeychain.HardenedKeyStart + 0x646578).
Definition hdKeyPurposeBonds : uint32 :=
  wrap32 (hdkeychain.HardenedKeyStart + 0x626f6e64).

Module encrypt.
(** The two methods of [encrypt.Crypter] that the account uses. *)
Record Crypter : Type := {
  Encrypt : core.bytes -> result core.bytes;
  Decrypt : core.bytes -> result core.bytes
}.
End encrypt.

(** The key primitives, all declared outside these files: [keygen.GenDeepChild],
    the two serializations of an extended key, [secp256k1.PrivKeyFromBytes],
    the compressed public key of a private key, and [account.NewID]. *)
Class Keys : Type := {
  ExtendedKey : Type;
  GenDeepChild : core.bytes -> list uint32 -> result ExtendedKey;
  SerializedPrivKey : ExtendedKey -> result core.bytes;
  SerializedPubKey : ExtendedKey -> core.bytes;
  PrivKeyFromBytes : core.bytes -> core.PrivateKey;
  PubKeySerializeCompressed : core.PrivateKey -> core.bytes;
  NewID : core.bytes -> core.bytes
}.

(** [uint32(v)] for a byte [v]. *)
Definition byteZ (v : Byte.byte) : uint32 := Z.of_N (Byte.to_N v).

Module binary.
(** [binary.LittleEndian.Uint32]; it panics on fewer than four bytes:
    [None]. *)
Definition Uint32 (b : core.bytes) : option uint32 :=
  match b with
  | b0 :: b1 :: b2 :: b3 :: _ =>
      Some (Z.lor (Z.lor (Z.lor (byteZ b0) (Z.shiftl (byteZ b1) 8))
                         (Z.shiftl (byteZ b2) 16))
                  (Z.shiftl (byteZ b3) 24))
  | _ => None
  end.
End binary.

(** The slice expression [b[lo:hi]]; it panics when [hi] is beyond the
    length or [lo] beyond [hi]: [None]. *)
Definition slice (b : core.bytes) (lo hi : nat) : option core.bytes :=
  if (lo <=? hi)%nat && (hi <=? List.length b)%nat
  then Some (firstn (hi - lo) (skipn lo b))
  else None.

Module dexAccount.
Import core.

Definition withKeys (a : dexAccount) (encKey' : bytes)
           (privKey' : option PrivateKey) (id' : bytes) : dexAccount :=
  {| host := host a; viewOnly := viewOnly a; encKey := encKey';
     privKey := privKey'; id := id';
     isAuthed := isAuthed a; disabled := disabled a |}.

(** The loop [for i := 0; i < 8; i++] of [setupCryptoV2], from [i] with
    [n] rounds to go. *)
Fixpoint chunkKids (byteSeq : bytes) (i n : nat) (kids : list uint32)
  : option (list uint32) :=
  match n with
  | O => Some kids
  | S n' =>
      match slice byteSeq (i * 4) (i * 4 + 4) with
      | None => None
      | Some chunk =>
          match binary.Uint32 chunk with
          | None => None
          | Some kid => chunkKids byteSeq (S i) n' (kids ++ [kid])
          end
      end
  end.

(** The chain of child indices [setupCryptoV2] prepares, hardened. [None]
    when an index expression is out of range. *)
Definition kids (dexPkB : bytes) (keyIndex : uint32)
  : option (list uint32) :=
  let kids := [hdKeyPurposeAccts] in
  match dexPkB with
  | [] => None
  | v :: byteSeq =>
      let kids := kids ++ [byteZ v] in
      match chunkKids byteSeq 0 8 kids with
      | None => None
      | Some kids =>
          let kids := kids ++ [keyIndex] in
          Some (map (fun kid =>
                       wrap32 (kid mod hdkeychain.HardenedKeyStart
                               + hdkeychain.HardenedKeyStart))
                    kids)
      end
  end.

Section Methods.
Context {K : Keys}.

(** [setupCryptoV2]. [dexPkB] is [a.dexPubKey.SerializeCompressed()] and
    [EncSeed] is [creds.EncSeed]. The account is written once, at the end;
    an error leaves it as it was. [None] is a panic. *)
Definition setupCryptoV2 (a : dexAccount) (dexPkB EncSeed : bytes)
           (crypter : encrypt.Crypter) (keyIndex : uint32)
  : option (result dexAccount) :=
  if hdkeychain.HardenedKeyStart <=? keyIndex then
    Some (Err (New ("maximum key generation reached, cannot generate "
                    ++ decimal keyIndex ++ "th key")))
  else
    match encrypt.Decrypt crypter EncSeed with
    | inr err => Some (Err (Wrap "seed decryption error" err))
    | inl seed =>
        if negb (List.length dexPkB =? 33)%nat then
          Some (Err (New ("invalid dex pubkey length "
                          ++ decimal (Z.of_nat (List.length dexPkB)))))
        else
          match kids dexPkB keyIndex with
          | None => None
          | Some kids =>
              match GenDeepChild seed kids with
              | inr err => Some (Err (Wrap "GenDeepChild error" err))
              | inl extKey =>
                  match SerializedPrivKey extKey with
                  | inr err =>
                      Some (Err (Wrap "SerializedPrivKey error" err))
                  | inl privB =>
                      match encrypt.Encrypt crypter privB with
                      | inr err => Some (Err (Wrap "key Encrypt error" err))
                      | inl encKey =>
                          let pkBytes := SerializedPubKey extKey in
                          let priv := PrivKeyFromBytes privB in
                          Some (Ok (withKeys a encKey (Some priv)
                                             (NewID pkBytes)))
                      end
                  end
              end
          end
    end.

(** [unlock] decrypts the account private key. *)
Definition unlock (a : dexAccount) (crypter : encrypt.Crypter)
  : result dexAccount :=
  match encrypt.Decrypt crypter (encKey a) with
  | inr err => Err err
  | inl keyB =>
      let privKey := PrivKeyFromBytes keyB in
      let pubKey := PubKeySerializeCompressed privKey in
      Ok (withKeys a (encKey a) (Some privKey) (NewID pubKey))
  end.

End Methods.

End dexAccount.

(** * client/core/types.go: tokens and locked amounts *)

(** [encoding/hex]: two lower-case digits for every byte. *)
Module hex.

Definition hextable (n : N) : ascii :=
  match n with
  | 0 => "0" | 1 => "1" | 2 => "2" | 3 => "3" | 4 => "4" | 5 => "5"
  | 6 => "6" | 7 => "7" | 8 => "8" | 9 => "9" | 10 => "a" | 11 => "b"
  | 12 => "c" | 13 => "d" | 14 => "e" | _ => "f"
  end%N%char.

(** [hextable[v>>4]] and [hextable[v&0x0f]]. *)
Definition high (v : Byte.byte) : ascii :=
  hextable (N.shiftr (Byte.to_N v) 4).
Definition low (v : Byte.byte) : ascii :=
  hextable (N.land (Byte.to_N v) 15).

Fixpoint EncodeToString (src : core.bytes) : string :=
  match src with
  | [] => EmptyString
  | v :: rest => String (high v) (String (low v) (EncodeToString rest))
  end.

End hex.

(** [token]: a short representation of an ID. *)
Definition token (id : core.bytes) : string :=
  if (List.length id <? 4)%nat then EmptyString
  else hex.EncodeToString (firstn 4 id).

Module Order.
(** The fields of [Order] that the locked amounts of a market read. *)
Record t : Type := mk {
  Sell : bool;
  LockedAmt : uint64
}.
End Order.

Module Market.
(** The fields of [Market] that its locked amounts and its rate conversions
    read. *)
Record t : Type := mk {
  Orders : list Order.t;
  AtomToConv : float64
}.

Definition sideOrderLocked (m : t) (sell : bool) : uint64 :=
  fold_left
    (fun amt ord =>
       if negb (Bool.eqb (Order.Sell ord) sell) then amt
       else wrap64 (amt + Order.LockedAmt ord))
    (Orders m) 0.

Definition BaseOrderLocked (m : t) : uint64 := sideOrderLocked m true.
Definition QuoteOrderLocked (m : t) : uint64 := sideOrderLocked m false.

Section Rates.
Context {P : Platform} {K : calc.Constants}.

(** [MsgRateToConventional] converts a message-rate to a conventional
    rate: [float64(r) / calc.RateEncodingFactor * m.AtomToConv]. *)
Definition MsgRateToConventional (m : t) (r : uint64) : float64 :=
  F64.mul (F64.div (F64.of_Z r) calc.RateEncodingFactor) (AtomToConv m).

(** [ConventionalRateToMsg] converts a conventional rate to a
    message-rate: [uint64(math.Round(p / m.AtomToConv *
    calc.RateEncodingFactor))]. *)
Definition ConventionalRateToMsg (m : t) (p : float64) : uint64 :=
  F64.to_uint64
    (F64.Round (F64.mul (F64.div p (AtomToConv m)) calc.RateEncodingFactor)).

End Rates.
End Market.

(** * Concurrent triggers *)

(** Where a goroutine that called [rebalance newEpoch] stands: before its
    compare-and-swap, holding the flag before the body, holding it with the
    body done (the deferred [Store(false)] is next), or back at its caller. *)
Inductive phase : Type :=
| Waiting (newEpoch : uint64)
| Inside (newEpoch : uint64)
| Releasing
| Returned.

(** One atomic step of a goroutine on the shared bot state. *)
Definition stepThread {P : Platform} (m : basicMarketMaker) (ph : phase)
           (st : botState) : phase * botState :=
  match ph with
  | Waiting newEpoch =>
      let (swapped, st') := CompareAndSwap false true st in
      (if swapped then Inside newEpoch else Returned, st')
  | Inside newEpoch => (Releasing, snd (rebalance_body m newEpoch st))
  | Releasing => (Returned, snd (Store false st))
  | Returned => (Returned, st)
  end.

(** Any goroutine may take the next step. *)
Inductive sysStep {P : Platform} (m : basicMarketMaker)
  : list phase * botState -> list phase * botState -> Prop :=
| sysStep_at : forall before ph after st,
    sysStep m (before ++ ph :: after, st)
              (before ++ fst (stepThread m ph st) :: after,
               snd (stepThread m ph st)).

Inductive sysSteps {P : Platform} (m : basicMarketMaker)
  : list phase * botState -> list phase * botState -> Prop :=
| sysSteps_refl : forall c, sysSteps m c c
| sysSteps_snoc : forall c1 c2 c3,
    sysSteps m c1 c2 -> sysStep m c2 c3 -> sysSteps m c1 c3.

Definition holdsFlag (ph : phase) : bool :=
  match ph with
  | Inside _ | Releasing => true
  | Waiting _ | Returned => false
  end.

(** The number of goroutines between their compare-and-swap and their
    release. *)
Definition holders (ths : list phase) : nat :=
  List.length (filter holdsFlag ths).

(** The flag is set exactly while one goroutine is between its
    compare-and-swap and its release. *)
Definition flagInvariant (c : list phase * botState) : Prop :=
  holders (fst c) = if rebalanceRunning (snd c) then 1%nat else 0%nat.

(** * Sample values *)

(** [calc.RateEncodingFactor] as package dex/calc sets it, 1e8. *)
Definition sampleConstants : calc.Constants := {|
  calc.RateEncodingFactor := F64.of_Z (10 ^ 8)
|}.

(** The gap factors 0.01 and 0.02. *)
Definition gap1pc : float64 := F64.const 1 100.
Definition gap2pc : float64 := F64.const 2 100.

Definition sampleMarket (step : uint64) : market := {|
  baseID := 42; quoteID := 0;
  lotSize := 10; rateStep := step;
  msgRate := fun _ => 0
|}.

(** A calculator double: a fixed basis price and no fees. *)
Definition fixedCalculator (bp : uint64) : basicMMCalculator.t :=
  basicMMCalculator.mk
    (Ok bp) (fun _ => Ok 0) (fun p => Ok (FeeGapStats.mk p 0 0 0)).

(** A maker with one buy rung [{Lots: 1, GapFactor: 0.01}], the given
    strategy and rate step, a fixed basis price, and a health check that
    answers [healthy]. *)
Definition sampleMaker (strat : GapStrategy) (step bp : uint64)
           (healthy : bool) : basicMarketMaker := {|
  mmMarket := sampleMarket step;
  cfg := BasicMarketMakingConfig.mk strat []
           [OrderPlacement.mk 1 gap1pc] (F64.const 1 1000);
  calculator := fixedCalculator bp;
  checkBotHealth := fun _ => healthy;
  multiTrade := fun _ sell _ _ => Some (OrderReportRef (if sell then 1 else 0))
|}.

Definition idleBot : botState := {| rebalanceRunning := false; calls := [] |}.


(** A calculator over [sampleMarket]: no oracle price, no fiat rate, and a
    fee of one base unit for every order. *)
Definition sampleCalculatorImpl (step : uint64) : basicMMCalculatorImpl.t :=
  basicMMCalculatorImpl.mk
    (sampleMarket step)
    {| getMarketPrice := fun _ _ => F64.zero |}
    {| ExchangeRateFromFiatSources := 0;
       OrderFeesInUnits := fun _ _ _ => Ok 1 |}
    (BasicMarketMakingConfig.mk GapStrategyMultiplier [] [] (F64.const 1 1000)).

(** A calculator that reads the given oracle and fiat rates. *)
Definition ratesCalculatorImpl (oracleRate rateFromFiat step : uint64)
  : basicMMCalculatorImpl.t :=
  basicMMCalculatorImpl.mk
    {| baseID := 42; quoteID := 0; lotSize := 10; rateStep := step;
       msgRate := fun _ => oracleRate |}
    {| getMarketPrice := fun _ _ => F64.zero |}
    {| ExchangeRateFromFiatSources := rateFromFiat;
       OrderFeesInUnits := fun _ _ _ => Ok 1 |}
    (BasicMarketMakingConfig.mk GapStrategyMultiplier [] [] (F64.const 1 1000)).

(** A toy instance of the key primitives: the extended key is the seed
    followed by the low byte of each index; it serializes to itself. *)
Definition sampleKeys : Keys := {|
  ExtendedKey := core.bytes;
  GenDeepChild seed kids :=
    Ok (seed ++ map (fun kid =>
                       match Byte.of_N (Z.to_N (kid mod 256)) with
                       | Some b => b
                       | None => Byte.x00
                       end) kids);
  SerializedPrivKey k := Ok k;
  SerializedPubKey k := rev k;
  PrivKeyFromBytes b := b;
  PubKeySerializeCompressed k := rev k;
  NewID b := firstn 4 b
|}.

(** A crypter that flips the order of the bytes. *)
Definition sampleCrypter : encrypt.Crypter := {|
  encrypt.Encrypt b := Ok (rev b);
  encrypt.Decrypt b := Ok (rev b)
|}.

Definition sampleAccount : core.dexAccount := {|
  core.host := "dex.example"; core.viewOnly := false; core.encKey := [];
  core.privKey := None; core.id := [];
  core.isAuthed := false; core.disabled := false
|}.

(** A 33-byte public key: 0x02 followed by 32 bytes 0x11. *)
Definition samplePubKey : core.bytes :=
  Byte.x02 :: repeat Byte.x11 32.

(** The same key with the top bit of byte 4 set. *)
Definition collidingPubKey : core.bytes :=
  Byte.x02 :: Byte.x11 :: Byte.x11 :: Byte.x11 :: Byte.x91
           :: repeat Byte.x11 28.

(** A market whose conversion factor is 1000. *)
Definition sampleRateMarket : Market.t :=
  Market.mk [] (F64.of_Z 1000).

(** * Notions used to state the properties *)

(** The quantity a ladder stands for: the sum of [Lots * lotSize], as a
    number (no wrap-around). *)
Definition sumQty (placements : list OrderPlacement.t) (lotSize : Z) : Z :=
  fold_right (fun p acc => OrderPlacement.Lots p * lotSize + acc) 0 placements.

(** [subseq l1 l2]: [l1] is [l2] with some elements left out, order kept. *)
Inductive subseq {A : Type} : list A -> list A -> Prop :=
| subseq_nil : subseq [] []
| subseq_skip : forall x l1 l2, subseq l1 l2 -> subseq l1 (x :: l2)
| subseq_keep : forall x l1 l2, subseq l1 l2 -> subseq (x :: l1) (x :: l2).


(** The calculator [b] on a market whose rate step is [step]. *)
Definition withRateStep (b : basicMMCalculatorImpl.t) (step : uint64)
  : basicMMCalculatorImpl.t :=
  basicMMCalculatorImpl.mk
    {| baseID := baseID (basicMMCalculatorImpl.mkt b);
       quoteID := quoteID (basicMMCalculatorImpl.mkt b);
       lotSize := lotSize (basicMMCalculatorImpl.mkt b);
       rateStep := step;
       msgRate := msgRate (basicMMCalculatorImpl.mkt b) |}
    (basicMMCalculatorImpl.orcl b)
    (basicMMCalculatorImpl.core b)
    (basicMMCalculatorImpl.cfg b).

(** The 53-bit mantissa and the float of a positive integer below 2^53: the
    integer shifted left until it has 53 bits. *)
Definition canonMant (n : Z) : positive :=
  Z.to_pos (n * 2 ^ (53 - Zdigits2 n)).

Definition exactFloat (s : bool) (n : Z) : float64 :=
  S754_finite s (canonMant n) (Zdigits2 n - 53).

(** The calls a computation adds to the log. *)
Definition adds (s s' : botState) (l : list Call) : Prop :=
  calls s' = calls s ++ l.




Definition knownGapStrategy (strat : GapStrategy) : Prop :=
  strat = GapStrategyMultiplier \/ strat = GapStrategyPercent
  \/ strat = GapStrategyPercentPlus \/ strat = GapStrategyAbsolute
  \/ strat = GapStrategyAbsolutePlus.

(** Neither below the lower limit nor above the upper one; a NaN is
    neither. *)
Definition withinLimits (strat : GapStrategy) (gapFactor : float64) : Prop :=
  match limits strat with
  | Some (lo, hi) =>
      F64.ltb gapFactor lo = false /\ F64.gtb gapFactor hi = false
  | None => False
  end.

(** No two of the gap factors are [==]. *)
Definition distinctGapFactors (gapFactors : list float64) : Prop :=
  ForallOrdPairs (fun x y => F64.eqb x y = false) gapFactors.

Definition validLadder (strat : GapStrategy)
           (placements : list OrderPlacement.t) : Prop :=
  Forall (withinLimits strat) (map OrderPlacement.GapFactor placements)
  /\ distinctGapFactors (map OrderPlacement.GapFactor placements).

Definition validConfig (c : BasicMarketMakingConfig.t) : Prop :=
  (F64.ltb (BasicMarketMakingConfig.DriftTolerance c) F64.zero = false
   /\ F64.gtb (BasicMarketMakingConfig.DriftTolerance c) (F64.const 1 100)
      = false)
  /\ knownGapStrategy (BasicMarketMakingConfig.GapStrategy c)
  /\ validLadder (BasicMarketMakingConfig.GapStrategy c)
                 (BasicMarketMakingConfig.SellPlacements c)
  /\ validLadder (BasicMarketMakingConfig.GapStrategy c)
                 (BasicMarketMakingConfig.BuyPlacements c).

(** What [validate] leaves in the configuration. *)
Definition withDefaultDrift (c : BasicMarketMakingConfig.t)
  : BasicMarketMakingConfig.t :=
  BasicMarketMakingConfig.mk
    (BasicMarketMakingConfig.GapStrategy c)
    (BasicMarketMakingConfig.SellPlacements c)
    (BasicMarketMakingConfig.BuyPlacements c)
    (if F64.eqb (BasicMarketMakingConfig.DriftTolerance c) F64.zero
     then F64.const 1 1000
     else BasicMarketMakingConfig.DriftTolerance c).

(** A rung with its lots multiplied by [k]. *)
Definition scaleLots (k : Z) (p : OrderPlacement.t) : OrderPlacement.t :=
  OrderPlacement.mk (OrderPlacement.Lots p * k) (OrderPlacement.GapFactor p).

(** The epochs of the notifications received before the feed is closed or
    the context is done. *)
Fixpoint resolvedBeforeStop (received : list selected) : list uint64 :=
  match received with
  | Notification (Some current) :: rest => current :: resolvedBeforeStop rest
  | Notification None :: rest => resolvedBeforeStop rest
  | _ => []
  end.

(** The epochs of the health checks in a log. *)
Fixpoint checkedEpochs (l : list Call) : list uint64 :=
  match l with
  | [] => []
  | CallCheckBotHealth epochNum :: rest => epochNum :: checkedEpochs rest
  | _ :: rest => checkedEpochs rest
  end.

(** How the goroutine ends on what it receives. *)
Fixpoint stopOf (received : list selected) : loopEnd :=
  match received with
  | [] => Selecting
  | Notification _ :: rest => stopOf rest
  | FeedClosed :: _ => Killed
  | ContextDone :: _ => Cancelled
  end.

(** The sum of the locked amounts of all orders, as a number. *)
Definition totalLocked (orders : list Order.t) : Z :=
  fold_right (fun ord acc => Order.LockedAmt ord + acc) 0 orders.

(** The digit a character stands for. *)
Definition unhex (c : ascii) : option N :=
  let n := N_of_ascii c in
  if (48 <=? n)%N && (n <=? 57)%N then Some (n - 48)%N
  else if (97 <=? n)%N && (n <=? 102)%N then Some (n - 87)%N
  else None.

(** The bytes of a public key as the derivation path sees them: after the
    first byte, the top bit of every fourth byte is dropped. *)
Fixpoint pathWords (byteSeq : core.bytes) : list Z :=
  match byteSeq with
  | b0 :: b1 :: b2 :: b3 :: rest =>
      byteZ b0 :: byteZ b1 :: byteZ b2 :: byteZ b3 mod 128 :: pathWords rest
  | _ => map byteZ byteSeq
  end.

Definition pathBytes (dexPkB : core.bytes) : list Z :=
  match dexPkB with
  | [] => []
  | v :: byteSeq => byteZ v :: pathWords byteSeq
  end.

(** A child index, hardened as [setupCryptoV2] does. *)
Definition harden (kid : uint32) : uint32 :=
  wrap32 (kid mod hdkeychain.HardenedKeyStart + hdkeychain.HardenedKeyStart).

(** The value of a finite float, as a rational. *)
Definition F2Q (x : float64) : Q :=
  match x with
  | S754_finite s m e => (inject_Z (cond_Zopp s (Zpos m)) * 2 ^ e)%Q
  | _ => 0%Q
  end.

(** A positive normal float: a 53-bit mantissa and an exponent in range. *)
Definition normalFloat (x : float64) (m : positive) (e : Z) : Prop :=
  x = S754_finite false m e
  /\ Zpos (digits2_pos m) = 53 /\ -1074 <= e <= 971.

(** The unit of relative error of one rounded operation, 2^-52 (twice the
    unit roundoff: rounding is to nearest, the bound used is one unit in the
    last place). *)
Definition ulp52 : Q := (1 # 4503599627370496)%Q.

(** [y] is [x] up to a relative error of [ulp52]. *)
Definition near (x y : Q) : Prop :=
  (x * (1 - ulp52) <= y /\ y <= x * (1 + ulp52))%Q.

(** * Properties *)

(** ** Machine integers *)

Lemma wrap64_range (x : Z) : 0 <= wrap64 x < 2 ^ 64.
Proof. unfold wrap64. apply Z.mod_pos_bound. lia. Qed.

Lemma wrap64_small (x : Z) : 0 <= x < 2 ^ 64 -> wrap64 x = x.
Proof. intros H. unfold wrap64. apply Z.mod_small. exact H. Qed.

Lemma wrap64_le (x : Z) : 0 <= x -> wrap64 x <= x.
Proof. intros H. unfold wrap64. apply Z.mod_le; lia. Qed.

(** ** steppedRate *)

Lemma nearestSteps_zero (step : Z) : 0 <= step -> nearestSteps 0 step = 0.
Proof.
  intros Hs. unfold nearestSteps.
  replace (2 * 0 + step) with step by lia.
  destruct (Z.eq_dec step 0) as [->|Hne]; [reflexivity|].
  apply Z.div_small. lia.
Qed.



(** The rule without its special case: the zero rate is quantized to zero
    by the rounding already. *)
Lemma steppedRate_rule (x step : uint64) :
  0 <= step -> steppedRate x step = wrap64 (nearestSteps x step * step).
Proof.
  intros Hs. unfold steppedRate.
  destruct (Z.eqb_spec x 0) as [->|Hx]; [|reflexivity].
  rewrite nearestSteps_zero by exact Hs. reflexivity.
Qed.




Lemma steppedRate_nonneg (x step : uint64) :
  0 <= step -> 0 <= steppedRate x step.
Proof.
  intros Hs. rewrite steppedRate_rule by exact Hs. apply wrap64_range.
Qed.

Lemma steppedRate_divides (x step : uint64) :
  0 < x -> 0 < step -> x < 2 ^ 64 -> (step | x) -> steppedRate x step = x.
Proof.
  intros Hx Hs Hlt [k ->]. rewrite steppedRate_rule by lia.
  assert (nearestSteps (k * step) step = k) as ->.
  { unfold nearestSteps.
    replace (2 * (k * step) + step) with (step + k * (2 * step)) by ring.
    rewrite Z.div_add by lia. rewrite Z.div_small by lia. lia. }
  apply wrap64_small. lia.
Qed.

(** ** dexAccount.sign *)

Section Sign.
Context {S : core.Signer}.

Lemma sign_unlocked (a : core.dexAccount) (k : core.PrivateKey)
      (msg : core.bytes) :
  core.privKey a = Some k -> core.sign a msg = Ok (core.signMsg k msg).
Proof. intros H. unfold core.sign. rewrite H. reflexivity. Qed.

Lemma sign_after_lock (a : core.dexAccount) (msg : core.bytes) :
  core.sign (core.lock a) msg = Err core.errAccountLocked.
Proof. reflexivity. Qed.

(** C9. [sign] fails exactly when no private key is resident, and then with
    "account locked"; with a key [k] resident it returns [signMsg k msg],
    and it never returns a signature without one. After [lock] it fails. *)
Theorem sign_fails_iff_locked (a : core.dexAccount) (msg : core.bytes) :
  ((exists e, core.sign a msg = Err e) <-> core.privKey a = None)
  /\ (core.privKey a = None <-> core.sign a msg = Err (New "account locked"))
  /\ (forall sig, core.sign a msg = Ok sig ->
        exists k, core.privKey a = Some k /\ sig = core.signMsg k msg)
  /\ (forall k, core.privKey a = Some k ->
        core.sign a msg = Ok (core.signMsg k msg))
  /\ (core.locked a = true <-> core.privKey a = None)
  /\ core.sign (core.lock a) msg = Err (New "account locked").
Proof.
  unfold core.sign, core.locked.
  destruct (core.privKey a) as [k|] eqn:Hk; simpl.
  - repeat split; try discriminate.
    + intros [e He]. discriminate He.
    + intros sig [= <-]. exists k. split; reflexivity.
    + intros k' [= <-]. reflexivity.
  - repeat split; try discriminate; try reflexivity.
    exists core.errAccountLocked. reflexivity.
Qed.

End Sign.

(** ** The bot monad *)

Lemma call_adds {A : Type} (c : Call) (answer : A) (s : botState) :
  call c answer s
  = (answer, {| rebalanceRunning := rebalanceRunning s;
                calls := calls s ++ [c] |}).
Proof. reflexivity. Qed.

(** What [ordersToPlace] does to the bot state: it leaves the flag alone
    and adds calls on the calculator and [registerFeeGap] only. *)
Inductive plannerCall : Call -> Prop :=
| plannerCall_basisPrice : plannerCall CallBasisPrice
| plannerCall_feeGapStats : forall bp, plannerCall (CallFeeGapStats bp)
| plannerCall_registerFeeGap : forall fg, plannerCall (CallRegisterFeeGap fg).

#[local] Hint Constructors plannerCall : core.

Section MakerProps.
Context {P : Platform}.
Variable m : basicMarketMaker.

Lemma ordersToPlace_state (s : botState) :
  exists l,
    snd (ordersToPlace m s)
    = {| rebalanceRunning := rebalanceRunning s; calls := calls s ++ l |}
    /\ Forall plannerCall l
    /\ hd_error l = Some CallBasisPrice.
Proof.
  unfold ordersToPlace, bind, call, ret. simpl.
  destruct (basicMMCalculator.basisPrice (calculator m)) as [bp|e]; simpl.
  - destruct (basicMMCalculator.feeGapStats (calculator m) bp) as [fg|e];
      simpl.
    + exists [CallBasisPrice; CallFeeGapStats bp; CallRegisterFeeGap fg].
      rewrite <- !app_assoc. simpl. auto 6.
    + exists [CallBasisPrice; CallFeeGapStats bp].
      rewrite <- !app_assoc. simpl. auto 6.
  - exists [CallBasisPrice]. auto.
Qed.

Lemma ordersToPlace_flag (s : botState) :
  rebalanceRunning (snd (ordersToPlace m s)) = rebalanceRunning s.
Proof.
  destruct (ordersToPlace_state s) as (l & E & _). rewrite E. reflexivity.
Qed.

(** The three ways through the body of [rebalance]. *)
Lemma rebalance_body_unhealthy (newEpoch : uint64) (s : botState) :
  checkBotHealth m newEpoch = false ->
  rebalance_body m newEpoch s
  = (tt, {| rebalanceRunning := rebalanceRunning s;
            calls := calls s ++ [CallCheckBotHealth newEpoch;
                                 CallTryCancelOrders newEpoch false] |}).
Proof.
  intros H. unfold rebalance_body, bind, call. simpl. rewrite H. simpl.
  rewrite <- app_assoc. reflexivity.
Qed.

Lemma rebalance_body_failed (newEpoch : uint64) (s s1 : botState)
      (err : error) :
  checkBotHealth m newEpoch = true ->
  ordersToPlace m {| rebalanceRunning := rebalanceRunning s;
                     calls := calls s ++ [CallCheckBotHealth newEpoch] |}
  = (Err err, s1) ->
  rebalance_body m newEpoch s
  = (tt, {| rebalanceRunning := rebalanceRunning s1;
            calls := calls s1
                     ++ [CallTryCancelOrders newEpoch false;
                         CallUpdateEpochReport
                           (EpochReport.mk (Some err) None None newEpoch)] |}).
Proof.
  intros H E. unfold rebalance_body, bind, call. simpl. rewrite H. simpl.
  rewrite E. simpl. rewrite <- app_assoc. reflexivity.
Qed.

Lemma rebalance_body_placed (newEpoch : uint64) (s s1 : botState)
      (buyOrders sellOrders : list TradePlacement.t) :
  checkBotHealth m newEpoch = true ->
  ordersToPlace m {| rebalanceRunning := rebalanceRunning s;
                     calls := calls s ++ [CallCheckBotHealth newEpoch] |}
  = (Ok (buyOrders, sellOrders), s1) ->
  let drift := BasicMarketMakingConfig.DriftTolerance (cfg m) in
  rebalance_body m newEpoch s
  = (tt, {| rebalanceRunning := rebalanceRunning s1;
            calls := calls s1
                     ++ [CallMultiTrade buyOrders false drift newEpoch;
                         CallMultiTrade sellOrders true drift newEpoch;
                         CallUpdateEpochReport
                           (EpochReport.mk None
                              (multiTrade m buyOrders false drift newEpoch)
                              (multiTrade m sellOrders true drift newEpoch)
                              newEpoch)] |}).
Proof.
  intros H E. unfold rebalance_body, bind, call. simpl. rewrite H. simpl.
  rewrite E. simpl. rewrite <- !app_assoc. reflexivity.
Qed.

Lemma rebalance_body_flag (newEpoch : uint64) (s : botState) :
  rebalanceRunning (snd (rebalance_body m newEpoch s)) = rebalanceRunning s.
Proof.
  destruct (checkBotHealth m newEpoch) eqn:H.
  - destruct (ordersToPlace m
                {| rebalanceRunning := rebalanceRunning s;
                   calls := calls s ++ [CallCheckBotHealth newEpoch] |})
      as [[[buys sells]|err] s1] eqn:E.
    + rewrite (rebalance_body_placed _ _ _ _ _ H E). simpl.
      pose proof (ordersToPlace_flag
                    {| rebalanceRunning := rebalanceRunning s;
                       calls := calls s ++ [CallCheckBotHealth newEpoch] |})
        as F.
      rewrite E in F. exact F.
    + rewrite (rebalance_body_failed _ _ _ _ H E). simpl.
      pose proof (ordersToPlace_flag
                    {| rebalanceRunning := rebalanceRunning s;
                       calls := calls s ++ [CallCheckBotHealth newEpoch] |})
        as F.
      rewrite E in F. exact F.
  - rewrite (rebalance_body_unhealthy _ _ H). reflexivity.
Qed.

Lemma rebalance_acquires (newEpoch : uint64) (st : botState) :
  rebalanceRunning st = false ->
  rebalance m newEpoch st
  = (tt, {| rebalanceRunning := false;
            calls := calls (snd (rebalance_body m newEpoch
                                   {| rebalanceRunning := true;
                                      calls := calls st |})) |}).
Proof.
  intros H. unfold rebalance, bind, CompareAndSwap, defer, bind, Store, ret.
  rewrite H. simpl.
  destruct (rebalance_body m newEpoch
              {| rebalanceRunning := true; calls := calls st |}) as [[] s'].
  reflexivity.
Qed.

(** C5. A call that finds [rebalanceRunning] set returns at once and leaves
    the bot state as it was: nothing is added to the log of calls (no health
    check, no planner call, no cancellation, no [multiTrade], no report) and
    nothing else is recorded, so the trigger is not queued. A call that finds
    the flag clear runs the body with the flag set and ends with the flag
    clear, whichever way the body goes. *)
Theorem rebalance_single_flight (newEpoch : uint64) (st : botState) :
  (rebalanceRunning st = true -> rebalance m newEpoch st = (tt, st))
  /\ (rebalanceRunning st = false ->
      rebalance m newEpoch st
      = (tt, {| rebalanceRunning := false;
                calls := calls (snd (rebalance_body m newEpoch
                                       {| rebalanceRunning := true;
                                          calls := calls st |})) |})
      /\ rebalanceRunning
           (snd (rebalance_body m newEpoch
                   {| rebalanceRunning := true; calls := calls st |})) = true
      /\ rebalanceRunning (snd (rebalance m newEpoch st)) = false).
Proof.
  split.
  - intros H. unfold rebalance, bind, CompareAndSwap. rewrite H. reflexivity.
  - intros H. rewrite (rebalance_acquires _ _ H).
    split; [reflexivity|]. split; [|reflexivity].
    apply rebalance_body_flag.
Qed.





End MakerProps.


(** ** updateLotSize *)

Lemma subseq_refl {A : Type} (l : list A) : subseq l l.
Proof. induction l; [apply subseq_nil | apply subseq_keep; assumption]. Qed.

Lemma subseq_length {A : Type} (l1 l2 : list A) :
  subseq l1 l2 -> (List.length l1 <= List.length l2)%nat.
Proof. induction 1; simpl; lia. Qed.

Lemma subseq_app_keep {A : Type} (pre l1 l2 : list A) :
  subseq l1 l2 -> subseq (pre ++ l1) (pre ++ l2).
Proof.
  intros H. induction pre; simpl; [exact H|]. apply subseq_keep. exact IHpre.
Qed.

Lemma sumQty_app (l1 l2 : list OrderPlacement.t) (lotSize : Z) :
  sumQty (l1 ++ l2) lotSize = sumQty l1 lotSize + sumQty l2 lotSize.
Proof. induction l1; simpl; [reflexivity|]. rewrite IHl1. ring. Qed.

Section UpdateLotSizeProps.
Context {P : Platform}.

Lemma totalQty_from (placements : list OrderPlacement.t)
      (originalLotSize acc : Z) :
  Forall (fun p => 0 <= OrderPlacement.Lots p) placements ->
  0 <= originalLotSize ->
  0 <= acc < 2 ^ 64 ->
  let q := fold_left
             (fun qtyCounter p =>
                wrap64 (qtyCounter
                        + wrap64 (OrderPlacement.Lots p * originalLotSize)))
             placements acc in
  0 <= q < 2 ^ 64 /\ q <= acc + sumQty placements originalLotSize.
Proof.
  intros Hl Ho. revert acc. induction Hl as [|p ps Hp _ IH]; intros acc Ha.
  - simpl. lia.
  - simpl.
    set (acc' := wrap64 (acc + wrap64 (OrderPlacement.Lots p * originalLotSize))).
    assert (0 <= OrderPlacement.Lots p * originalLotSize) as Hprod
        by (apply Z.mul_nonneg_nonneg; assumption).
    pose proof (wrap64_range (OrderPlacement.Lots p * originalLotSize)) as R1.
    pose proof (wrap64_le _ Hprod) as L1.
    pose proof (wrap64_range
                  (acc + wrap64 (OrderPlacement.Lots p * originalLotSize))) as R2.
    assert (acc' <= acc + OrderPlacement.Lots p * originalLotSize) as L2.
    { unfold acc'. etransitivity; [apply wrap64_le; lia|lia]. }
    destruct (IH acc' R2) as [B1 B2]. split; [exact B1|]. lia.
Qed.

Lemma totalQty_bound (placements : list OrderPlacement.t)
      (originalLotSize : Z) :
  Forall (fun p => 0 <= OrderPlacement.Lots p) placements ->
  0 <= originalLotSize ->
  0 <= totalQty placements originalLotSize < 2 ^ 64
  /\ totalQty placements originalLotSize <= sumQty placements originalLotSize.
Proof.
  intros Hl Ho. unfold totalQty.
  pose proof (totalQty_from placements originalLotSize 0 Hl Ho ltac:(lia)) as H.
  simpl in H. exact H.
Qed.

(** The number of lots a rung gets when [qtyCounter] is what remains. *)
Lemma updateLotSize_loop_step (p : OrderPlacement.t)
      (rest : list OrderPlacement.t) (originalLotSize newLotSize : uint64)
      (qtyCounter : uint64) (newPlacements : list OrderPlacement.t) :
  0 < newLotSize -> 0 <= qtyCounter < 2 ^ 64 ->
  let lots := Z.min (Z.max (roundedLots p originalLotSize newLotSize) 1)
                    (qtyCounter / newLotSize) in
  (qtyCounter < newLotSize ->
   updateLotSize_loop (p :: rest) originalLotSize newLotSize qtyCounter
                      newPlacements
   = updateLotSize_loop rest originalLotSize newLotSize qtyCounter
                        newPlacements)
  /\ (newLotSize <= qtyCounter ->
      1 <= lots /\ lots * newLotSize <= qtyCounter
      /\ updateLotSize_loop (p :: rest) originalLotSize newLotSize qtyCounter
                            newPlacements
         = updateLotSize_loop rest originalLotSize newLotSize
             (qtyCounter - lots * newLotSize)
             (newPlacements
                ++ [OrderPlacement.mk lots (OrderPlacement.GapFactor p)])).
Proof.
  intros Hn Hq lots. simpl. fold lots.
  assert ((newLotSize =? 0) = false) as -> by (apply Z.eqb_neq; lia).
  split.
  - intros Hlt.
    assert (lots = 0) as ->.
    { unfold lots. rewrite (Z.div_small qtyCounter newLotSize) by lia. lia. }
    reflexivity.
  - intros Hge.
    assert (1 <= qtyCounter / newLotSize) as Hd.
    { apply Z.div_le_lower_bound; lia. }
    assert (lots * newLotSize <= qtyCounter) as Hm.
    { pose proof (Z.mul_div_le qtyCounter newLotSize Hn).
      assert (lots <= qtyCounter / newLotSize) by (unfold lots; lia). nia. }
    assert (1 <= lots) as H1 by (unfold lots; lia).
    split; [exact H1|]. split; [exact Hm|].
    assert ((lots =? 0) = false) as -> by (apply Z.eqb_neq; lia).
    rewrite (wrap64_small (lots * newLotSize)) by nia.
    rewrite (wrap64_small (qtyCounter - lots * newLotSize)) by nia.
    reflexivity.
Qed.

Lemma updateLotSize_loop_total (placements : list OrderPlacement.t)
      (originalLotSize newLotSize : uint64) :
  0 < newLotSize ->
  forall (qtyCounter : uint64) (newPlacements : list OrderPlacement.t),
    0 <= qtyCounter < 2 ^ 64 ->
    exists out,
      updateLotSize_loop placements originalLotSize newLotSize qtyCounter
                         newPlacements
      = Some (newPlacements ++ out)
      /\ sumQty out newLotSize <= qtyCounter
      /\ Forall (fun p => 1 <= OrderPlacement.Lots p) out.
Proof.
  intros Hn. induction placements as [|p rest IH]; intros q acc Hq.
  - exists []. simpl. rewrite app_nil_r. repeat split; [lia | constructor].
  - destruct (updateLotSize_loop_step p rest originalLotSize newLotSize q acc
                                      Hn Hq) as [Hdrop Hkeep].
    destruct (Z.lt_ge_cases q newLotSize) as [Hlt|Hge].
    + rewrite (Hdrop Hlt). apply IH. exact Hq.
    + destruct (Hkeep Hge) as (H1 & Hm & ->).
      set (lots := Z.min (Z.max (roundedLots p originalLotSize newLotSize) 1)
                         (q / newLotSize)) in *.
      destruct (IH (q - lots * newLotSize)
                   (acc ++ [OrderPlacement.mk lots (OrderPlacement.GapFactor p)])
                   ltac:(nia)) as (out & E & Hsum & Hall).
      exists (OrderPlacement.mk lots (OrderPlacement.GapFactor p) :: out).
      rewrite E, <- app_assoc. simpl.
      repeat split; [lia | constructor; [exact H1 | exact Hall]].
Qed.

Lemma updateLotSize_loop_frame (placements : list OrderPlacement.t)
      (originalLotSize newLotSize : uint64) :
  newLotSize <> 0 ->
  forall (qtyCounter : uint64) (newPlacements : list OrderPlacement.t),
    exists out,
      updateLotSize_loop placements originalLotSize newLotSize qtyCounter
                         newPlacements
      = Some (newPlacements ++ out)
      /\ subseq (map OrderPlacement.GapFactor out)
                (map OrderPlacement.GapFactor placements).
Proof.
  intros Hn. induction placements as [|p rest IH]; intros q acc.
  - exists []. simpl. rewrite app_nil_r. split; [reflexivity | constructor].
  - simpl. destruct (newLotSize =? 0) eqn:E0; [apply Z.eqb_eq in E0; lia|].
    destruct (Z.min _ _ =? 0).
    + destruct (IH q acc) as (out & E & Hs).
      exists out. split; [exact E|]. apply subseq_skip. exact Hs.
    + match goal with
      | |- context [updateLotSize_loop rest _ _ ?q' (acc ++ [?x])] =>
          destruct (IH q' (acc ++ [x])) as (out & E & Hs); exists (x :: out)
      end.
      rewrite E, <- app_assoc. simpl. split; [reflexivity|].
      apply subseq_keep. exact Hs.
Qed.

(** C8, the claim as the code has it. With a nonzero new lot size
    [updateLotSize] returns a ladder whose quantity, the sum of
    [Lots * newLotSize], is at most the quantity of the original ladder, the
    sum of [Lots * originalLotSize]; no rung of it has zero lots. A rung is
    left out exactly when less than one new lot of the original quantity is
    still unallocated when its turn comes; otherwise it gets its rounded
    count, raised to one lot if that is zero and cut to what remains. *)
Theorem updateLotSize_total_qty (placements : list OrderPlacement.t)
        (originalLotSize newLotSize : uint64) :
  Forall (fun p => 0 <= OrderPlacement.Lots p) placements ->
  0 <= originalLotSize -> 0 < newLotSize ->
  (exists out,
     updateLotSize placements originalLotSize newLotSize = Some out
     /\ sumQty out newLotSize <= sumQty placements originalLotSize
     /\ Forall (fun p => 1 <= OrderPlacement.Lots p) out)
  /\ forall p rest qtyCounter newPlacements,
      0 <= qtyCounter < 2 ^ 64 ->
      let lots := Z.min (Z.max (roundedLots p originalLotSize newLotSize) 1)
                        (qtyCounter / newLotSize) in
      (qtyCounter < newLotSize ->
       updateLotSize_loop (p :: rest) originalLotSize newLotSize qtyCounter
                          newPlacements
       = updateLotSize_loop rest originalLotSize newLotSize qtyCounter
                            newPlacements)
      /\ (newLotSize <= qtyCounter ->
          1 <= lots
          /\ updateLotSize_loop (p :: rest) originalLotSize newLotSize
                                qtyCounter newPlacements
             = updateLotSize_loop rest originalLotSize newLotSize
                 (qtyCounter - lots * newLotSize)
                 (newPlacements
                    ++ [OrderPlacement.mk lots (OrderPlacement.GapFactor p)])).
Proof.
  intros Hl Ho Hn. split.
  - destruct (totalQty_bound placements originalLotSize Hl Ho) as [Hr Hle].
    destruct (updateLotSize_loop_total placements originalLotSize newLotSize
                Hn (totalQty placements originalLotSize) [] Hr)
      as (out & E & Hsum & Hall).
    exists out. unfold updateLotSize. rewrite E. simpl.
    repeat split; [lia | exact Hall].
  - intros p rest q acc Hq lots.
    destruct (updateLotSize_loop_step p rest originalLotSize newLotSize q acc
                                      Hn Hq) as [Hdrop Hkeep].
    split; [exact Hdrop|]. intros Hge.
    destruct (Hkeep Hge) as (H1 & _ & E). split; [exact H1 | exact E].
Qed.

(** C10. With a nonzero new lot size, the gap factors of the ladder
    [updateLotSize] returns are those of the given ladder with some left out,
    in the same order; so the result is no longer than the given ladder. *)
Theorem updateLotSize_frame (placements : list OrderPlacement.t)
        (originalLotSize newLotSize : uint64) :
  newLotSize <> 0 ->
  exists out,
    updateLotSize placements originalLotSize newLotSize = Some out
    /\ subseq (map OrderPlacement.GapFactor out)
              (map OrderPlacement.GapFactor placements)
    /\ (List.length out <= List.length placements)%nat.
Proof.
  intros Hn.
  destruct (updateLotSize_loop_frame placements originalLotSize newLotSize Hn
              (totalQty placements originalLotSize) []) as (out & E & Hs).
  exists out. unfold updateLotSize. rewrite E. simpl.
  split; [reflexivity|]. split; [exact Hs|].
  apply subseq_length in Hs. rewrite !length_map in Hs. exact Hs.
Qed.

End UpdateLotSizeProps.

Lemma updateLotSize_total_qty_witness :
  exists out,
    @updateLotSize indefinite63
      [OrderPlacement.mk 10 gap1pc; OrderPlacement.mk 1 gap2pc] 10 30
    = Some out
    /\ sumQty out 30
       <= sumQty [OrderPlacement.mk 10 gap1pc; OrderPlacement.mk 1 gap2pc] 10
    /\ Forall (fun p => 1 <= OrderPlacement.Lots p) out.
Proof.
  apply (@updateLotSize_total_qty indefinite63
           [OrderPlacement.mk 10 gap1pc; OrderPlacement.mk 1 gap2pc] 10 30).
  - repeat constructor; simpl; lia.
  - lia.
  - lia.
Defined.

(** C8 as stated fails: the first rung below rounds to zero lots under the
    new lot size (10/30 rounds to 0), and it is not dropped; it is kept with
    one lot. *)
Lemma updateLotSize_rounds_to_zero_counterexample :
  @roundedLots indefinite63 (OrderPlacement.mk 1 gap1pc) 10 30 = 0
  /\ @updateLotSize indefinite63
       [OrderPlacement.mk 1 gap1pc; OrderPlacement.mk 10 gap2pc] 10 30
     = Some [OrderPlacement.mk 1 gap1pc; OrderPlacement.mk 2 gap2pc].
Proof. split; vm_compute; reflexivity. Qed.

Lemma updateLotSize_frame_witness :
  exists out,
    @updateLotSize indefinite63
      [OrderPlacement.mk 10 gap1pc; OrderPlacement.mk 1 gap2pc] 10 30
    = Some out
    /\ subseq (map OrderPlacement.GapFactor out) [gap1pc; gap2pc]
    /\ (List.length out <= 2)%nat.
Proof.
  apply (@updateLotSize_frame indefinite63
           [OrderPlacement.mk 10 gap1pc; OrderPlacement.mk 1 gap2pc] 10 30).
  lia.
Defined.

(** ** float64 arithmetic on integers below 2^53 *)

(** The number of binary digits of a positive number. *)
Lemma digits2_pos_bounds (p : positive) :
  2 ^ (Zpos (digits2_pos p) - 1) <= Zpos p < 2 ^ Zpos (digits2_pos p).
Proof.
  induction p as [p IH|p IH|]; simpl digits2_pos.
  - rewrite Pos2Z.inj_succ.
    replace (Z.succ (Zpos (digits2_pos p)) - 1) with (Zpos (digits2_pos p)) by lia.
    rewrite Z.pow_succ_r by lia.
    assert (2 ^ Zpos (digits2_pos p) = 2 * 2 ^ (Zpos (digits2_pos p) - 1)) as E.
    { rewrite <- Z.pow_succ_r by lia. f_equal. lia. }
    lia.
  - rewrite Pos2Z.inj_succ.
    replace (Z.succ (Zpos (digits2_pos p)) - 1) with (Zpos (digits2_pos p)) by lia.
    rewrite Z.pow_succ_r by lia.
    assert (2 ^ Zpos (digits2_pos p) = 2 * 2 ^ (Zpos (digits2_pos p) - 1)) as E.
    { rewrite <- Z.pow_succ_r by lia. f_equal. lia. }
    lia.
  - simpl. lia.
Qed.

Lemma digits2_pos_unique (p : positive) (n : Z) :
  2 ^ (n - 1) <= Zpos p < 2 ^ n -> Zpos (digits2_pos p) = n.
Proof.
  intros [Hlo Hhi].
  pose proof (digits2_pos_bounds p) as [Blo Bhi].
  set (d := Zpos (digits2_pos p)) in *.
  assert (0 < d) by (unfold d; lia).
  destruct (Z.lt_trichotomy d n) as [Hlt|[Heq|Hgt]]; [|exact Heq|].
  - assert (2 ^ d <= 2 ^ (n - 1)) by (apply Z.pow_le_mono_r; lia). lia.
  - assert (n <= 0 \/ 0 < n) as [Hn|Hn] by lia.
    + assert (2 ^ n <= 2 ^ 0) by (apply Z.pow_le_mono_r; lia).
      simpl in *. lia.
    + assert (2 ^ n <= 2 ^ (d - 1)) by (apply Z.pow_le_mono_r; lia). lia.
Qed.

Lemma Pos_iter_xO (p k : positive) :
  Zpos (Pos.iter xO p k) = Zpos p * 2 ^ Zpos k.
Proof.
  revert p. induction k as [|k IH] using Pos.peano_ind; intros p.
  - simpl. lia.
  - rewrite Pos.iter_succ. rewrite Pos2Z.inj_xO, IH, Pos2Z.inj_succ.
    rewrite Z.pow_succ_r by lia. ring.
Qed.

Lemma iter_pos_Pos_iter {A : Type} (f : A -> A) (n : positive) (x : A) :
  iter_pos f n x = Pos.iter f x n.
Proof.
  revert x. induction n as [n IH|n IH|]; intros x.
  - change (iter_pos f n~1 x) with (iter_pos f n (iter_pos f n (f x))).
    change (Pos.iter f x n~1) with (f (Pos.iter f (Pos.iter f x n) n)).
    rewrite !IH, !Pos.iter_swap. reflexivity.
  - change (iter_pos f n~0 x) with (iter_pos f n (iter_pos f n x)).
    change (Pos.iter f x n~0) with (Pos.iter f (Pos.iter f x n) n).
    rewrite !IH. reflexivity.
  - reflexivity.
Qed.

Lemma shr_exact (k : positive) (m : positive) :
  iter_pos shr_1 k {| shr_m := Zpos (Pos.iter xO m k); shr_r := false; shr_s := false |}
  = {| shr_m := Zpos m; shr_r := false; shr_s := false |}.
Proof.
  rewrite iter_pos_Pos_iter.
  revert m. induction k as [|k IH] using Pos.peano_ind; intros m.
  - reflexivity.
  - rewrite !Pos.iter_succ. rewrite <- (Pos.iter_swap k _ shr_1).
    change (shr_1 {| shr_m := Zpos (Pos.iter xO m k)~0; shr_r := false; shr_s := false |})
      with {| shr_m := Zpos (Pos.iter xO m k); shr_r := false; shr_s := false |}.
    apply IH.
Qed.

(** Rounding a mantissa that is already canonical changes nothing. *)
Lemma fexp_normal (e : Z) : -1074 <= e - 53 -> fexp 53 1024 e = e - 53.
Proof. intros H. unfold fexp, emin. lia. Qed.

Lemma shr_fexp_canonical (m0 : positive) (er : Z) (l : location) :
  Zpos (digits2_pos m0) = 53 -> -1074 <= er ->
  shr_fexp 53 1024 (Zpos m0) er l = (shr_record_of_loc (Zpos m0) l, er).
Proof.
  intros Hd He. unfold shr_fexp. unfold Zdigits2. rewrite Hd.
  rewrite fexp_normal by lia.
  replace (53 + er - 53 - er) with 0 by lia. reflexivity.
Qed.

Lemma round_aux_canonical (s : bool) (m0 : positive) (er : Z) :
  Zpos (digits2_pos m0) = 53 -> -1074 <= er <= 971 ->
  binary_round_aux 53 1024 s (Zpos m0) er loc_Exact = S754_finite s m0 er.
Proof.
  intros Hd He. unfold binary_round_aux.
  rewrite shr_fexp_canonical by lia.
  cbn [shr_record_of_loc shr_m loc_of_shr_record round_nearest_even].
  rewrite shr_fexp_canonical by lia.
  cbn [shr_record_of_loc shr_m].
  replace (er <=? 1024 - 53) with true by (symmetry; apply Z.leb_le; lia).
  reflexivity.
Qed.

(** A mantissa that is an integer of at most 53 bits times a power of two
    is normalized without rounding. *)
Lemma digits2_pos_scaled (M N : positive) (k : Z) :
  0 <= k -> Zpos M = Zpos N * 2 ^ k ->
  Zpos (digits2_pos M) = Zpos (digits2_pos N) + k.
Proof.
  intros Hk E. apply digits2_pos_unique.
  pose proof (digits2_pos_bounds N) as [Blo Bhi].
  set (d := Zpos (digits2_pos N)) in *.
  assert (0 < d) by (unfold d; lia).
  replace (d + k - 1) with ((d - 1) + k) by lia.
  rewrite !Z.pow_add_r by lia. rewrite E.
  assert (0 < 2 ^ k) by (apply Z.pow_pos_nonneg; lia).
  split; nia.
Qed.

Lemma binary_round_exact (s : bool) (M N : positive) (e k : Z) :
  0 <= k -> Zpos M = Zpos N * 2 ^ k ->
  Zpos (digits2_pos N) <= 53 ->
  -1074 <= e + k + Zpos (digits2_pos N) - 53 <= 971 ->
  binary_round 53 1024 s M e
  = S754_finite s (Z.to_pos (Zpos N * 2 ^ (53 - Zpos (digits2_pos N))))
                (e + k + Zpos (digits2_pos N) - 53).
Proof.
  intros Hk EM HdN Her.
  pose proof (digits2_pos_scaled M N k Hk EM) as HdM.
  set (dN := Zpos (digits2_pos N)) in *.
  set (er := e + k + dN - 53) in *.
  set (m0 := Z.to_pos (Zpos N * 2 ^ (53 - dN))).
  assert (0 < 2 ^ (53 - dN)) as Hpow by (apply Z.pow_pos_nonneg; lia).
  assert (Zpos m0 = Zpos N * 2 ^ (53 - dN)) as Em0.
  { unfold m0. rewrite Z2Pos.id; [reflexivity | lia]. }
  assert (Zpos (digits2_pos m0) = 53) as Hd0.
  { rewrite (digits2_pos_scaled m0 N (53 - dN)) by (lia || exact Em0).
    fold dN. lia. }
  unfold binary_round.
  rewrite HdM, fexp_normal by (fold er; lia).
  replace (dN + k + e - 53) with er by (unfold er; lia).
  unfold shl_align.
  destruct (er - e) as [|d|d] eqn:Ed.
  - (* M already has 53 digits *)
    assert (M = m0) as ->.
    { apply Pos2Z.inj. rewrite EM, Em0. f_equal. f_equal. unfold er in Ed. lia. }
    replace e with er by lia. apply round_aux_canonical; [exact Hd0 | lia].
  - (* shift right, exactly *)
    assert (M = Pos.iter xO m0 d) as ->.
    { apply Pos2Z.inj. rewrite Pos_iter_xO, EM, Em0.
      rewrite <- Z.mul_assoc, <- Z.pow_add_r by lia.
      f_equal. f_equal. unfold er in Ed. lia. }
    unfold binary_round_aux, shr_fexp.
    assert (Zdigits2 (Zpos (Pos.iter xO m0 d)) = 53 + Zpos d) as ->.
    { unfold Zdigits2.
      rewrite (digits2_pos_scaled (Pos.iter xO m0 d) m0 (Zpos d));
        [lia | lia | apply Pos_iter_xO]. }
    rewrite fexp_normal by lia.
    replace (53 + Zpos d + e - 53 - e) with (Zpos d) by lia.
    cbn [shr_record_of_loc shr fst snd].
    rewrite shr_exact.
    cbn [shr_m loc_of_shr_record round_nearest_even].
    unfold Zdigits2. rewrite Hd0.
    rewrite fexp_normal by lia.
    replace (53 + (e + Zpos d) - 53 - (e + Zpos d)) with 0 by lia.
    cbn [shr_record_of_loc shr shr_m].
    replace (e + Zpos d) with er by lia.
    replace (er <=? 1024 - 53) with true by (symmetry; apply Z.leb_le; lia).
    reflexivity.
  - (* shift left *)
    assert (Pos.iter xO M d = m0) as ->.
    { apply Pos2Z.inj. rewrite Pos_iter_xO, EM, Em0.
      rewrite <- Z.mul_assoc, <- Z.pow_add_r by lia.
      f_equal. f_equal. unfold er in Ed. lia. }
    apply round_aux_canonical; [exact Hd0 | lia].
Qed.


(** [float64(n)] is exact for an integer below 2^53. *)
Lemma Zdigits2_bounds (n : Z) :
  0 < n -> 0 < Zdigits2 n /\ 2 ^ (Zdigits2 n - 1) <= n < 2 ^ Zdigits2 n.
Proof.
  intros H. destruct n as [|p|p]; try lia.
  simpl Zdigits2. split; [lia | apply digits2_pos_bounds].
Qed.

Lemma Zdigits2_le_53 (n : Z) : 0 < n < 2 ^ 53 -> Zdigits2 n <= 53.
Proof.
  intros [H0 H1]. destruct (Zdigits2_bounds n H0) as [Hd [Hlo _]].
  destruct (Z.le_gt_cases (Zdigits2 n) 53) as [|Hgt]; [assumption|].
  assert (2 ^ 53 <= 2 ^ (Zdigits2 n - 1)) by (apply Z.pow_le_mono_r; lia).
  lia.
Qed.

Lemma canonMant_value (n : Z) :
  0 < n < 2 ^ 53 ->
  Zpos (canonMant n) = n * 2 ^ (53 - Zdigits2 n)
  /\ 2 ^ 52 <= Zpos (canonMant n) < 2 ^ 53
  /\ Zpos (digits2_pos (canonMant n)) = 53.
Proof.
  intros Hn. pose proof (Zdigits2_le_53 n Hn) as Hle.
  destruct (Zdigits2_bounds n ltac:(lia)) as [Hd [Hlo Hhi]].
  assert (0 < 2 ^ (53 - Zdigits2 n)) as Hp by (apply Z.pow_pos_nonneg; lia).
  assert (Zpos (canonMant n) = n * 2 ^ (53 - Zdigits2 n)) as E.
  { unfold canonMant. rewrite Z2Pos.id; [reflexivity | nia]. }
  assert (2 ^ 52 = 2 ^ (Zdigits2 n - 1) * 2 ^ (53 - Zdigits2 n)) as E52.
  { rewrite <- Z.pow_add_r by lia. f_equal. lia. }
  assert (2 ^ 53 = 2 ^ (Zdigits2 n) * 2 ^ (53 - Zdigits2 n)) as E53.
  { rewrite <- Z.pow_add_r by lia. f_equal. lia. }
  assert (2 ^ 52 <= Zpos (canonMant n) < 2 ^ 53) as R.
  { rewrite E, E52, E53. split; nia. }
  split; [exact E|]. split; [exact R|].
  apply digits2_pos_unique. exact R.
Qed.

Lemma of_Z_exact (n : Z) :
  0 < n < 2 ^ 53 -> F64.of_Z n = exactFloat false n.
Proof.
  intros Hn. destruct n as [|p|p]; try lia.
  unfold F64.of_Z, F64.prec, F64.emax, binary_normalize, exactFloat, canonMant.
  pose proof (Zdigits2_le_53 (Zpos p) Hn) as Hle.
  simpl Zdigits2 in *.
  rewrite (binary_round_exact false p p 0 0);
    [f_equal; lia | lia | simpl; lia | exact Hle | lia].
Qed.

Lemma shl_align_value (m : positive) (e ez : Z) :
  ez <= e -> Zpos (fst (shl_align m e ez)) = Zpos m * 2 ^ (e - ez).
Proof.
  intros H. unfold shl_align.
  destruct (ez - e) as [|d|d] eqn:E; simpl fst.
  - replace (e - ez) with 0 by lia. simpl. lia.
  - lia.
  - rewrite Pos_iter_xO. f_equal. f_equal. lia.
Qed.

(** float64(o) - float64(f) is exact for integers below 2^53. *)
Lemma sub_exact (o f : Z) :
  0 < o < 2 ^ 53 -> 0 < f < 2 ^ 53 ->
  F64.sub (F64.of_Z o) (F64.of_Z f)
  = if o =? f then S754_zero false
    else exactFloat (o <? f) (Z.abs (o - f)).
Proof.
  intros Ho Hf. rewrite !of_Z_exact by assumption.
  unfold exactFloat at 1 2. unfold F64.sub, F64.prec, F64.emax, SFsub.
  destruct (canonMant_value o Ho) as (Eo & Ro & _).
  destruct (canonMant_value f Hf) as (Ef & Rf & _).
  pose proof (Zdigits2_le_53 o Ho) as Hdo.
  pose proof (Zdigits2_le_53 f Hf) as Hdf.
  destruct (Zdigits2_bounds o ltac:(lia)) as [Hdo0 _].
  destruct (Zdigits2_bounds f ltac:(lia)) as [Hdf0 _].
  set (eo := Zdigits2 o - 53) in *. set (ef := Zdigits2 f - 53) in *.
  set (ez := Z.min eo ef).
  rewrite !shl_align_value by (unfold ez; lia).
  unfold cond_Zopp.
  assert (Zpos (canonMant o) * 2 ^ (eo - ez) = o * 2 ^ (- ez)) as ->.
  { rewrite Eo, <- Z.mul_assoc, <- Z.pow_add_r by (unfold eo, ez; lia).
    f_equal. f_equal. unfold eo. lia. }
  assert (Zpos (canonMant f) * 2 ^ (ef - ez) = f * 2 ^ (- ez)) as ->.
  { rewrite Ef, <- Z.mul_assoc, <- Z.pow_add_r by (unfold ef, ez; lia).
    f_equal. f_equal. unfold ef. lia. }
  rewrite <- Z.mul_sub_distr_r.
  assert (0 < 2 ^ (- ez)) as Hp by (apply Z.pow_pos_nonneg; unfold ez; lia).
  destruct (Z.eqb_spec o f) as [->|Hne].
  - rewrite Z.sub_diag. reflexivity.
  - assert (0 < Z.abs (o - f) < 2 ^ 53) as Hd by lia.
    pose proof (Zdigits2_le_53 _ Hd) as Hdd.
    destruct (Zdigits2_bounds (Z.abs (o - f)) ltac:(lia)) as [Hdd0 _].
    unfold binary_normalize.
    destruct ((o - f) * 2 ^ (- ez)) as [|M|M] eqn:EM; [nia| |].
    + assert (f < o) as Hlt by nia.
      destruct (Z.ltb_spec o f) as [|_]; [lia|].
      replace (Z.abs (o - f)) with (o - f) in * by lia.
      destruct (o - f) as [|N|N] eqn:EN; try lia.
      rewrite (binary_round_exact false M N ez (- ez));
        [ | unfold ez; lia | lia | exact Hdd | simpl Zdigits2 in *; lia].
      unfold exactFloat, canonMant. simpl Zdigits2. f_equal. lia.
    + assert (o < f) as Hlt by nia.
      destruct (Z.ltb_spec o f) as [_|]; [|lia].
      replace (Z.abs (o - f)) with (f - o) in * by lia.
      destruct (f - o) as [|N|N] eqn:EN; try lia.
      rewrite (binary_round_exact true M N ez (- ez));
        [ | unfold ez; lia | | exact Hdd | simpl Zdigits2 in *; lia].
      * unfold exactFloat, canonMant. simpl Zdigits2. f_equal. lia.
      * assert (Zpos M = (f - o) * 2 ^ (- ez)) by lia. rewrite EN in *. lia.
Qed.

(** Division of two canonical floats: the quotient of the mantissas with
    53 more bits, rounded once. *)
Lemma loc_of_record_of (m : Z) (l : location) :
  loc_of_shr_record (shr_record_of_loc m l) = l.
Proof. destruct l as [|[]]; reflexivity. Qed.

Lemma shr_m_record_of (m : Z) (l : location) :
  shr_m (shr_record_of_loc m l) = m.
Proof. destruct l as [|[]]; reflexivity. Qed.

(** The last step of [binary_round_aux] on a rounded mantissa. *)
Lemma round_aux_tail (s : bool) (m1 e : Z) :
  2 ^ 52 <= m1 <= 2 ^ 53 -> -1074 <= e <= 970 ->
  (let '(mrs, e') := shr_fexp 53 1024 m1 e loc_Exact in
   match shr_m mrs with
   | Z0 => S754_zero s
   | Zpos m => if e' <=? 1024 - 53 then S754_finite s m e' else S754_infinity s
   | Zneg _ => S754_nan
   end)
  = if m1 <? 2 ^ 53 then S754_finite s (Z.to_pos m1) e
    else S754_finite s (Z.to_pos (2 ^ 52)) (e + 1).
Proof.
  intros Hm He.
  destruct (Z.ltb_spec m1 (2 ^ 53)) as [Hlt|Hge].
  - destruct m1 as [|p|p]; try lia.
    rewrite shr_fexp_canonical;
      [ | apply digits2_pos_unique; lia | lia].
    cbn [shr_record_of_loc shr_m].
    replace (e <=? 1024 - 53) with true by (symmetry; apply Z.leb_le; lia).
    reflexivity.
  - assert (m1 = 2 ^ 53) as -> by lia.
    unfold shr_fexp.
    change (Zdigits2 (2 ^ 53)) with 54.
    rewrite fexp_normal by lia.
    replace (54 + e - 53 - e) with 1 by lia.
    cbn [shr_record_of_loc shr iter_pos].
    change (shr_1 {| shr_m := 2 ^ 53; shr_r := false; shr_s := false |})
      with {| shr_m := 2 ^ 52; shr_r := false; shr_s := false |}.
    cbn [shr_m].
    change (2 ^ 52) with (Zpos (Z.to_pos (2 ^ 52))) at 1.
    cbv iota beta.
    replace (e + 1 <=? 1024 - 53) with true by (symmetry; apply Z.leb_le; lia).
    reflexivity.
Qed.

Lemma round_nearest_even_range (q : Z) (l : location) :
  q <= round_nearest_even q l <= q + 1.
Proof.
  destruct l as [|[]]; simpl; try lia. destruct (Z.even q); lia.
Qed.

Lemma round_aux_53 (s : bool) (q : positive) (e : Z) (l : location) :
  2 ^ 52 <= Zpos q < 2 ^ 53 -> -1074 <= e <= 970 ->
  binary_round_aux 53 1024 s (Zpos q) e l
  = let m1 := round_nearest_even (Zpos q) l in
    if m1 <? 2 ^ 53 then S754_finite s (Z.to_pos m1) e
    else S754_finite s (Z.to_pos (2 ^ 52)) (e + 1).
Proof.
  intros Hq He. unfold binary_round_aux.
  rewrite shr_fexp_canonical; [ | apply digits2_pos_unique; lia | lia].
  rewrite shr_m_record_of, loc_of_record_of.
  pose proof (round_nearest_even_range (Zpos q) l).
  apply round_aux_tail; lia.
Qed.

Lemma shr_1_half (q : positive) (l : location) :
  2 <= Zpos q ->
  shr_m (shr_1 (shr_record_of_loc (Zpos q) l)) = Zpos q / 2
  /\ shr_r (shr_1 (shr_record_of_loc (Zpos q) l)) = Z.odd (Zpos q)
  /\ shr_s (shr_1 (shr_record_of_loc (Zpos q) l))
     = match l with loc_Exact => false | _ => true end.
Proof.
  intros Hq. destruct q as [p|p|]; [| |lia].
  - assert (Zpos p~1 / 2 = Zpos p) as ->.
    { rewrite Pos2Z.inj_xI. symmetry.
      apply (Z.div_unique _ 2 _ 1); lia. }
    destruct l as [|[]]; repeat split.
  - assert (Zpos p~0 / 2 = Zpos p) as ->.
    { rewrite Pos2Z.inj_xO. symmetry.
      apply (Z.div_unique _ 2 _ 0); lia. }
    destruct l as [|[]]; repeat split.
Qed.

Lemma round_aux_54 (s : bool) (q : positive) (e : Z) (l : location) :
  2 ^ 53 <= Zpos q < 2 ^ 54 -> -1074 <= e <= 969 ->
  binary_round_aux 53 1024 s (Zpos q) e l
  = let m1 :=
      round_nearest_even (Zpos q / 2)
        (loc_of_shr_record (shr_1 (shr_record_of_loc (Zpos q) l))) in
    if m1 <? 2 ^ 53 then S754_finite s (Z.to_pos m1) (e + 1)
    else S754_finite s (Z.to_pos (2 ^ 52)) (e + 1 + 1).
Proof.
  intros Hq He. unfold binary_round_aux.
  unfold shr_fexp at 1. unfold Zdigits2.
  rewrite (digits2_pos_unique q 54) by lia.
  rewrite fexp_normal by lia.
  replace (54 + e - 53 - e) with 1 by lia.
  cbn [shr iter_pos].
  destruct (shr_1_half q l ltac:(lia)) as (Em & _).
  rewrite Em.
  pose proof (round_nearest_even_range (Zpos q / 2)
                (loc_of_shr_record (shr_1 (shr_record_of_loc (Zpos q) l)))).
  assert (2 ^ 52 <= Zpos q / 2 < 2 ^ 53).
  { split; [apply Z.div_le_lower_bound; lia
           | apply Z.div_lt_upper_bound; lia]. }
  apply round_aux_tail; lia.
Qed.

Lemma SFdiv_canonical (sx sy : bool) (mx my : positive) (ex ey : Z) :
  Zpos (digits2_pos mx) = 53 -> Zpos (digits2_pos my) = 53 ->
  -1074 <= ex - ey - 53 ->
  SFdiv 53 1024 (S754_finite sx mx ex) (S754_finite sy my ey)
  = binary_round_aux 53 1024 (xorb sx sy)
      (Zpos mx * 2 ^ 53 / Zpos my) (ex - ey - 53)
      (new_location (Zpos my) ((Zpos mx * 2 ^ 53) mod Zpos my)).
Proof.
  intros Hx Hy He. unfold SFdiv, SFdiv_core_binary.
  unfold Zdigits2. rewrite Hx, Hy.
  assert (fexp 53 1024 (53 + ex - (53 + ey)) = ex - ey - 53) as ->
      by (unfold fexp, emin; lia).
  rewrite Z.min_l by lia.
  replace (ex - ey - (ex - ey - 53)) with 53 by lia.
  rewrite Z.shiftl_mul_pow2 by lia.
  unfold Z.div, Z.modulo.
  destruct (Z.div_eucl (Zpos mx * 2 ^ 53) (Zpos my)) as [q r].
  reflexivity.
Qed.

Lemma SFabs_round_aux (s : bool) (m e : Z) (l : location) :
  SFabs (binary_round_aux 53 1024 s m e l) = binary_round_aux 53 1024 false m e l.
Proof.
  unfold binary_round_aux.
  destruct (shr_fexp 53 1024 m e l) as [mrs' e'].
  destruct (shr_fexp 53 1024 _ e' loc_Exact) as [mrs'' e''].
  destruct (shr_m mrs''); [reflexivity | | reflexivity].
  destruct (e'' <=? 1024 - 53); reflexivity.
Qed.

(** The remainder's location, and when rounding lands above a bound. *)
Lemma new_location_cases (my r : Z) :
  0 < my -> 0 <= r < my ->
  new_location my r
  = if r =? 0 then loc_Exact
    else loc_Inexact (if 2 * r <? my then Lt
                      else if 2 * r =? my then Eq else Gt).
Proof.
  intros Hmy Hr. unfold new_location, new_location_even, new_location_odd.
  destruct (Z.even my) eqn:Ev; destruct (r =? 0) eqn:E0; try reflexivity.
  - destruct (Z.compare_spec (2 * r) my) as [H|H|H];
      destruct (Z.ltb_spec (2 * r) my); destruct (Z.eqb_spec (2 * r) my);
      try lia; reflexivity.
  - assert (my <> 2 * r) as Hne.
    { intros ->. rewrite Z.even_mul in Ev. discriminate. }
    destruct (Z.compare_spec (2 * r + 1) my) as [H|H|H];
      destruct (Z.ltb_spec (2 * r) my); destruct (Z.eqb_spec (2 * r) my);
      try lia; reflexivity.
Qed.

Lemma above_half_iff (q r my mc : Z) :
  0 < my -> 0 <= r < my ->
  ((2 * mc + 1) * my < 2 * (q * my + r)
   <-> mc < q \/ (q = mc /\ my < 2 * r)).
Proof.
  intros Hmy Hr. split.
  - intros H. destruct (Z.lt_trichotomy q mc) as [Hlt|[Heq|Hgt]].
    + assert (q * my <= (mc - 1) * my)
        by (apply Z.mul_le_mono_nonneg_r; lia). lia.
    + subst q. right. split; [reflexivity | lia].
    + left. exact Hgt.
  - intros [Hgt|[-> Hr2]].
    + assert ((mc + 1) * my <= q * my)
        by (apply Z.mul_le_mono_nonneg_r; lia). lia.
    + lia.
Qed.

(** When a quotient rounded to nearest even lands above an even bound. *)
Lemma round_div_gt (q r my mc : Z) :
  0 < my -> 0 <= r < my -> Z.even mc = true ->
  (mc < round_nearest_even q (new_location my r)
   <-> (2 * mc + 1) * my < 2 * (q * my + r)).
Proof.
  intros Hmy Hr Hev. rewrite new_location_cases by assumption.
  rewrite above_half_iff by assumption.
  assert (Z.even q = false -> q <> mc) as Hodd
      by (intros Hq ->; congruence).
  destruct (Z.eqb_spec r 0) as [->|Hr0]; cbn [round_nearest_even].
  - lia.
  - destruct (Z.ltb_spec (2 * r) my) as [Hlt|Hge]; cbn [round_nearest_even].
    + lia.
    + destruct (Z.eqb_spec (2 * r) my) as [Heq|Hneq]; cbn [round_nearest_even].
      * destruct (Z.even q) eqn:Eq; [lia|].
        specialize (Hodd eq_refl). lia.
      * lia.
Qed.

Lemma loc_of_shr_record_bits (mrs : shr_record) :
  loc_of_shr_record mrs
  = match shr_r mrs, shr_s mrs with
    | false, false => loc_Exact
    | false, true => loc_Inexact Lt
    | true, false => loc_Inexact Eq
    | true, true => loc_Inexact Gt
    end.
Proof. destruct mrs as [m [] []]; reflexivity. Qed.

Lemma round_div_half_gt (q : positive) (r my mc : Z) :
  0 < my -> 0 <= r < my -> 2 <= Zpos q -> Z.even mc = true ->
  (mc < round_nearest_even (Zpos q / 2)
          (loc_of_shr_record
             (shr_1 (shr_record_of_loc (Zpos q) (new_location my r))))
   <-> (2 * mc + 1) * (2 * my) < 2 * (Zpos q * my + r)).
Proof.
  intros Hmy Hr Hq Hev.
  destruct (shr_1_half q (new_location my r) Hq) as (_ & Er & Es).
  rewrite loc_of_shr_record_bits, Er, Es.
  rewrite new_location_cases by assumption.
  pose proof (Z.div_mod (Zpos q) 2 ltac:(lia)) as Edm.
  pose proof (Z.mod_pos_bound (Zpos q) 2 ltac:(lia)) as Bm.
  set (h := Zpos q / 2) in *. set (b := Zpos q mod 2) in *.
  assert (Z.odd (Zpos q) = (b =? 1)) as ->.
  { rewrite Edm at 1. rewrite Z.add_comm, Z.odd_add_mul_2.
    assert (b = 0 \/ b = 1) as [->| ->] by lia; reflexivity. }
  (* the quotient by 2 my is h, the remainder b * my + r *)
  assert ((2 * mc + 1) * (2 * my) < 2 * (Zpos q * my + r)
          <-> (2 * mc + 1) * (2 * my) < 2 * (h * (2 * my) + (b * my + r)))
    as -> by (rewrite Edm; split; intros; nia).
  assert (0 <= b * my + r < 2 * my) as Hr' by nia.
  rewrite (above_half_iff h (b * my + r) (2 * my) mc) by lia.
  assert (Z.even h = false -> h <> mc) as Hodd
      by (intros Hh E; rewrite E in Hh; congruence).
  assert (b = 0 \/ b = 1) as [Hb|Hb] by lia; rewrite Hb in *;
    simpl (_ =? 1); cbv iota.
  - destruct (Z.eqb_spec r 0) as [->|Hr0]; cbn [round_nearest_even].
    + lia.
    + destruct (2 * r <? my); [|destruct (2 * r =? my)];
        cbn [round_nearest_even]; lia.
  - destruct (Z.eqb_spec r 0) as [->|Hr0]; cbn [round_nearest_even].
    + destruct (Z.even h) eqn:Eh; [lia|].
      specialize (Hodd eq_refl). lia.
    + destruct (2 * r <? my); [|destruct (2 * r =? my)];
        cbn [round_nearest_even]; lia.
Qed.

Lemma gtb_finite (m mc : positive) (e : Z) :
  F64.gtb (S754_finite false m e) (S754_finite false mc (-57))
  = if -57 <? e then true
    else if e <? -57 then false else Zpos mc <? Zpos m.
Proof.
  unfold F64.gtb, SFltb, SFcompare.
  destruct (Z.compare_spec (-57) e) as [H|H|H].
  - subst e. simpl (_ <? _).
    rewrite Pos.compare_cont_spec. simpl Pos.switch_Eq.
    unfold Z.ltb. simpl Z.compare.
    destruct (Pos.compare mc m); reflexivity.
  - destruct (Z.ltb_spec (-57) e); [reflexivity | lia].
  - destruct (Z.ltb_spec (-57) e); [lia|].
    destruct (Z.ltb_spec e (-57)); [reflexivity | lia].
Qed.

Lemma five_percent_threshold (o d : Z) :
  0 < o < 2 ^ 52 -> 0 <= d ->
  (14411518807585589 * o < 2 ^ 58 * d <-> o < 20 * d).
Proof. intros Ho Hd. change (2 ^ 52) with 4503599627370496 in Ho.
  change (2 ^ 58) with 288230376151711744. lia. Qed.

(** The constant 0.05 and the comparison with it. *)
Lemma const_5_100 :
  F64.const 5 100 = S754_finite false 7205759403792794 (-57).
Proof. vm_compute. reflexivity. Qed.

(** The arithmetic behind the comparison: [mx = d * A] and [my = o * B] are
    the 53-bit mantissas of [d] and [o], [q] and [r] the quotient and
    remainder of [mx * 2^53] by [my]. *)

Lemma quotient_range (mx my q r : Z) :
  2 ^ 52 <= mx < 2 ^ 53 -> 2 ^ 52 <= my < 2 ^ 53 ->
  mx * 2 ^ 53 = my * q + r -> 0 <= r < my ->
  2 ^ 52 <= q < 2 ^ 54.
Proof.
  change (2 ^ 52) with 4503599627370496.
  change (2 ^ 53) with 9007199254740992.
  change (2 ^ 54) with 18014398509481984.
  intros Rmx Rmy Eq Rr. split; nia.
Qed.

Lemma far_above (d o A B : Z) :
  0 < A -> 0 < B -> 0 < o ->
  2 ^ 52 <= d * A -> o * B < 2 ^ 53 -> A <= 8 * B -> o < 20 * d.
Proof.
  change (2 ^ 52) with 4503599627370496.
  change (2 ^ 53) with 9007199254740992.
  intros HA HB Ho Rmx Rmy H.
  assert (o * A <= o * (8 * B)) by (apply Z.mul_le_mono_nonneg_l; lia).
  assert (o * A < 20 * d * A) by lia.
  nia.
Qed.

Lemma far_below (d o A B : Z) :
  0 < A -> 0 < B -> 0 < o ->
  d * A < 2 ^ 53 -> 2 ^ 52 <= o * B -> 64 * B <= A -> 20 * d < o.
Proof.
  change (2 ^ 52) with 4503599627370496.
  change (2 ^ 53) with 9007199254740992.
  intros HA HB Ho Rmx Rmy H.
  assert (o * (64 * B) <= o * A) by (apply Z.mul_le_mono_nonneg_l; lia).
  assert (20 * d * A < o * A) by lia.
  nia.
Qed.

Lemma same_binade (d o B q r : Z) :
  0 < d -> 0 < o < 2 ^ 52 -> 0 < B ->
  d * (16 * B) * 2 ^ 53 = o * B * q + r ->
  ((2 * 7205759403792794 + 1) * (o * B) < 2 * (q * (o * B) + r)
   <-> o < 20 * d).
Proof.
  intros Hd Ho HB Eq.
  rewrite <- (five_percent_threshold o d Ho ltac:(lia)).
  replace (2 * (q * (o * B) + r)) with (2 * (d * (16 * B) * 2 ^ 53)) by lia.
  change (2 ^ 53) with 9007199254740992.
  change (2 ^ 58) with 288230376151711744.
  split; intros; nia.
Qed.

Lemma lower_binade (d o B q r : Z) :
  0 < d -> 0 < o < 2 ^ 52 -> 0 < B ->
  d * (32 * B) * 2 ^ 53 = o * B * q + r ->
  ((2 * 7205759403792794 + 1) * (2 * (o * B)) < 2 * (q * (o * B) + r)
   <-> o < 20 * d).
Proof.
  intros Hd Ho HB Eq.
  rewrite <- (five_percent_threshold o d Ho ltac:(lia)).
  replace (2 * (q * (o * B) + r)) with (2 * (d * (32 * B) * 2 ^ 53)) by lia.
  change (2 ^ 53) with 9007199254740992.
  change (2 ^ 58) with 288230376151711744.
  split; intros; nia.
Qed.

Lemma pow2_le_shift (a b k : Z) :
  0 <= a -> 0 <= b -> 0 <= k -> a <= b + k -> 2 ^ a <= 2 ^ k * 2 ^ b.
Proof.
  intros Ha Hb Hk H. rewrite <- Z.pow_add_r by lia.
  apply Z.pow_le_mono_r; lia.
Qed.

Lemma pow2_eq_shift (a b k : Z) :
  0 <= b -> 0 <= k -> a = b + k -> 2 ^ a = 2 ^ k * 2 ^ b.
Proof. intros Hb Hk ->. rewrite <- Z.pow_add_r by lia. f_equal. lia. Qed.

(** The comparison, from the rounded quotient. *)
Lemma exceeds_from_quotient (d o A B q r e' : Z) :
  0 < d -> 0 < o < 2 ^ 52 -> 0 < A -> 0 < B ->
  2 ^ 52 <= d * A < 2 ^ 53 -> 2 ^ 52 <= o * B < 2 ^ 53 ->
  d * A * 2 ^ 53 = o * B * q + r -> 0 <= r < o * B ->
  -1074 <= e' <= 969 ->
  (-56 <= e' -> A <= 8 * B) ->
  (e' = -57 -> A = 16 * B) ->
  (e' = -58 -> A = 32 * B) ->
  (e' <= -59 -> 64 * B <= A) ->
  F64.gtb
    (binary_round_aux 53 1024 false q e' (new_location (o * B) r))
    (S754_finite false 7205759403792794 (-57))
  = (o <? 20 * d).
Proof.
  intros Hd Ho HA HB Rmx Rmy Edm Rr Re C1 C2 C3 C4.
  pose proof (quotient_range _ _ q r Rmx Rmy Edm Rr) as Rq.
  assert (-56 <= e' -> o < 20 * d) as Hhi.
  { intros H. specialize (C1 H). apply (far_above d o A B); lia. }
  assert (e' <= -59 -> 20 * d < o) as Hlo.
  { intros H. specialize (C4 H). apply (far_below d o A B); lia. }
  assert (e' = -57 ->
          ((2 * 7205759403792794 + 1) * (o * B) < 2 * (q * (o * B) + r)
           <-> o < 20 * d)) as Hsame.
  { intros H. apply same_binade; try lia; rewrite <- (C2 H); exact Edm. }
  assert (e' = -58 ->
          ((2 * 7205759403792794 + 1) * (2 * (o * B)) < 2 * (q * (o * B) + r)
           <-> o < 20 * d)) as Hlow.
  { intros H. apply lower_binade; try lia; rewrite <- (C3 H); exact Edm. }
  assert (e' = -57 -> 2 ^ 53 - 1 <= q -> o < 20 * d) as Hcarry1.
  { intros H Hq. specialize (C2 H). subst A.
    change (2 ^ 53) with 9007199254740992 in *.
    change (2 ^ 52) with 4503599627370496 in *.
    assert (o * B * (2 ^ 53 - 1) <= o * B * q)
      by (apply Z.mul_le_mono_nonneg_l; lia).
    change (2 ^ 53) with 9007199254740992 in *. nia. }
  assert (e' = -58 -> q < 2 ^ 53 -> 20 * d < o) as Hbelow.
  { intros H Hq. specialize (C3 H). subst A.
    change (2 ^ 53) with 9007199254740992 in *.
    change (2 ^ 52) with 4503599627370496 in *.
    assert (o * B * q <= o * B * (9007199254740992 - 1))
      by (apply Z.mul_le_mono_nonneg_l; lia).
    nia. }
  assert (e' = -58 -> 2 ^ 54 - 2 <= q -> o < 20 * d) as Hcarry2.
  { intros H Hq. specialize (C3 H). subst A.
    change (2 ^ 54) with 18014398509481984 in *.
    change (2 ^ 53) with 9007199254740992 in *.
    change (2 ^ 52) with 4503599627370496 in *.
    assert (o * B * (18014398509481984 - 2) <= o * B * q)
      by (apply Z.mul_le_mono_nonneg_l; lia).
    nia. }
  clear C1 C2 C3 C4 Edm.
  assert (Z.even 7205759403792794 = true) as Hev by reflexivity.
  destruct q as [|qp|qp]; try lia.
  destruct (Z.ltb_spec (Zpos qp) (2 ^ 53)) as [Hq|Hq].
  - rewrite round_aux_53 by lia. cbv zeta.
    pose proof (round_nearest_even_range (Zpos qp) (new_location (o * B) r)) as Rm.
    pose proof (round_div_gt (Zpos qp) r (o * B) 7205759403792794
                  ltac:(lia) Rr Hev) as Hgt.
    set (m1 := round_nearest_even (Zpos qp) (new_location (o * B) r)) in *.
    destruct (Z.ltb_spec m1 (2 ^ 53)) as [Hm|Hm]; rewrite gtb_finite.
    + rewrite Z2Pos.id by lia.
      destruct (Z.ltb_spec (-57) e'); [|destruct (Z.ltb_spec e' (-57))].
      * symmetry. apply Z.ltb_lt. apply Hhi. lia.
      * symmetry. apply Z.ltb_ge.
        destruct (Z.eq_dec e' (-58)) as [E|E];
          [specialize (Hbelow E Hq) | specialize (Hlo ltac:(lia))]; lia.
      * assert (e' = -57) as E by lia. specialize (Hsame E).
        destruct (Z.ltb_spec 7205759403792794 m1);
          destruct (Z.ltb_spec o (20 * d)); try reflexivity; exfalso; lia.
    + destruct (Z.ltb_spec (-57) (e' + 1));
        [|destruct (Z.ltb_spec (e' + 1) (-57))].
      * symmetry. apply Z.ltb_lt.
        destruct (Z.eq_dec e' (-57)) as [E|E];
          [apply (Hcarry1 E); lia | apply Hhi; lia].
      * symmetry. apply Z.ltb_ge. specialize (Hlo ltac:(lia)). lia.
      * symmetry.
        assert (e' = -58) as E by lia. specialize (Hbelow E Hq).
        destruct (Z.ltb_spec o (20 * d)); [lia|]. reflexivity.
  - rewrite round_aux_54 by lia. cbv zeta.
    pose proof (round_nearest_even_range (Zpos qp / 2)
                  (loc_of_shr_record
                     (shr_1 (shr_record_of_loc (Zpos qp)
                               (new_location (o * B) r))))) as Rm.
    pose proof (round_div_half_gt qp r (o * B) 7205759403792794
                  ltac:(lia) Rr ltac:(lia) Hev) as Hgt.
    assert (2 ^ 52 <= Zpos qp / 2 < 2 ^ 53) as Rh.
    { split; [apply Z.div_le_lower_bound; lia
             | apply Z.div_lt_upper_bound; lia]. }
    set (m1 := round_nearest_even (Zpos qp / 2) _) in *.
    assert (e' = -57 -> o < 20 * d) as Hsame54.
    { intros E. apply (Hcarry1 E). lia. }
    destruct (Z.ltb_spec m1 (2 ^ 53)) as [Hm|Hm]; rewrite gtb_finite.
    + rewrite Z2Pos.id by lia.
      destruct (Z.ltb_spec (-57) (e' + 1));
        [|destruct (Z.ltb_spec (e' + 1) (-57))].
      * symmetry. apply Z.ltb_lt.
        destruct (Z.eq_dec e' (-57)) as [E|E];
          [apply (Hsame54 E) | apply Hhi; lia].
      * symmetry. apply Z.ltb_ge. specialize (Hlo ltac:(lia)). lia.
      * assert (e' = -58) as E by lia. specialize (Hlow E).
        destruct (Z.ltb_spec 7205759403792794 m1);
          destruct (Z.ltb_spec o (20 * d)); try reflexivity; exfalso; lia.
    + destruct (Z.ltb_spec (-57) (e' + 1 + 1));
        [|destruct (Z.ltb_spec (e' + 1 + 1) (-57))].
      * symmetry. apply Z.ltb_lt.
        destruct (Z.eq_dec e' (-57)) as [E|E]; [apply (Hsame54 E)|].
        destruct (Z.eq_dec e' (-58)) as [E'|E'];
          [apply (Hcarry2 E') | apply Hhi; lia].
        assert (2 ^ 53 - 1 <= Zpos qp / 2) by lia.
        pose proof (Z.mul_div_le (Zpos qp) 2 ltac:(lia)).
        change (2 ^ 54) with (2 * 2 ^ 53). lia.
      * symmetry. apply Z.ltb_ge. specialize (Hlo ltac:(lia)). lia.
      * symmetry. specialize (Hlo ltac:(lia)).
        destruct (Z.ltb_spec o (20 * d)); [lia|]. reflexivity.
Qed.

(** For rates below 2^52 the float64 test [mismatch > 0.05] is the exact
    test [20 * |oracle - fiat| > oracle]. *)
Theorem mismatch_exceeds_exact (o f : Z) :
  0 < o < 2 ^ 52 -> 0 < f < 2 ^ 53 ->
  F64.gtb (basicMMCalculatorImpl.mismatch o f) (F64.const 5 100)
  = (o <? 20 * Z.abs (o - f)).
Proof.
  intros Ho Hf. unfold basicMMCalculatorImpl.mismatch.
  assert (0 < o < 2 ^ 53) as Ho' by (change (2 ^ 53) with (2 * 2 ^ 52); lia).
  rewrite sub_exact by lia. rewrite const_5_100.
  rewrite (of_Z_exact o) by lia.
  destruct (Z.eqb_spec o f) as [<-|Hne].
  - rewrite Z.sub_diag.
    destruct (Z.ltb_spec o (20 * Z.abs 0)) as [H|_]; [simpl in H; lia|].
    reflexivity.
  - set (d := Z.abs (o - f)).
    assert (0 < d < 2 ^ 53) as Hd by (unfold d; lia).
    destruct (canonMant_value d Hd) as (Emx & Rmx & Dmx).
    destruct (canonMant_value o Ho') as (Emy & Rmy & Dmy).
    pose proof (Zdigits2_le_53 d Hd) as Hdd.
    pose proof (Zdigits2_le_53 o Ho') as Hdo.
    destruct (Zdigits2_bounds d ltac:(lia)) as [Hdd0 _].
    destruct (Zdigits2_bounds o ltac:(lia)) as [Hdo0 _].
    unfold exactFloat, F64.div, F64.abs, F64.prec, F64.emax.
    rewrite SFdiv_canonical by (assumption || lia).
    rewrite SFabs_round_aux.
    pose proof (Z.div_mod (Zpos (canonMant d) * 2 ^ 53) (Zpos (canonMant o))
                  ltac:(lia)) as Edm.
    pose proof (Z.mod_pos_bound (Zpos (canonMant d) * 2 ^ 53)
                  (Zpos (canonMant o)) ltac:(lia)) as Rr.
    rewrite Emx, Emy in *.
    assert (0 < 2 ^ (53 - Zdigits2 d)) as HA by (apply Z.pow_pos_nonneg; lia).
    assert (0 < 2 ^ (53 - Zdigits2 o)) as HB by (apply Z.pow_pos_nonneg; lia).
    apply (exceeds_from_quotient d o (2 ^ (53 - Zdigits2 d))
             (2 ^ (53 - Zdigits2 o))); try assumption; try lia.
    + intros. apply (pow2_le_shift _ _ 3); lia.
    + intros. apply (pow2_eq_shift _ _ 4); lia.
    + intros. apply (pow2_eq_shift _ _ 5); lia.
    + intros. change 64 with (2 ^ 6). rewrite <- Z.pow_add_r by lia.
      apply Z.pow_le_mono_r; lia.
Qed.

(** ** The calculator *)

Section CalculatorProps.
Context {P : Platform} {K : calc.Constants}.

(** C1. With [oracleRate] and [rateFromFiat] the two rates [basisPrice] reads
    and [step] the rate step it loads: both zero, it fails with
    [errNoBasisPrice]; no fiat rate, the stepped oracle rate; no oracle rate,
    the stepped fiat rate; both there, it fails with [errOracleFiatMismatch]
    when the mismatch [|oracle - fiat| / oracle], computed in float64 as the
    code does, exceeds 0.05, and otherwise gives the stepped oracle rate
    (never the fiat rate, never an average). For rates below 2^52 the float64
    test is exactly [20 * |oracle - fiat| > oracle]. *)
Theorem basisPrice_cases (b : basicMMCalculatorImpl.t) :
  let oracleRate :=
    msgRate (basicMMCalculatorImpl.mkt b)
      (getMarketPrice (basicMMCalculatorImpl.orcl b)
         (baseID (basicMMCalculatorImpl.mkt b))
         (quoteID (basicMMCalculatorImpl.mkt b))) in
  let rateFromFiat :=
    ExchangeRateFromFiatSources (basicMMCalculatorImpl.core b) in
  let step := rateStep (basicMMCalculatorImpl.mkt b) in
  let exceeds :=
    F64.gtb (basicMMCalculatorImpl.mismatch oracleRate rateFromFiat)
            (F64.const 5 100) in
  (oracleRate = 0 -> rateFromFiat = 0 ->
   basicMMCalculatorImpl.basisPrice b = Err errNoBasisPrice)
  /\ (oracleRate <> 0 -> rateFromFiat = 0 ->
      basicMMCalculatorImpl.basisPrice b = Ok (steppedRate oracleRate step))
  /\ (oracleRate = 0 -> rateFromFiat <> 0 ->
      basicMMCalculatorImpl.basisPrice b = Ok (steppedRate rateFromFiat step))
  /\ (oracleRate <> 0 -> rateFromFiat <> 0 -> exceeds = true ->
      basicMMCalculatorImpl.basisPrice b = Err errOracleFiatMismatch)
  /\ (oracleRate <> 0 -> rateFromFiat <> 0 -> exceeds = false ->
      basicMMCalculatorImpl.basisPrice b = Ok (steppedRate oracleRate step))
  /\ (0 < oracleRate < 2 ^ 52 -> 0 < rateFromFiat < 2 ^ 52 ->
      (exceeds = true
       <-> oracleRate < 20 * Z.abs (oracleRate - rateFromFiat))).
Proof.
  intros oracleRate rateFromFiat step exceeds.
  assert (0 < oracleRate < 2 ^ 52 -> 0 < rateFromFiat < 2 ^ 52 ->
          (exceeds = true
           <-> oracleRate < 20 * Z.abs (oracleRate - rateFromFiat))) as Hexact.
  { intros Ho Hf. unfold exceeds.
    rewrite mismatch_exceeds_exact
      by (assumption || (change (2 ^ 53) with (2 * 2 ^ 52); lia)).
    apply Z.ltb_lt. }
  unfold basicMMCalculatorImpl.basisPrice.
  fold oracleRate rateFromFiat step.
  change (F64.gtb (basicMMCalculatorImpl.mismatch oracleRate rateFromFiat)
                  basicMMCalculatorImpl.maxOracleFiatMismatch) with exceeds.
  destruct (Z.eqb_spec rateFromFiat 0) as [Hf|Hf];
    destruct (Z.eqb_spec oracleRate 0) as [Ho|Ho];
    repeat match goal with |- _ /\ _ => split end;
    try exact Hexact; intros; try contradiction; try reflexivity.
  - destruct exceeds; [reflexivity | discriminate].
  - destruct exceeds; [discriminate | reflexivity].
Qed.

Lemma feeGapStats_zero (b : basicMMCalculatorImpl.t) :
  basicMMCalculatorImpl.feeGapStats b 0 = Err (New "basis price cannot be zero").
Proof. reflexivity. Qed.

Lemma wrap64_double_even (h : Z) : Z.even (wrap64 (h * 2)) = true.
Proof.
  unfold wrap64.
  replace (2 ^ 64) with (2 ^ 63 * 2) by reflexivity.
  rewrite Z.mul_mod_distr_r by lia.
  rewrite Z.mul_comm. apply Z.even_mul. 
Qed.

(** C2, the claim as the code has it. [feeGapStats] fails on a zero basis
    price. On a nonzero one, with both one-lot fees fetched, it returns the
    basis price, [RoundTripFees = f], the sum of the two fees, and
    [FeeGap = 2 * halfGap], where [halfGap] is [g * RateEncodingFactor]
    rounded to the nearest integer for [g = f * r / (f + 2 * l)], all in
    float64. The fee gap is an even number of message-rate units and is not
    quantized to the rate step: the result does not depend on the step. The
    closed form is the solution of the round trip: with [g = f * r / (f + 2 * l)]
    as a number, [(r + g) * l = (l + f) * (r - g)] (stated over the common
    denominator [f + 2 * l]). *)
Theorem feeGapStats_spec (b : basicMMCalculatorImpl.t) (basisPrice : uint64)
        (sellFees buyFees : uint64) :
  basisPrice <> 0 ->
  OrderFeesInUnits (basicMMCalculatorImpl.core b) true true basisPrice
  = Ok sellFees ->
  OrderFeesInUnits (basicMMCalculatorImpl.core b) false true basisPrice
  = Ok buyFees ->
  let f := wrap64 (sellFees + buyFees) in
  let l := lotSize (basicMMCalculatorImpl.mkt b) in
  let feeGap := wrap64 (basicMMCalculatorImpl.halfGap basisPrice f l * 2) in
  basicMMCalculatorImpl.feeGapStats b basisPrice
  = Ok (FeeGapStats.mk basisPrice 0 feeGap f)
  /\ Z.even feeGap = true
  /\ (forall step,
        basicMMCalculatorImpl.feeGapStats (withRateStep b step) basisPrice
        = basicMMCalculatorImpl.feeGapStats b basisPrice)
  /\ basicMMCalculatorImpl.feeGapStats b 0
     = Err (New "basis price cannot be zero")
  /\ (forall r : Z,
        (r * (f + 2 * l) + f * r) * l = (l + f) * (r * (f + 2 * l) - f * r)).
Proof.
  intros Hbp Hsell Hbuy f l feeGap.
  assert (basicMMCalculatorImpl.feeGapStats b basisPrice
          = Ok (FeeGapStats.mk basisPrice 0 feeGap f)) as E.
  { unfold basicMMCalculatorImpl.feeGapStats.
    destruct (Z.eqb_spec basisPrice 0) as [H0|_]; [contradiction|].
    rewrite Hsell, Hbuy. reflexivity. }
  split; [exact E|]. split; [apply wrap64_double_even|].
  split; [|split; [reflexivity | intros r; ring]].
  intros step. rewrite E.
  unfold basicMMCalculatorImpl.feeGapStats, withRateStep. simpl.
  destruct (Z.eqb_spec basisPrice 0) as [H0|_]; [contradiction|].
  rewrite Hsell, Hbuy. reflexivity.
Qed.

End CalculatorProps.

Lemma feeGapStats_spec_witness :
  @basicMMCalculatorImpl.feeGapStats indefinite63 sampleConstants
    (sampleCalculatorImpl 100) 100000000
  = Ok (FeeGapStats.mk 100000000 0 18181818 2).
Proof.
  apply (@feeGapStats_spec indefinite63 sampleConstants
           (sampleCalculatorImpl 100) 100000000 1 1).
  - discriminate.
  - reflexivity.
  - reflexivity.
Defined.

(** C2 as stated fails: with a rate step of 100, fees of 1 + 1 base units, a
    lot size of 10 and a basis price of 1e8, the fee gap is 18181818, which
    is not a multiple of the rate step (the nearest ones are 18181800 and
    18181900). *)
Lemma feeGapStats_not_stepped_counterexample :
  rateStep (basicMMCalculatorImpl.mkt (sampleCalculatorImpl 100)) = 100
  /\ @basicMMCalculatorImpl.feeGapStats indefinite63 sampleConstants
       (sampleCalculatorImpl 100) 100000000
     = Ok (FeeGapStats.mk 100000000 0 18181818 2)
  /\ 18181818 mod 100 = 18
  /\ steppedRate 18181818 100 = 18181800.
Proof. repeat split; vm_compute; reflexivity. Qed.

(** ** orderPrice and ordersToPlace *)

Lemma round_1pc_of_1000000 {P : Platform} :
  F64.to_uint64 (F64.Round (F64.mul (F64.const 1 100) (F64.of_Z 1000000)))
  = 10000.
Proof. vm_compute. reflexivity. Qed.

Lemma round_1pc_of_500000 {P : Platform} :
  F64.to_uint64 (F64.Round (F64.mul (F64.const 1 100) (F64.of_Z 500000)))
  = 5000.
Proof. vm_compute. reflexivity. Qed.

Lemma needBreakEvenHalfSpread_iff (strat : GapStrategy) :
  needBreakEvenHalfSpread strat = true
  <-> strat = GapStrategyAbsolutePlus \/ strat = GapStrategyPercentPlus
      \/ strat = GapStrategyMultiplier.
Proof.
  unfold needBreakEvenHalfSpread.
  rewrite !orb_true_iff, !String.eqb_eq. tauto.
Qed.

Section PlannerProps.
Context {P : Platform}.
Variable m : basicMarketMaker.

Lemma orderPrice_percent (basisPrice feeAdj : uint64) (sell : bool)
      (gapFactor : float64) :
  BasicMarketMakingConfig.GapStrategy (cfg m) = GapStrategyPercent ->
  orderPrice m basisPrice feeAdj sell gapFactor
  = let adj :=
      steppedRate
        (F64.to_uint64 (F64.Round (F64.mul gapFactor (F64.of_Z basisPrice))))
        (rateStep (mmMarket m)) in
    if sell then wrap64 (basisPrice + adj)
    else if basisPrice <? adj then 0 else basisPrice - adj.
Proof. intros Hs. unfold orderPrice. rewrite Hs. reflexivity. Qed.

(** C3. [orderPrice] takes its offset from the strategy: the fee adjustment
    times the gap factor (multiplier), the gap factor times the basis price
    (percent, percent-plus), the gap factor in message-rate units (absolute,
    absolute-plus), products rounded to an integer; the -plus strategies add
    [feeAdj]. The offset is quantized with [steppedRate]; the rate is the
    basis price plus the offset to sell and minus it to buy, zero when the
    offset is larger. Sums are uint64 sums. For percent, a gap factor of
    0.01, a basis price of 1000000 and a rate step dividing 10000, the offset
    is 10000, the sell rate 1010000 and the buy rate 990000. *)
Theorem orderPrice_spec (basisPrice feeAdj : uint64) (sell : bool)
        (gapFactor : float64) :
  let strat := BasicMarketMakingConfig.GapStrategy (cfg m) in
  let step := rateStep (mmMarket m) in
  let rate raw :=
    let adj := steppedRate raw step in
    if sell then wrap64 (basisPrice + adj)
    else if basisPrice <? adj then 0 else basisPrice - adj in
  let product x y := F64.to_uint64 (F64.Round (F64.mul x y)) in
  (strat = GapStrategyMultiplier ->
   orderPrice m basisPrice feeAdj sell gapFactor
   = rate (product (F64.of_Z feeAdj) gapFactor))
  /\ (strat = GapStrategyPercent ->
      orderPrice m basisPrice feeAdj sell gapFactor
      = rate (product gapFactor (F64.of_Z basisPrice)))
  /\ (strat = GapStrategyPercentPlus ->
      orderPrice m basisPrice feeAdj sell gapFactor
      = rate (wrap64 (product gapFactor (F64.of_Z basisPrice) + feeAdj)))
  /\ (strat = GapStrategyAbsolute ->
      orderPrice m basisPrice feeAdj sell gapFactor
      = rate (msgRate (mmMarket m) gapFactor))
  /\ (strat = GapStrategyAbsolutePlus ->
      orderPrice m basisPrice feeAdj sell gapFactor
      = rate (wrap64 (msgRate (mmMarket m) gapFactor + feeAdj)))
  /\ (strat = GapStrategyPercent -> 0 < step -> (step | 10000) ->
      steppedRate (product (F64.const 1 100) (F64.of_Z 1000000)) step = 10000
      /\ orderPrice m 1000000 feeAdj true (F64.const 1 100) = 1010000
      /\ orderPrice m 1000000 feeAdj false (F64.const 1 100) = 990000).
Proof.
  intros strat step rate product.
  repeat match goal with |- _ /\ _ => split end;
    intros Hs;
    try (unfold orderPrice; fold strat; rewrite Hs; reflexivity).
  intros Hstep Hdiv.
  assert (steppedRate 10000 step = 10000) as E
      by (apply steppedRate_divides; [lia | exact Hstep | lia | exact Hdiv]).
  unfold product. rewrite !(orderPrice_percent _ _ _ _ Hs).
  fold step. cbv zeta. rewrite round_1pc_of_1000000, E.
  repeat match goal with |- _ /\ _ => split end; reflexivity.
Qed.

(** Without overflow the sell rate is the sum itself. *)
Lemma orderPrice_sell_exact (basisPrice feeAdj : uint64)
      (gapFactor : float64) :
  BasicMarketMakingConfig.GapStrategy (cfg m) = GapStrategyPercent ->
  0 <= basisPrice -> 0 <= rateStep (mmMarket m) ->
  let adj :=
    steppedRate
      (F64.to_uint64 (F64.Round (F64.mul gapFactor (F64.of_Z basisPrice))))
      (rateStep (mmMarket m)) in
  basisPrice + adj < 2 ^ 64 ->
  orderPrice m basisPrice feeAdj true gapFactor = basisPrice + adj.
Proof.
  intros Hs Hbp Hstep adj Hfit.
  rewrite (orderPrice_percent _ _ _ _ Hs). cbv zeta. fold adj.
  apply wrap64_small. split; [|exact Hfit].
  pose proof (steppedRate_nonneg
                (F64.to_uint64
                   (F64.Round (F64.mul gapFactor (F64.of_Z basisPrice))))
                _ Hstep).
  fold adj in H. lia.
Qed.

(** What the buy side can give: never more than the basis price. *)
Lemma orderPrice_buy_le (basisPrice feeAdj : uint64) (gapFactor : float64) :
  0 <= basisPrice -> 0 <= rateStep (mmMarket m) ->
  0 <= orderPrice m basisPrice feeAdj false gapFactor <= basisPrice.
Proof.
  intros H Hstep. unfold orderPrice.
  match goal with |- context [basisPrice <? ?a] =>
    assert (0 <= a) as Ha
      by (apply steppedRate_nonneg; exact Hstep);
    destruct (Z.ltb_spec basisPrice a)
  end; lia.
Qed.

Lemma orders_map (basisPrice feeAdj : uint64)
      (orderPlacements : list OrderPlacement.t) (sell : bool) :
  orders m basisPrice feeAdj orderPlacements sell
  = map (fun p =>
           let rate :=
             orderPrice m basisPrice feeAdj sell (OrderPlacement.GapFactor p) in
           TradePlacement.mk rate
             (if rate =? 0 then 0 else OrderPlacement.Lots p))
        orderPlacements.
Proof.
  unfold orders.
  set (f := fun p : OrderPlacement.t => _).
  assert (forall ps acc,
             fold_left (fun placements p => placements ++ [f p]) ps acc
             = acc ++ map f ps) as G.
  { induction ps as [|p ps IH]; intros acc; simpl.
    - rewrite app_nil_r. reflexivity.
    - rewrite IH, <- app_assoc. reflexivity. }
  apply (G orderPlacements []).
Qed.

(** C4. When the calculator gives a basis price and fee-gap stats,
    [ordersToPlace] returns, for each side, one placement per configured
    rung, in the order of the configuration: its rate is [orderPrice] of the
    rung's gap factor, its lots are the rung's, or zero when the rate is
    zero. The fee adjustment passed to [orderPrice] is half the fee gap for
    absolute-plus, percent-plus and multiplier, and zero for the other
    strategies. With the single buy rung [{Lots: 1, GapFactor: 0.01}],
    strategy percent, basis price 500000 and rate step 1, the buy output is
    [{Rate: 495000, Lots: 1}]. *)
Theorem ordersToPlace_spec (s : botState) (basisPrice : uint64)
        (feeGap : FeeGapStats.t) :
  basicMMCalculator.basisPrice (calculator m) = Ok basisPrice ->
  basicMMCalculator.feeGapStats (calculator m) basisPrice = Ok feeGap ->
  let strat := BasicMarketMakingConfig.GapStrategy (cfg m) in
  let feeAdj :=
    if String.eqb strat GapStrategyAbsolutePlus
       || String.eqb strat GapStrategyPercentPlus
       || String.eqb strat GapStrategyMultiplier
    then FeeGapStats.FeeGap feeGap / 2 else 0 in
  let place sell p :=
    let rate :=
      orderPrice m basisPrice feeAdj sell (OrderPlacement.GapFactor p) in
    TradePlacement.mk rate (if rate =? 0 then 0 else OrderPlacement.Lots p) in
  fst (ordersToPlace m s)
  = Ok (map (place false) (BasicMarketMakingConfig.BuyPlacements (cfg m)),
        map (place true) (BasicMarketMakingConfig.SellPlacements (cfg m)))
  /\ (BasicMarketMakingConfig.BuyPlacements (cfg m)
      = [OrderPlacement.mk 1 (F64.const 1 100)] ->
      strat = GapStrategyPercent -> basisPrice = 500000 ->
      rateStep (mmMarket m) = 1 ->
      map (place false) (BasicMarketMakingConfig.BuyPlacements (cfg m))
      = [TradePlacement.mk 495000 1]).
Proof.
  intros Hbp Hfg strat feeAdj place. split.
  - unfold ordersToPlace, bind, call, ret. simpl.
    rewrite Hbp. simpl. rewrite Hfg. simpl.
    rewrite !orders_map. reflexivity.
  - intros Hbuy Hs -> Hstep. rewrite Hbuy.
    unfold place, map. cbv zeta.
    rewrite (orderPrice_percent _ _ _ _ Hs), Hstep. cbv zeta.
    rewrite round_1pc_of_500000. reflexivity.
Qed.

End PlannerProps.

Lemma ordersToPlace_spec_witness :
  fst (@ordersToPlace indefinite63
         (sampleMaker GapStrategyPercent 1 500000 true) idleBot)
  = Ok ([TradePlacement.mk 495000 1], []).
Proof.
  apply (@ordersToPlace_spec indefinite63
           (sampleMaker GapStrategyPercent 1 500000 true) idleBot 500000
           (FeeGapStats.mk 500000 0 0 0)); reflexivity.
Defined.

(** The 5% gate at work on round numbers: a fiat rate 5% off the oracle
    rate passes, one unit further fails, on either side. *)
Lemma basisPrice_five_percent_examples :
  basicMMCalculatorImpl.basisPrice
    (ratesCalculatorImpl 1000000 950000 1) = Ok 1000000
  /\ basicMMCalculatorImpl.basisPrice
       (ratesCalculatorImpl 1000000 949999 1) = Err errOracleFiatMismatch
  /\ basicMMCalculatorImpl.basisPrice
       (ratesCalculatorImpl 1000000 1050000 1) = Ok 1000000
  /\ basicMMCalculatorImpl.basisPrice
       (ratesCalculatorImpl 1000000 1050001 1) = Err errOracleFiatMismatch
  /\ basicMMCalculatorImpl.basisPrice
       (ratesCalculatorImpl 0 0 1) = Err errNoBasisPrice
  /\ basicMMCalculatorImpl.basisPrice
       (ratesCalculatorImpl 1234 0 100) = Ok 1200
  /\ basicMMCalculatorImpl.basisPrice
       (ratesCalculatorImpl 0 1234 100) = Ok 1200.
Proof. repeat split; vm_compute; reflexivity. Qed.

(** ** Concurrent triggers *)

Section Interleaving.
Context {P : Platform}.
Variable m : basicMarketMaker.

Lemma holders_app (l1 l2 : list phase) :
  holders (l1 ++ l2) = (holders l1 + holders l2)%nat.
Proof. unfold holders. rewrite filter_app, length_app. reflexivity. Qed.

Lemma holders_cons (ph : phase) (l : list phase) :
  holders (ph :: l)
  = ((if holdsFlag ph then 1 else 0) + holders l)%nat.
Proof. unfold holders. simpl. destruct (holdsFlag ph); reflexivity. Qed.

Lemma sysStep_invariant (c1 c2 : list phase * botState) :
  sysStep m c1 c2 -> flagInvariant c1 -> flagInvariant c2.
Proof.
  intros H. destruct H as [before ph after st].
  unfold flagInvariant. simpl.
  rewrite !holders_app, !holders_cons.
  destruct ph as [e|e| |]; simpl.
  - unfold CompareAndSwap.
    destruct (rebalanceRunning st) eqn:F; simpl; rewrite ?F; simpl; lia.
  - rewrite rebalance_body_flag. lia.
  - destruct (rebalanceRunning st); simpl; lia.
  - lia.
Qed.

Lemma sysSteps_invariant (c1 c2 : list phase * botState) :
  sysSteps m c1 c2 -> flagInvariant c1 -> flagInvariant c2.
Proof.
  induction 1 as [|c1 c2 c3 _ IH Hstep]; intros Hinv; [exact Hinv|].
  apply (sysStep_invariant c2 c3 Hstep). apply IH. exact Hinv.
Qed.

(** However the steps of any number of [rebalance] calls interleave, starting
    from a clear flag with every call still before its compare-and-swap, at
    most one call is inside at any time, and the flag is set exactly then. *)
Theorem rebalance_at_most_one (epochs : list uint64) (log : list Call)
        (ths : list phase) (st : botState) :
  sysSteps m (map Waiting epochs,
              {| rebalanceRunning := false; calls := log |}) (ths, st) ->
  (holders ths <= 1)%nat
  /\ (rebalanceRunning st = true <-> holders ths = 1%nat).
Proof.
  intros H. apply sysSteps_invariant in H.
  - unfold flagInvariant in H. simpl in H.
    destruct (rebalanceRunning st); rewrite H; split; try lia;
      split; intros; try reflexivity; discriminate.
  - unfold flagInvariant. simpl. clear H.
    induction epochs as [|e es IH]; [reflexivity|].
    simpl. rewrite holders_cons. simpl. exact IH.
Qed.

(** A call whose three steps run without another step in between is
    [rebalance]; a call that finds the flag set is done after one step. *)
Lemma stepThread_rebalance (newEpoch : uint64) (st : botState) :
  (rebalanceRunning st = false ->
   let (ph1, st1) := stepThread m (Waiting newEpoch) st in
   let (ph2, st2) := stepThread m ph1 st1 in
   stepThread m ph2 st2 = (Returned, snd (rebalance m newEpoch st)))
  /\ (rebalanceRunning st = true ->
      stepThread m (Waiting newEpoch) st = (Returned, st)
      /\ snd (rebalance m newEpoch st) = st).
Proof.
  split; intros H.
  - rewrite (rebalance_acquires _ _ _ H).
    unfold stepThread, CompareAndSwap. rewrite H. simpl.
    reflexivity.
  - unfold stepThread, rebalance, bind, CompareAndSwap. rewrite H. simpl.
    split; reflexivity.
Qed.

End Interleaving.

Lemma rebalance_at_most_one_witness :
  (holders [Inside 7%Z; Returned] <= 1)%nat.
Proof.
  apply (@rebalance_at_most_one indefinite63
           (sampleMaker GapStrategyPercent 1 500000 true) [7; 8] []
           [Inside 7; Returned]
           {| rebalanceRunning := true; calls := [] |}).
  eapply sysSteps_snoc.
  - eapply sysSteps_snoc; [apply sysSteps_refl|].
    apply (sysStep_at _ [] (Waiting 7) [Waiting 8] idleBot).
  - apply (sysStep_at _ [Inside 7] (Waiting 8) []
             {| rebalanceRunning := true; calls := [] |}).
Defined.

(** ** validate *)

Lemma SFeqb_sym (x y : float64) : SFeqb x y = SFeqb y x.
Proof.
  unfold SFeqb.
  destruct x as [sx|sx| |sx mx ex], y as [sy|sy| |sy my ey];
    try reflexivity;
    try (destruct sx, sy; reflexivity);
    try (destruct sx; reflexivity);
    try (destruct sy; reflexivity).
  cbn [SFcompare].
  rewrite (Z.compare_antisym ex ey).
  change (Pcompare my mx Eq) with (Pos.compare my mx).
  change (Pcompare mx my Eq) with (Pos.compare mx my).
  rewrite (Pos.compare_antisym mx my).
  destruct sx, sy; try reflexivity;
    destruct (ex ?= ey); try reflexivity;
    destruct (mx ?= my)%positive; reflexivity.
Qed.

Lemma knownGapStrategy_iff (strat : GapStrategy) :
  negb (String.eqb strat GapStrategyMultiplier)
  && negb (String.eqb strat GapStrategyPercent)
  && negb (String.eqb strat GapStrategyPercentPlus)
  && negb (String.eqb strat GapStrategyAbsolute)
  && negb (String.eqb strat GapStrategyAbsolutePlus) = false
  <-> knownGapStrategy strat.
Proof.
  unfold knownGapStrategy.
  rewrite <- !String.eqb_eq.
  destruct (String.eqb strat GapStrategyMultiplier),
           (String.eqb strat GapStrategyPercent),
           (String.eqb strat GapStrategyPercentPlus),
           (String.eqb strat GapStrategyAbsolute),
           (String.eqb strat GapStrategyAbsolutePlus); simpl;
    intuition congruence.
Qed.

Lemma validatePlacement_none (strat : GapStrategy) (p : OrderPlacement.t) :
  validatePlacement strat p = None
  <-> withinLimits strat (OrderPlacement.GapFactor p).
Proof.
  unfold validatePlacement, withinLimits.
  destruct (limits strat) as [[lo hi]|]; [|intuition discriminate].
  destruct (F64.ltb _ lo), (F64.gtb _ hi); simpl; intuition discriminate.
Qed.

Lemma existsb_eqb_false (x : float64) (seen : list float64) :
  existsb (F64.eqb x) seen = false
  <-> Forall (fun y => F64.eqb y x = false) seen.
Proof.
  induction seen as [|y ys IH]; simpl.
  - split; [constructor | reflexivity].
  - rewrite orb_false_iff, IH. unfold F64.eqb at 1. rewrite SFeqb_sym.
    split.
    + intros [H1 H2]. constructor; assumption.
    + intros H. inversion H; subst. split; assumption.
Qed.

(** The loop accepts a ladder exactly when every gap factor is within the
    limits, no two are equal, and none equals a key already in the map. *)
Lemma validate_loop_none (sell : bool) (strat : GapStrategy)
      (placements : list OrderPlacement.t) (seen : list float64) :
  validate_loop sell strat placements seen = None
  <-> validLadder strat placements
      /\ Forall (fun x =>
                   Forall (fun y => F64.eqb y x = false) seen)
                (map OrderPlacement.GapFactor placements).
Proof.
  unfold validLadder, distinctGapFactors.
  revert seen. induction placements as [|p ps IH]; intros seen.
  - simpl. split; [|reflexivity]. intros _.
    repeat split; constructor.
  - cbn [validate_loop map].
    destruct (existsb (F64.eqb (OrderPlacement.GapFactor p)) seen) eqn:Ex.
    + split; [discriminate|]. intros [_ H].
      inversion H as [|? ? H1 H2]; subst.
      apply existsb_eqb_false in H1. congruence.
    + apply existsb_eqb_false in Ex.
      destruct (validatePlacement strat p) eqn:Ev.
      * split; [discriminate|]. intros [[H _] _].
        inversion H as [|? ? H1 H2]; subst.
        apply validatePlacement_none in H1. congruence.
      * apply validatePlacement_none in Ev. rewrite IH. split.
        -- intros [[Hw Hd] Hs]. repeat split.
           ++ constructor; assumption.
           ++ constructor; [|assumption].
              eapply Forall_impl; [|exact Hs].
              intros x Hx. inversion Hx as [|? ? Hx1 Hx2]; subst. exact Hx1.
           ++ constructor; [assumption|].
              eapply Forall_impl; [|exact Hs].
              intros x Hx. inversion Hx as [|? ? Hx1 Hx2]; subst. exact Hx2.
        -- intros [[Hw Hd] Hs].
           inversion Hw as [|? ? Hw1 Hw2]; subst.
           inversion Hd as [|? ? Hd1 Hd2]; subst.
           inversion Hs as [|? ? Hs1 Hs2]; subst.
           repeat split; try assumption.
           apply Forall_forall. intros x Hx. constructor.
           ++ rewrite Forall_forall in Hd1. apply Hd1. exact Hx.
           ++ rewrite Forall_forall in Hs2. apply Hs2. exact Hx.
Qed.

Lemma validate_loop_none_nil (sell : bool) (strat : GapStrategy)
      (placements : list OrderPlacement.t) :
  validate_loop sell strat placements [] = None
  <-> validLadder strat placements.
Proof.
  rewrite validate_loop_none. split; [intros [H _]; exact H|].
  intros H. split; [exact H|].
  apply Forall_forall. intros x _. constructor.
Qed.

Lemma validate_fst (c : BasicMarketMakingConfig.t) :
  fst (validate c) = withDefaultDrift c.
Proof.
  unfold validate, withDefaultDrift.
  cbn [BasicMarketMakingConfig.SellPlacements
       BasicMarketMakingConfig.BuyPlacements].
  destruct (F64.ltb _ F64.zero || F64.gtb _ (F64.const 1 100));
    [reflexivity|].
  destruct (negb _ && _ && _ && _ && _); [reflexivity|].
  destruct (validate_loop true _ _ _); [reflexivity|].
  destruct (validate_loop false _ _ _); reflexivity.
Qed.

Lemma validate_none (c : BasicMarketMakingConfig.t) :
  snd (validate c) = None <-> validConfig (withDefaultDrift c).
Proof.
  unfold validate, validConfig, withDefaultDrift.
  cbn [BasicMarketMakingConfig.SellPlacements
       BasicMarketMakingConfig.BuyPlacements
       BasicMarketMakingConfig.GapStrategy
       BasicMarketMakingConfig.DriftTolerance].
  set (d := if F64.eqb (BasicMarketMakingConfig.DriftTolerance c) F64.zero
            then F64.const 1 1000
            else BasicMarketMakingConfig.DriftTolerance c).
  rewrite <- knownGapStrategy_iff.
  rewrite <- (validate_loop_none_nil true _
                (BasicMarketMakingConfig.SellPlacements c)).
  rewrite <- (validate_loop_none_nil false _
                (BasicMarketMakingConfig.BuyPlacements c)).
  destruct (F64.ltb d F64.zero), (F64.gtb d (F64.const 1 100)); simpl;
    try (split; [discriminate | intros [[? ?] _]; discriminate]).
  destruct (negb _ && _ && _ && _ && _); simpl;
    [split; [discriminate | intros (_ & ? & _); discriminate]|].
  destruct (validate_loop true _ _ _); simpl;
    [split; [discriminate | intros (_ & _ & ? & _); discriminate]|].
  destruct (validate_loop false _ _ _); simpl;
    [split; [discriminate | intros (_ & _ & _ & ?); discriminate]|].
  split; [|reflexivity]. intros _. repeat split; reflexivity.
Qed.

Lemma default_drift_nonzero (d : float64) :
  F64.eqb (if F64.eqb d F64.zero then F64.const 1 1000 else d) F64.zero
  = false.
Proof.
  destruct (F64.eqb d F64.zero) eqn:E; [vm_compute; reflexivity | exact E].
Qed.

Lemma subseq_Forall {A : Type} (Q : A -> Prop) (l1 l2 : list A) :
  subseq l1 l2 -> Forall Q l2 -> Forall Q l1.
Proof.
  induction 1 as [|x l1 l2 _ IH|x l1 l2 _ IH]; intros H.
  - constructor.
  - inversion H as [|? ? H1 H2]; subst. apply IH. exact H2.
  - inversion H as [|? ? H1 H2]; subst. constructor; [exact H1 | apply IH; exact H2].
Qed.

Lemma subseq_ForallOrdPairs {A : Type} (R : A -> A -> Prop) (l1 l2 : list A) :
  subseq l1 l2 -> ForallOrdPairs R l2 -> ForallOrdPairs R l1.
Proof.
  induction 1 as [|x l1 l2 Hs IH|x l1 l2 Hs IH]; intros H.
  - constructor.
  - inversion H as [|? ? H1 H2]; subst. apply IH. exact H2.
  - inversion H as [|? ? H1 H2]; subst.
    constructor; [|apply IH; exact H2].
    eapply subseq_Forall; [exact Hs | exact H1].
Qed.

Lemma validLadder_subseq (strat : GapStrategy)
      (out placements : list OrderPlacement.t) :
  subseq (map OrderPlacement.GapFactor out)
         (map OrderPlacement.GapFactor placements) ->
  validLadder strat placements -> validLadder strat out.
Proof.
  intros Hs [Hw Hd]. split.
  - eapply subseq_Forall; eassumption.
  - eapply subseq_ForallOrdPairs; eassumption.
Qed.

(** [validate] returns nil exactly for a configuration that, once a zero
    drift tolerance is replaced by 0.001, has a drift tolerance neither below
    0 nor above 0.01, one of the five gap strategies, and on each side gap
    factors that are within the limits of the strategy and pairwise
    different; it leaves behind that configuration, whatever it returns. *)
Theorem validate_accepts_iff (c : BasicMarketMakingConfig.t) :
  fst (validate c) = withDefaultDrift c
  /\ (snd (validate c) = None <-> validConfig (fst (validate c))).
Proof.
  split; [apply validate_fst|]. rewrite validate_fst. apply validate_none.
Qed.

(** Validating a second time changes nothing and gives the same answer. *)
Theorem validate_idempotent (c : BasicMarketMakingConfig.t) :
  validate (fst (validate c)) = validate c.
Proof.
  rewrite validate_fst.
  unfold validate at 1. unfold withDefaultDrift.
  cbn [BasicMarketMakingConfig.SellPlacements
       BasicMarketMakingConfig.BuyPlacements
       BasicMarketMakingConfig.GapStrategy
       BasicMarketMakingConfig.DriftTolerance].
  rewrite default_drift_nonzero. reflexivity.
Qed.

(** A configuration that [validate] accepts is still accepted after its
    ladders are rescaled to another lot size. *)
Theorem validate_after_updateLotSize {P : Platform}
        (c : BasicMarketMakingConfig.t) (originalLotSize newLotSize : uint64) :
  newLotSize <> 0 -> snd (validate c) = None ->
  exists c',
    config_updateLotSize c originalLotSize newLotSize = Some c'
    /\ snd (validate c') = None.
Proof.
  intros Hn Hv. apply validate_none in Hv.
  destruct Hv as (Hd & Hk & Hsell & Hbuy).
  unfold withDefaultDrift in *.
  cbn [BasicMarketMakingConfig.SellPlacements
       BasicMarketMakingConfig.BuyPlacements
       BasicMarketMakingConfig.GapStrategy
       BasicMarketMakingConfig.DriftTolerance] in *.
  unfold config_updateLotSize, updateLotSize.
  destruct (updateLotSize_loop_frame
              (BasicMarketMakingConfig.SellPlacements c)
              originalLotSize newLotSize Hn
              (totalQty (BasicMarketMakingConfig.SellPlacements c)
                        originalLotSize) [])
    as (sells & -> & Hss).
  destruct (updateLotSize_loop_frame
              (BasicMarketMakingConfig.BuyPlacements c)
              originalLotSize newLotSize Hn
              (totalQty (BasicMarketMakingConfig.BuyPlacements c)
                        originalLotSize) [])
    as (buys & -> & Hsb).
  cbn [app]. eexists. split; [reflexivity|].
  apply validate_none. unfold validConfig, withDefaultDrift.
  cbn [BasicMarketMakingConfig.SellPlacements
       BasicMarketMakingConfig.BuyPlacements
       BasicMarketMakingConfig.GapStrategy
       BasicMarketMakingConfig.DriftTolerance].
  split; [exact Hd|]. split; [exact Hk|].
  split; eapply validLadder_subseq; eassumption.
Qed.

Lemma validate_after_updateLotSize_witness :
  exists c',
    @config_updateLotSize indefinite63
      (BasicMarketMakingConfig.mk GapStrategyPercent
         [OrderPlacement.mk 10 gap1pc; OrderPlacement.mk 1 gap2pc]
         [OrderPlacement.mk 3 gap1pc] F64.zero) 10 30
    = Some c'
    /\ snd (validate c') = None.
Proof.
  apply (@validate_after_updateLotSize indefinite63
           (BasicMarketMakingConfig.mk GapStrategyPercent
              [OrderPlacement.mk 10 gap1pc; OrderPlacement.mk 1 gap2pc]
              [OrderPlacement.mk 3 gap1pc] F64.zero) 10 30).
  - lia.
  - vm_compute. reflexivity.
Defined.

(** [validate] lets NaN through: a NaN is neither below nor above any bound
    and is not equal to any key of the map, so a configuration of a known
    strategy whose drift tolerance and gap factors are all NaN is accepted,
    however many rungs it has. *)
Theorem validate_accepts_nan (strat : GapStrategy)
        (sells buys : list OrderPlacement.t) :
  knownGapStrategy strat ->
  Forall (fun p => OrderPlacement.GapFactor p = S754_nan) (sells ++ buys) ->
  validate (BasicMarketMakingConfig.mk strat sells buys S754_nan)
  = (BasicMarketMakingConfig.mk strat sells buys S754_nan, None).
Proof.
  intros Hk Hnan.
  assert (withinLimits strat S754_nan) as Hw.
  { unfold withinLimits.
    destruct Hk as [->|[->|[->|[->| ->]]]]; vm_compute; split; reflexivity. }
  assert (forall ps, Forall (fun p => OrderPlacement.GapFactor p = S754_nan) ps ->
                     validLadder strat ps) as Hl.
  { intros ps H. induction H as [|p ps Hp _ [IH1 IH2]].
    - split; constructor.
    - split; cbn [map]; rewrite Hp.
      + constructor; assumption.
      + constructor; [|assumption].
        apply Forall_forall. intros x _. reflexivity. }
  apply Forall_app in Hnan. destruct Hnan as [Hs Hb].
  rewrite (surjective_pairing (validate _)).
  rewrite validate_fst. f_equal.
  apply validate_none. unfold validConfig, withDefaultDrift.
  cbn [BasicMarketMakingConfig.SellPlacements
       BasicMarketMakingConfig.BuyPlacements
       BasicMarketMakingConfig.GapStrategy
       BasicMarketMakingConfig.DriftTolerance].
  repeat match goal with |- _ /\ _ => split end;
    try reflexivity; try exact Hk; apply Hl; assumption.
Qed.

Lemma validate_accepts_nan_witness :
  validate
    (BasicMarketMakingConfig.mk GapStrategyPercent
       [OrderPlacement.mk 1 S754_nan; OrderPlacement.mk 2 S754_nan] []
       S754_nan)
  = (BasicMarketMakingConfig.mk GapStrategyPercent
       [OrderPlacement.mk 1 S754_nan; OrderPlacement.mk 2 S754_nan] []
       S754_nan, None).
Proof.
  apply (validate_accepts_nan GapStrategyPercent
           [OrderPlacement.mk 1 S754_nan; OrderPlacement.mk 2 S754_nan] []).
  - right. left. reflexivity.
  - repeat constructor.
Defined.

(** ** updateLotSize: exact rescaling and kept rungs *)

(** A mantissa that already has 53 bits or more and is an integer of at most
    53 bits times a power of two is rounded without loss. *)
Lemma round_aux_exact (s : bool) (M N : positive) (e k : Z) :
  0 <= k -> Zpos M = Zpos N * 2 ^ k ->
  Zpos (digits2_pos N) <= 53 -> 53 <= Zpos (digits2_pos N) + k ->
  -1074 <= e + k + Zpos (digits2_pos N) - 53 <= 971 ->
  binary_round_aux 53 1024 s (Zpos M) e loc_Exact
  = S754_finite s (Z.to_pos (Zpos N * 2 ^ (53 - Zpos (digits2_pos N))))
                (e + k + Zpos (digits2_pos N) - 53).
Proof.
  intros Hk EM HdN Hge Her.
  rewrite <- (binary_round_exact s M N e k Hk EM HdN Her).
  pose proof (digits2_pos_scaled M N k Hk EM) as HdM.
  unfold binary_round. rewrite HdM, fexp_normal by lia.
  unfold shl_align.
  destruct (Zpos (digits2_pos N) + k + e - 53 - e) as [|d|d] eqn:Ed;
    [reflexivity | reflexivity | lia].
Qed.

Lemma Zdigits2_mul (a b : Z) :
  0 < a -> 0 < b ->
  Zdigits2 a + Zdigits2 b - 1 <= Zdigits2 (a * b) <= Zdigits2 a + Zdigits2 b.
Proof.
  intros Ha Hb.
  destruct (Zdigits2_bounds a Ha) as [Hda [Alo Ahi]].
  destruct (Zdigits2_bounds b Hb) as [Hdb [Blo Bhi]].
  assert (0 < a * b) as Hab by nia.
  destruct (Zdigits2_bounds (a * b) Hab) as [Hdab [Plo Phi]].
  assert (2 ^ (Zdigits2 a - 1) * 2 ^ (Zdigits2 b - 1) <= a * b) as L by nia.
  assert (a * b < 2 ^ Zdigits2 a * 2 ^ Zdigits2 b) as U by nia.
  rewrite <- Z.pow_add_r in L, U by lia.
  split.
  - destruct (Z.le_gt_cases (Zdigits2 a + Zdigits2 b - 1) (Zdigits2 (a * b)))
      as [|Hgt]; [assumption|].
    assert (2 ^ Zdigits2 (a * b) <= 2 ^ (Zdigits2 a - 1 + (Zdigits2 b - 1)))
      by (apply Z.pow_le_mono_r; lia).
    lia.
  - destruct (Z.le_gt_cases (Zdigits2 (a * b)) (Zdigits2 a + Zdigits2 b))
      as [|Hgt]; [assumption|].
    assert (2 ^ (Zdigits2 a + Zdigits2 b) <= 2 ^ (Zdigits2 (a * b) - 1))
      by (apply Z.pow_le_mono_r; lia).
    lia.
Qed.

(** The product of two integers is exact when it is below 2^53. *)
Lemma mul_exact (a b : Z) :
  0 < a -> 0 < b -> a * b < 2 ^ 53 ->
  F64.mul (exactFloat false a) (exactFloat false b) = exactFloat false (a * b).
Proof.
  intros Ha Hb Hab.
  assert (0 < a * b) as Hp by nia.
  assert (a < 2 ^ 53) as Ha' by nia.
  assert (b < 2 ^ 53) as Hb' by nia.
  destruct (canonMant_value a ltac:(lia)) as (Ea & Ra & Da).
  destruct (canonMant_value b ltac:(lia)) as (Eb & Rb & Db).
  pose proof (Zdigits2_le_53 a ltac:(lia)) as La.
  pose proof (Zdigits2_le_53 b ltac:(lia)) as Lb.
  pose proof (Zdigits2_le_53 (a * b) ltac:(lia)) as Lab.
  pose proof (Zdigits2_mul a b Ha Hb) as [M1 M2].
  destruct (Zdigits2_bounds a Ha) as [Hda _].
  destruct (Zdigits2_bounds b Hb) as [Hdb _].
  unfold F64.mul, F64.prec, F64.emax, exactFloat at 1 2. cbn [SFmul xorb].
  destruct (a * b) as [|N|N] eqn:EN; try lia.
  change (Zdigits2 (Zpos N)) with (Zpos (digits2_pos N)) in *.
  rewrite (round_aux_exact false (canonMant a * canonMant b) N
             (Zdigits2 a - 53 + (Zdigits2 b - 53))
             (106 - Zdigits2 a - Zdigits2 b)).
  - unfold exactFloat, canonMant.
    change (Zdigits2 (Zpos N)) with (Zpos (digits2_pos N)).
    f_equal. lia.
  - lia.
  - rewrite Pos2Z.inj_mul, Ea, Eb, <- EN.
    replace (106 - Zdigits2 a - Zdigits2 b)
      with ((53 - Zdigits2 a) + (53 - Zdigits2 b)) by lia.
    rewrite Z.pow_add_r by lia. ring.
  - exact Lab.
  - lia.
  - lia.
Qed.

(** The quotient of a multiple below 2^53 by its factor is exact. *)
Lemma div_exact (c n : Z) :
  0 < c -> 0 < n -> c * n < 2 ^ 53 ->
  F64.div (exactFloat false (c * n)) (exactFloat false n) = exactFloat false c.
Proof.
  intros Hc Hn Hcn.
  assert (0 < c * n) as Hp by nia.
  assert (c < 2 ^ 53) as Hc' by nia.
  assert (n < 2 ^ 53) as Hn' by nia.
  destruct (canonMant_value (c * n) ltac:(lia)) as (E1 & R1 & D1).
  destruct (canonMant_value n ltac:(lia)) as (En & Rn & Dn).
  pose proof (Zdigits2_le_53 (c * n) ltac:(lia)) as L1.
  pose proof (Zdigits2_le_53 n ltac:(lia)) as Ln.
  pose proof (Zdigits2_le_53 c ltac:(lia)) as Lc.
  pose proof (Zdigits2_mul c n Hc Hn) as [M1 M2].
  destruct (Zdigits2_bounds c Hc) as [Hdc _].
  destruct (Zdigits2_bounds n Hn) as [Hdn _].
  destruct (Zdigits2_bounds (c * n) Hp) as [Hd1 _].
  set (d1 := Zdigits2 (c * n)) in *.
  set (dn := Zdigits2 n) in *.
  unfold F64.div, F64.prec, F64.emax, exactFloat at 1 2. fold d1 dn.
  rewrite SFdiv_canonical by (assumption || lia).
  cbn [xorb].
  set (k := 53 - d1 + dn).
  assert (0 < 2 ^ k) as Hk by (apply Z.pow_pos_nonneg; unfold k; lia).
  assert (Zpos (canonMant (c * n)) * 2 ^ 53
          = (c * 2 ^ k) * Zpos (canonMant n)) as Eq.
  { rewrite E1, En. fold d1 dn.
    replace (c * 2 ^ k * (n * 2 ^ (53 - dn)))
      with (c * n * (2 ^ k * 2 ^ (53 - dn))) by ring.
    rewrite <- Z.mul_assoc. f_equal.
    rewrite <- !Z.pow_add_r by (unfold k; lia). f_equal. unfold k. lia. }
  rewrite Eq, Z.div_mul, Z.mod_mul by lia.
  rewrite new_location_cases by lia. cbn [Z.eqb].
  destruct c as [|N|N]; try lia.
  change (Zdigits2 (Zpos N)) with (Zpos (digits2_pos N)) in *.
  destruct (Zpos N * 2 ^ k) as [|M|M] eqn:EM; try lia.
  rewrite (round_aux_exact false M N (d1 - 53 - (dn - 53) - 53) k).
  - unfold exactFloat, canonMant.
    change (Zdigits2 (Zpos N)) with (Zpos (digits2_pos N)).
    f_equal. unfold k. lia.
  - unfold k. lia.
  - symmetry. exact EM.
  - exact Lc.
  - unfold k. lia.
  - unfold k. lia.
Qed.

(** [math.Round] and the conversion to [uint64] of an integer-valued
    float. *)
Lemma Round_exact (c : Z) :
  0 < c < 2 ^ 53 -> F64.Round (exactFloat false c) = exactFloat false c.
Proof.
  intros Hc.
  destruct (canonMant_value c Hc) as (Ec & Rc & Dc).
  pose proof (Zdigits2_le_53 c Hc) as Lc.
  destruct (Zdigits2_bounds c ltac:(lia)) as [Hdc _].
  unfold exactFloat at 1. unfold F64.Round.
  destruct (0 <=? Zdigits2 c - 53) eqn:E; [reflexivity|].
  apply Z.leb_gt in E.
  cbn [cond_Zopp]. rewrite Ec.
  replace (- (Zdigits2 c - 53)) with (53 - Zdigits2 c) by lia.
  set (k := 53 - Zdigits2 c) in *.
  assert (0 < 2 ^ (k - 1)) as Hk1 by (apply Z.pow_pos_nonneg; lia).
  assert (2 ^ k = 2 * 2 ^ (k - 1)) as Ek.
  { rewrite <- Z.pow_succ_r by lia. f_equal. lia. }
  assert ((c * 2 ^ k + 2 ^ (k - 1)) / 2 ^ k = c) as ->.
  { rewrite Z.add_comm, Z.div_add by lia.
    rewrite Z.div_small by lia. lia. }
  apply of_Z_exact. exact Hc.
Qed.

Lemma to_uint64_exact {P : Platform} (c : Z) :
  0 < c < 2 ^ 53 -> F64.to_uint64 (exactFloat false c) = c.
Proof.
  intros Hc.
  destruct (canonMant_value c Hc) as (Ec & Rc & Dc).
  pose proof (Zdigits2_le_53 c Hc) as Lc.
  destruct (Zdigits2_bounds c ltac:(lia)) as [Hdc _].
  unfold F64.to_uint64, exactFloat, F64.trunc. cbn [cond_Zopp].
  rewrite Ec.
  assert ((if 0 <=? Zdigits2 c - 53
           then c * 2 ^ (53 - Zdigits2 c) * 2 ^ (Zdigits2 c - 53)
           else c * 2 ^ (53 - Zdigits2 c) / 2 ^ (- (Zdigits2 c - 53))) = c)
    as ->.
  { destruct (0 <=? Zdigits2 c - 53) eqn:E.
    - apply Z.leb_le in E. replace (Zdigits2 c) with 53 by lia.
      simpl. lia.
    - apply Z.leb_gt in E.
      replace (- (Zdigits2 c - 53)) with (53 - Zdigits2 c) by lia.
      apply Z.div_mul. apply Z.pow_nonzero; lia. }
  replace ((0 <=? c) && (c <? 2 ^ 64)) with true; [reflexivity|].
  symmetry. apply andb_true_iff. split; [apply Z.leb_le | apply Z.ltb_lt]; lia.
Qed.

(** When the new lot size divides the quantity of a rung, and that quantity
    is below 2^53, the float64 computation of its lots is exact. *)
Lemma roundedLots_exact {P : Platform} (p : OrderPlacement.t)
      (originalLotSize newLotSize c : Z) :
  0 < OrderPlacement.Lots p -> 0 < originalLotSize -> 0 < newLotSize ->
  OrderPlacement.Lots p * originalLotSize < 2 ^ 53 ->
  OrderPlacement.Lots p * originalLotSize = c * newLotSize ->
  roundedLots p originalLotSize newLotSize = c.
Proof.
  intros Hl Ho Hn Hb E.
  assert (0 < c) as Hc by nia.
  assert (c < 2 ^ 53) as Hc' by nia.
  unfold roundedLots.
  rewrite !of_Z_exact by nia.
  rewrite mul_exact by assumption.
  rewrite E, div_exact by lia.
  rewrite Round_exact by lia.
  apply to_uint64_exact. lia.
Qed.

Lemma sumQty_nonneg (placements : list OrderPlacement.t) (lotSize : Z) :
  Forall (fun p => 0 < OrderPlacement.Lots p) placements -> 0 <= lotSize ->
  0 <= sumQty placements lotSize.
Proof. intros H Hl. induction H; simpl; [lia | nia]. Qed.

Lemma sumQty_scaleLots (placements : list OrderPlacement.t) (k n : Z) :
  sumQty (map (scaleLots k) placements) n = sumQty placements (k * n).
Proof.
  induction placements as [|p ps IH]; simpl; [reflexivity|].
  rewrite IH. ring.
Qed.

Lemma map_scaleLots_1 (placements : list OrderPlacement.t) :
  map (scaleLots 1) placements = placements.
Proof.
  induction placements as [|[l g] ps IH]; simpl; [reflexivity|].
  rewrite IH. unfold scaleLots. simpl. rewrite Z.mul_1_r. reflexivity.
Qed.

Section UpdateLotSizeExact.
Context {P : Platform}.

Lemma totalQty_exact_from (placements : list OrderPlacement.t)
      (originalLotSize acc : Z) :
  Forall (fun p => 0 < OrderPlacement.Lots p) placements ->
  0 <= originalLotSize -> 0 <= acc ->
  acc + sumQty placements originalLotSize < 2 ^ 64 ->
  fold_left
    (fun qtyCounter p =>
       wrap64 (qtyCounter + wrap64 (OrderPlacement.Lots p * originalLotSize)))
    placements acc
  = acc + sumQty placements originalLotSize.
Proof.
  intros Hl Ho. revert acc. induction Hl as [|p ps Hp Hps IH]; intros acc Ha Hb.
  - simpl. lia.
  - simpl in *.
    pose proof (sumQty_nonneg ps originalLotSize Hps Ho) as Hs.
    assert (0 <= OrderPlacement.Lots p * originalLotSize) by nia.
    rewrite (wrap64_small (OrderPlacement.Lots p * originalLotSize)) by lia.
    rewrite (wrap64_small (acc + _)) by lia.
    rewrite IH by lia. ring.
Qed.

Lemma updateLotSize_loop_exact (placements : list OrderPlacement.t)
      (newLotSize k : Z) :
  0 < newLotSize -> 0 < k ->
  Forall (fun p => 0 < OrderPlacement.Lots p) placements ->
  sumQty placements (k * newLotSize) < 2 ^ 53 ->
  forall qtyCounter newPlacements,
    sumQty placements (k * newLotSize) <= qtyCounter < 2 ^ 64 ->
    updateLotSize_loop placements (k * newLotSize) newLotSize qtyCounter
                       newPlacements
    = Some (newPlacements ++ map (scaleLots k) placements).
Proof.
  intros Hn Hk Hl. induction Hl as [|p ps Hp Hps IH]; intros Hb q acc Hq.
  - simpl. rewrite app_nil_r. reflexivity.
  - simpl in Hb, Hq.
    assert (0 < k * newLotSize) as Ho by nia.
    pose proof (sumQty_nonneg ps (k * newLotSize) Hps ltac:(lia)) as Hs.
    assert (0 < OrderPlacement.Lots p * (k * newLotSize)) as Hpos by nia.
    assert (roundedLots p (k * newLotSize) newLotSize
            = OrderPlacement.Lots p * k) as ER.
    { apply roundedLots_exact; try assumption; [lia | ring]. }
    assert (0 < OrderPlacement.Lots p * k) as Hlk by nia.
    assert (OrderPlacement.Lots p * k <= q / newLotSize) as Hdiv.
    { apply Z.div_le_lower_bound; [lia|]. nia. }
    destruct (updateLotSize_loop_step p ps (k * newLotSize) newLotSize q acc
                Hn ltac:(lia)) as [_ Hkeep].
    destruct (Hkeep ltac:(nia)) as (_ & _ & ->).
    rewrite ER.
    replace (Z.min (Z.max (OrderPlacement.Lots p * k) 1) (q / newLotSize))
      with (OrderPlacement.Lots p * k) by lia.
    rewrite IH by nia.
    rewrite <- app_assoc. reflexivity.
Qed.

(** When the new lot size divides the original one, say
    [originalLotSize = k * newLotSize], and the ladder's quantity is below
    2^53 with at least one lot on every rung, [updateLotSize] multiplies the
    lots of every rung by [k]: no rung is dropped, no gap factor changes and
    the total quantity is the same. With equal lot sizes the ladder comes
    back as it is. *)
Theorem updateLotSize_divisible (placements : list OrderPlacement.t)
        (originalLotSize newLotSize k : uint64) :
  0 < newLotSize -> 0 < k -> originalLotSize = k * newLotSize ->
  Forall (fun p => 0 < OrderPlacement.Lots p) placements ->
  sumQty placements originalLotSize < 2 ^ 53 ->
  updateLotSize placements originalLotSize newLotSize
  = Some (map (scaleLots k) placements)
  /\ sumQty (map (scaleLots k) placements) newLotSize
     = sumQty placements originalLotSize
  /\ (k = 1 ->
      updateLotSize placements originalLotSize newLotSize = Some placements).
Proof.
  intros Hn Hk -> Hl Hb.
  assert (updateLotSize placements (k * newLotSize) newLotSize
          = Some (map (scaleLots k) placements)) as E.
  { unfold updateLotSize, totalQty.
    rewrite totalQty_exact_from by (assumption || lia).
    rewrite (updateLotSize_loop_exact placements newLotSize k Hn Hk Hl Hb).
    - reflexivity.
    - lia. }
  split; [exact E|]. split; [apply sumQty_scaleLots|].
  intros ->. rewrite E, map_scaleLots_1. reflexivity.
Qed.

End UpdateLotSizeExact.

Lemma updateLotSize_divisible_witness :
  @updateLotSize indefinite63
    [OrderPlacement.mk 3 gap1pc; OrderPlacement.mk 1 gap2pc] 30 10
  = Some (map (scaleLots 3)
              [OrderPlacement.mk 3 gap1pc; OrderPlacement.mk 1 gap2pc])
  /\ sumQty (map (scaleLots 3)
                 [OrderPlacement.mk 3 gap1pc; OrderPlacement.mk 1 gap2pc]) 10
     = sumQty [OrderPlacement.mk 3 gap1pc; OrderPlacement.mk 1 gap2pc] 30
  /\ (3 = 1 ->
      @updateLotSize indefinite63
        [OrderPlacement.mk 3 gap1pc; OrderPlacement.mk 1 gap2pc] 30 10
      = Some [OrderPlacement.mk 3 gap1pc; OrderPlacement.mk 1 gap2pc]).
Proof.
  apply (@updateLotSize_divisible indefinite63
           [OrderPlacement.mk 3 gap1pc; OrderPlacement.mk 1 gap2pc] 30 10 3).
  - lia.
  - lia.
  - reflexivity.
  - repeat constructor; simpl; lia.
  - simpl. lia.
Defined.

Section UpdateLotSizePrefix.
Context {P : Platform}.

(** Once less than one new lot is left, no later rung is kept. *)
Lemma updateLotSize_loop_exhausted (placements : list OrderPlacement.t)
      (originalLotSize newLotSize qtyCounter : uint64)
      (newPlacements : list OrderPlacement.t) :
  0 < newLotSize -> 0 <= qtyCounter < newLotSize -> qtyCounter < 2 ^ 64 ->
  updateLotSize_loop placements originalLotSize newLotSize qtyCounter
                     newPlacements
  = Some newPlacements.
Proof.
  intros Hn Hq Hq'. induction placements as [|p rest IH]; [reflexivity|].
  destruct (updateLotSize_loop_step p rest originalLotSize newLotSize
              qtyCounter newPlacements Hn ltac:(lia)) as [Hdrop _].
  rewrite (Hdrop ltac:(lia)). exact IH.
Qed.

Lemma updateLotSize_loop_prefix (placements : list OrderPlacement.t)
      (originalLotSize newLotSize : uint64) :
  0 < newLotSize ->
  forall (qtyCounter : uint64) (newPlacements : list OrderPlacement.t),
    0 <= qtyCounter < 2 ^ 64 ->
    exists out,
      updateLotSize_loop placements originalLotSize newLotSize qtyCounter
                         newPlacements
      = Some (newPlacements ++ out)
      /\ map OrderPlacement.GapFactor out
         = firstn (List.length out)
                  (map OrderPlacement.GapFactor placements).
Proof.
  intros Hn. induction placements as [|p rest IH]; intros q acc Hq.
  - exists []. simpl. rewrite app_nil_r. split; reflexivity.
  - destruct (Z.lt_ge_cases q newLotSize) as [Hlt|Hge].
    + exists []. rewrite app_nil_r. split; [|reflexivity].
      apply updateLotSize_loop_exhausted; lia.
    + destruct (updateLotSize_loop_step p rest originalLotSize newLotSize q
                  acc Hn Hq) as [_ Hkeep].
      destruct (Hkeep Hge) as (H1 & Hm & ->).
      set (lots := Z.min (Z.max (roundedLots p originalLotSize newLotSize) 1)
                         (q / newLotSize)) in *.
      destruct (IH (q - lots * newLotSize)
                   (acc ++ [OrderPlacement.mk lots (OrderPlacement.GapFactor p)])
                   ltac:(nia)) as (out & E & Hpre).
      exists (OrderPlacement.mk lots (OrderPlacement.GapFactor p) :: out).
      rewrite E, <- app_assoc. split; [reflexivity|].
      simpl. rewrite Hpre at 1. reflexivity.
Qed.

(** The rungs [updateLotSize] keeps are the first rungs of the ladder: the
    quantity still to allocate never grows, so once a rung is dropped every
    later rung is dropped too. The gap factors of the result are a prefix of
    those of the given ladder. *)
Theorem updateLotSize_keeps_prefix (placements : list OrderPlacement.t)
        (originalLotSize newLotSize : uint64) :
  0 < newLotSize ->
  exists out,
    updateLotSize placements originalLotSize newLotSize = Some out
    /\ map OrderPlacement.GapFactor out
       = firstn (List.length out) (map OrderPlacement.GapFactor placements).
Proof.
  intros Hn. unfold updateLotSize.
  assert (0 <= totalQty placements originalLotSize < 2 ^ 64) as Hq.
  { unfold totalQty.
    assert (forall ps acc, 0 <= acc < 2 ^ 64 ->
              0 <= fold_left
                     (fun qtyCounter p =>
                        wrap64 (qtyCounter
                                + wrap64 (OrderPlacement.Lots p
                                          * originalLotSize)))
                     ps acc < 2 ^ 64) as G.
    { induction ps as [|p ps IH]; intros acc Ha; simpl; [exact Ha|].
      apply IH. apply wrap64_range. }
    apply G. lia. }
  destruct (updateLotSize_loop_prefix placements originalLotSize newLotSize
              Hn _ [] Hq) as (out & E & Hpre).
  exists out. rewrite E. split; [reflexivity | exact Hpre].
Qed.

End UpdateLotSizePrefix.

Lemma updateLotSize_keeps_prefix_witness :
  exists out,
    @updateLotSize indefinite63
      [OrderPlacement.mk 2 gap1pc; OrderPlacement.mk 1 gap2pc] 10 30
    = Some out
    /\ map OrderPlacement.GapFactor out
       = firstn (List.length out) [gap1pc; gap2pc].
Proof.
  apply (@updateLotSize_keeps_prefix indefinite63
           [OrderPlacement.mk 2 gap1pc; OrderPlacement.mk 1 gap2pc] 10 30).
  lia.
Defined.

(** ** halfSpread and the two sides of orderPrice *)

Lemma to_uint64_range {P : Platform} (x : float64) :
  0 <= F64.to_uint64 x < 2 ^ 64.
Proof.
  unfold F64.to_uint64.
  destruct (F64.trunc x) as [n|]; [|apply wrap64_range].
  destruct ((0 <=? n) && (n <? 2 ^ 64)) eqn:E; [|apply wrap64_range].
  apply andb_true_iff in E. destruct E as [E1 E2].
  apply Z.leb_le in E1. apply Z.ltb_lt in E2. lia.
Qed.

Lemma half_of_wrapped_double (h : Z) : wrap64 (h * 2) / 2 = h mod 2 ^ 63.
Proof.
  unfold wrap64.
  replace (2 ^ 64) with (2 ^ 63 * 2) by reflexivity.
  rewrite Z.mul_mod_distr_r by lia.
  apply Z.div_mul. lia.
Qed.

Section HalfSpreadProps.
Context {P : Platform} {K : calc.Constants}.

(** [halfSpread] fails exactly as [feeGapStats] does: on a zero basis price,
    or when a fee lookup fails (the sell fees are asked first), with the same
    error. Otherwise it returns half of the fee gap, which is the break-even
    half gap [halfGap] that [feeGapStats] doubled, reduced modulo 2^63 (the
    doubling is a uint64 product): [halfGap] itself whenever that is below
    2^63. This is the fee adjustment the planner computes for itself in
    [ordersToPlace] when the strategy asks for the break-even half spread. *)
Theorem halfSpread_cases (b : basicMMCalculatorImpl.t) (basisPrice : uint64) :
  let fees sell :=
    OrderFeesInUnits (basicMMCalculatorImpl.core b) sell true basisPrice in
  let l := lotSize (basicMMCalculatorImpl.mkt b) in
  (forall err,
      basicMMCalculatorImpl.halfSpread b basisPrice = Err err
      <-> basicMMCalculatorImpl.feeGapStats b basisPrice = Err err)
  /\ (basisPrice = 0 ->
      basicMMCalculatorImpl.halfSpread b basisPrice
      = Err (New "basis price cannot be zero"))
  /\ (basisPrice <> 0 -> forall err, fees true = Err err ->
      basicMMCalculatorImpl.halfSpread b basisPrice
      = Err (Wrap "error getting sell fees in base units" err))
  /\ (basisPrice <> 0 -> forall sellFees err,
      fees true = Ok sellFees -> fees false = Err err ->
      basicMMCalculatorImpl.halfSpread b basisPrice
      = Err (Wrap "error getting buy fees in base units" err))
  /\ (basisPrice <> 0 -> forall sellFees buyFees,
      fees true = Ok sellFees -> fees false = Ok buyFees ->
      let h :=
        basicMMCalculatorImpl.halfGap
          basisPrice (wrap64 (sellFees + buyFees)) l in
      basicMMCalculatorImpl.halfSpread b basisPrice = Ok (h mod 2 ^ 63)
      /\ (h < 2 ^ 63 -> basicMMCalculatorImpl.halfSpread b basisPrice = Ok h)
      /\ forall (m : basicMarketMaker) (s : botState),
           calculator m = basicMMCalculatorImpl.calculator b ->
           basicMMCalculatorImpl.basisPrice b = Ok basisPrice ->
           needBreakEvenHalfSpread
             (BasicMarketMakingConfig.GapStrategy (cfg m)) = true ->
           fst (ordersToPlace m s)
           = Ok (orders m basisPrice (h mod 2 ^ 63)
                        (BasicMarketMakingConfig.BuyPlacements (cfg m)) false,
                 orders m basisPrice (h mod 2 ^ 63)
                        (BasicMarketMakingConfig.SellPlacements (cfg m)) true)).
Proof.
  intros fees l.
  unfold basicMMCalculatorImpl.halfSpread.
  repeat match goal with |- _ /\ _ => split end.
  - intros err.
    destruct (basicMMCalculatorImpl.feeGapStats b basisPrice) as [st|e].
    + split; discriminate.
    + unfold Err. split; intros [= ->]; reflexivity.
  - intros ->. reflexivity.
  - intros Hbp err Hs. unfold basicMMCalculatorImpl.feeGapStats.
    destruct (Z.eqb_spec basisPrice 0) as [H0|_]; [contradiction|].
    unfold fees in Hs. rewrite Hs. reflexivity.
  - intros Hbp sellFees err Hs Hb. unfold basicMMCalculatorImpl.feeGapStats.
    destruct (Z.eqb_spec basisPrice 0) as [H0|_]; [contradiction|].
    unfold fees in Hs, Hb. rewrite Hs, Hb. reflexivity.
  - intros Hbp sellFees buyFees Hs Hb.
    set (h := basicMMCalculatorImpl.halfGap
                basisPrice (wrap64 (sellFees + buyFees)) l).
    assert (basicMMCalculatorImpl.feeGapStats b basisPrice
            = Ok (FeeGapStats.mk basisPrice 0 (wrap64 (h * 2))
                                 (wrap64 (sellFees + buyFees)))) as E.
    { unfold basicMMCalculatorImpl.feeGapStats.
      destruct (Z.eqb_spec basisPrice 0) as [H0|_]; [contradiction|].
      unfold fees in Hs, Hb. rewrite Hs, Hb. reflexivity. }
    rewrite E. unfold Ok. cbn [FeeGapStats.FeeGap].
    rewrite half_of_wrapped_double.
    split; [reflexivity|]. split.
    + intros Hh. rewrite Z.mod_small; [reflexivity|].
      split; [apply to_uint64_range | exact Hh].
    + intros m s Hc Hbasis Hneed.
      unfold ordersToPlace, bind, call, ret. rewrite Hc, Hneed.
      cbn [basicMMCalculatorImpl.calculator basicMMCalculator.basisPrice
           basicMMCalculator.feeGapStats fst snd].
      rewrite Hbasis. cbn [Ok fst snd]. rewrite E. cbn [Ok fst snd].
      cbn [FeeGapStats.FeeGap]. rewrite half_of_wrapped_double. reflexivity.
Qed.

End HalfSpreadProps.

Section OrderPriceProps.
Context {P : Platform}.
Variable m : basicMarketMaker.

(** For one gap factor the buy rate and the sell rate lie at the same
    non-negative offset on either side of the basis price, the buy rate
    stopping at zero and the sell rate being a uint64 sum. So a buy rate is
    never above the basis price and, short of overflow, a sell rate never
    below it: the two sides of a ladder do not cross. *)
Theorem orderPrice_no_cross (basisPrice feeAdj : uint64)
        (gapFactor : float64) :
  0 <= basisPrice -> 0 <= rateStep (mmMarket m) ->
  exists adj,
    0 <= adj
    /\ orderPrice m basisPrice feeAdj true gapFactor
       = wrap64 (basisPrice + adj)
    /\ orderPrice m basisPrice feeAdj false gapFactor
       = Z.max 0 (basisPrice - adj)
    /\ (basisPrice + adj < 2 ^ 64 ->
        orderPrice m basisPrice feeAdj false gapFactor <= basisPrice
        /\ basisPrice <= orderPrice m basisPrice feeAdj true gapFactor
        /\ (adj <= basisPrice ->
            orderPrice m basisPrice feeAdj true gapFactor - basisPrice
            = basisPrice - orderPrice m basisPrice feeAdj false gapFactor)).
Proof.
  intros Hbp Hstep. unfold orderPrice.
  match goal with |- context [basisPrice <? ?a] => set (adj := a) end.
  assert (0 <= adj) as Ha by (apply steppedRate_nonneg; exact Hstep).
  exists adj. split; [exact Ha|]. split; [reflexivity|].
  cbv beta iota.
  destruct (Z.ltb_spec basisPrice adj) as [Hlt|Hge].
  - split; [lia|]. intros Hfit. rewrite wrap64_small by lia. lia.
  - split; [lia|]. intros Hfit. rewrite wrap64_small by lia. lia.
Qed.

End OrderPriceProps.

Lemma orderPrice_no_cross_witness :
  exists adj,
    0 <= adj
    /\ @orderPrice indefinite63 (sampleMaker GapStrategyPercent 1 500000 true)
         500000 0 true gap1pc
       = wrap64 (500000 + adj)
    /\ @orderPrice indefinite63 (sampleMaker GapStrategyPercent 1 500000 true)
         500000 0 false gap1pc
       = Z.max 0 (500000 - adj).
Proof.
  destruct (@orderPrice_no_cross indefinite63
              (sampleMaker GapStrategyPercent 1 500000 true) 500000 0 gap1pc
              ltac:(lia) ltac:(simpl; lia)) as (adj & H0 & H1 & H2 & _).
  exists adj. repeat split; assumption.
Defined.

(** ** botLoop *)

Lemma checkedEpochs_app (l1 l2 : list Call) :
  checkedEpochs (l1 ++ l2) = checkedEpochs l1 ++ checkedEpochs l2.
Proof.
  induction l1 as [|c l1 IH]; simpl; [reflexivity|].
  destruct c; simpl; rewrite IH; reflexivity.
Qed.

Lemma checkedEpochs_planner (l : list Call) :
  Forall plannerCall l -> checkedEpochs l = [].
Proof.
  induction 1 as [|c l Hc _ IH]; simpl; [reflexivity|].
  destruct Hc; exact IH.
Qed.

Section BotLoopProps.
Context {P : Platform} {K : calc.Constants}.

(** The body of [rebalance] adds one health check, first of all. *)
Lemma rebalance_body_checks (m : basicMarketMaker) (newEpoch : uint64)
      (s : botState) :
  exists l,
    calls (snd (rebalance_body m newEpoch s)) = calls s ++ l
    /\ checkedEpochs l = [newEpoch].
Proof.
  destruct (checkBotHealth m newEpoch) eqn:H.
  - set (s0 := {| rebalanceRunning := rebalanceRunning s;
                  calls := calls s ++ [CallCheckBotHealth newEpoch] |}).
    destruct (ordersToPlace_state m s0) as (l & El & Hl & _).
    destruct (ordersToPlace m s0) as [[[buys sells]|err] s1] eqn:E;
      simpl in El; subst s1.
    + rewrite (rebalance_body_placed m newEpoch s _ buys sells H E).
      eexists. split.
      * simpl. rewrite <- !app_assoc. reflexivity.
      * simpl. rewrite checkedEpochs_app, (checkedEpochs_planner l Hl).
        reflexivity.
    + rewrite (rebalance_body_failed m newEpoch s _ err H E).
      eexists. split.
      * simpl. rewrite <- !app_assoc. reflexivity.
      * simpl. rewrite checkedEpochs_app, (checkedEpochs_planner l Hl).
        reflexivity.
  - rewrite (rebalance_body_unhealthy m newEpoch s H).
    eexists. split; reflexivity.
Qed.

Lemma botLoop_goroutine_run (m : basicMarketMaker)
      (received : list selected) (s : botState) :
  rebalanceRunning s = false ->
  fst (botLoop_goroutine m received s) = stopOf received
  /\ rebalanceRunning (snd (botLoop_goroutine m received s)) = false
  /\ exists l,
       calls (snd (botLoop_goroutine m received s)) = calls s ++ l
       /\ checkedEpochs l = resolvedBeforeStop received.
Proof.
  revert s. induction received as [|ev rest IH]; intros s Hs.
  - simpl. repeat split; [exact Hs|]. exists []. rewrite app_nil_r.
    split; reflexivity.
  - destruct ev as [[current|]| |].
    + cbn [botLoop_goroutine stopOf resolvedBeforeStop]. unfold bind.
      rewrite (rebalance_acquires m current s Hs).
      destruct (rebalance_body_checks m current
                  {| rebalanceRunning := true; calls := calls s |})
        as (l1 & E1 & C1).
      simpl in E1. rewrite E1.
      destruct (IH {| rebalanceRunning := false; calls := calls s ++ l1 |}
                   eq_refl) as (Hend & Hflag & l2 & E2 & C2).
      split; [exact Hend|]. split; [exact Hflag|].
      exists (l1 ++ l2). rewrite E2. simpl.
      rewrite app_assoc, checkedEpochs_app, C1, C2. split; reflexivity.
    + cbn [botLoop_goroutine stopOf resolvedBeforeStop]. apply IH. exact Hs.
    + simpl. repeat split; [exact Hs|]. exists []. rewrite app_nil_r.
      split; reflexivity.
    + simpl. repeat split; [exact Hs|]. exists []. rewrite app_nil_r.
      split; reflexivity.
Qed.

(** The goroutine of [botLoop] handles every resolved epoch it receives, in
    the order received, until the feed is closed or the context is done:
    started with the flag clear, it runs the body of [rebalance] for each of
    them (one health check per epoch, none skipped, none after the stop),
    leaves the flag clear, and calls [m.kill()] exactly when it stops on a
    closed feed. When [SyncBook] fails no goroutine is started. *)
Theorem botLoop_handles_every_epoch (m : basicMarketMaker) (orcl : oracle)
        (core : botCoreAdaptor) (received : list selected) (s : botState) :
  rebalanceRunning s = false ->
  (forall err,
      botLoop m orcl core (Err err) received
      = Err (New ("failed to sync book: " ++ errorString err)))
  /\ exists run,
       botLoop m orcl core (Ok tt) received = Ok run
       /\ fst (run s) = stopOf received
       /\ rebalanceRunning (snd (run s)) = false
       /\ exists l,
            calls (snd (run s)) = calls s ++ l
            /\ checkedEpochs l = resolvedBeforeStop received.
Proof.
  intros Hs. split; [reflexivity|].
  eexists. split; [reflexivity|].
  apply botLoop_goroutine_run. exact Hs.
Qed.

End BotLoopProps.

Lemma botLoop_handles_every_epoch_witness :
  exists run,
    @botLoop indefinite63 sampleConstants
      (sampleMaker GapStrategyPercent 1 500000 true)
      {| getMarketPrice := fun _ _ => F64.zero |}
      {| ExchangeRateFromFiatSources := 500000;
         OrderFeesInUnits := fun _ _ _ => Ok 1 |}
      (Ok tt)
      [Notification (Some 7); Notification None; Notification (Some 8);
       FeedClosed; Notification (Some 9)]
    = Ok run
    /\ fst (run idleBot) = Killed
    /\ rebalanceRunning (snd (run idleBot)) = false
    /\ exists l,
         calls (snd (run idleBot)) = calls idleBot ++ l
         /\ checkedEpochs l = [7; 8].
Proof.
  apply (@botLoop_handles_every_epoch indefinite63 sampleConstants
           (sampleMaker GapStrategyPercent 1 500000 true)
           {| getMarketPrice := fun _ _ => F64.zero |}
           {| ExchangeRateFromFiatSources := 500000;
              OrderFeesInUnits := fun _ _ _ => Ok 1 |}
           [Notification (Some 7); Notification None; Notification (Some 8);
            FeedClosed; Notification (Some 9)]
           idleBot).
  reflexivity.
Defined.

(** ** token and the amounts locked in orders *)

Lemma hex_byte_decode (v : Byte.byte) :
  match unhex (hex.high v), unhex (hex.low v) with
  | Some hi, Some lo => Byte.of_N (16 * hi + lo) = Some v
  | _, _ => False
  end.
Proof. destruct v; vm_compute; reflexivity. Qed.

Lemma EncodeToString_inj (a b : core.bytes) :
  hex.EncodeToString a = hex.EncodeToString b -> a = b.
Proof.
  revert b. induction a as [|x a IH]; intros [|y b] H;
    cbn [hex.EncodeToString] in H; try discriminate; [reflexivity|].
  injection H as H1 H2 H3.
  pose proof (hex_byte_decode x) as Dx. pose proof (hex_byte_decode y) as Dy.
  rewrite H1, H2 in Dx.
  destruct (unhex _) as [hi|]; [|contradiction].
  destruct (unhex _) as [lo|]; [|contradiction].
  f_equal; [congruence | apply IH; exact H3].
Qed.

Lemma EncodeToString_length (a : core.bytes) :
  String.length (hex.EncodeToString a) = (2 * List.length a)%nat.
Proof. induction a as [|x a IH]; simpl; [reflexivity|]. rewrite IH. lia. Qed.

(** [token] is empty exactly for an ID of fewer than four bytes; otherwise
    it has eight characters, and two IDs have the same token exactly when
    their first four bytes are the same. *)
Theorem token_first_four (id id' : core.bytes) :
  (token id = EmptyString <-> (List.length id < 4)%nat)
  /\ ((4 <= List.length id)%nat -> String.length (token id) = 8%nat)
  /\ ((4 <= List.length id)%nat -> (4 <= List.length id')%nat ->
      (token id = token id' <-> firstn 4 id = firstn 4 id')).
Proof.
  unfold token.
  repeat match goal with |- _ /\ _ => split end.
  - destruct (Nat.ltb_spec (List.length id) 4) as [H|H].
    + split; [intros _; exact H | reflexivity].
    + split; [|lia].
      intros E. apply (f_equal String.length) in E.
      rewrite EncodeToString_length, length_firstn in E.
      cbn [String.length] in E. lia.
  - intros H.
    destruct (Nat.ltb_spec (List.length id) 4) as [H'|_]; [lia|].
    rewrite EncodeToString_length, length_firstn. lia.
  - intros H H'.
    destruct (Nat.ltb_spec (List.length id) 4) as [H1|_]; [lia|].
    destruct (Nat.ltb_spec (List.length id') 4) as [H1|_]; [lia|].
    split; [apply EncodeToString_inj | intros ->; reflexivity].
Qed.

Lemma wrap64_add_l (a b : Z) : wrap64 (wrap64 a + b) = wrap64 (a + b).
Proof. unfold wrap64. apply Z.add_mod_idemp_l. lia. Qed.

Lemma sideOrderLocked_from (orders : list Order.t) (sell : bool) (acc : Z) :
  wrap64
    (fold_left
       (fun amt ord =>
          if negb (Bool.eqb (Order.Sell ord) sell) then amt
          else wrap64 (amt + Order.LockedAmt ord))
       orders acc)
  = wrap64 (acc + totalLocked
                    (filter (fun ord => Bool.eqb (Order.Sell ord) sell)
                            orders)).
Proof.
  revert acc. induction orders as [|ord orders IH]; intros acc; simpl.
  - f_equal. lia.
  - destruct (Bool.eqb (Order.Sell ord) sell); simpl.
    + rewrite IH, wrap64_add_l. f_equal. lia.
    + apply IH.
Qed.

Lemma sideOrderLocked_range (m : Market.t) (sell : bool) :
  0 <= Market.sideOrderLocked m sell < 2 ^ 64.
Proof.
  unfold Market.sideOrderLocked.
  assert (forall ords acc, 0 <= acc < 2 ^ 64 ->
            0 <= fold_left
                   (fun amt ord =>
                      if negb (Bool.eqb (Order.Sell ord) sell) then amt
                      else wrap64 (amt + Order.LockedAmt ord))
                   ords acc < 2 ^ 64) as G.
  { induction ords as [|ord ords IH]; intros acc Ha; simpl; [exact Ha|].
    apply IH. destruct (negb _); [exact Ha | apply wrap64_range]. }
  apply G. lia.
Qed.

Lemma totalLocked_split (orders : list Order.t) :
  totalLocked (filter (fun ord => Bool.eqb (Order.Sell ord) true) orders)
  + totalLocked (filter (fun ord => Bool.eqb (Order.Sell ord) false) orders)
  = totalLocked orders.
Proof.
  induction orders as [|ord orders IH]; simpl; [reflexivity|].
  destruct (Order.Sell ord); simpl; lia.
Qed.

Lemma totalLocked_nonneg (orders : list Order.t) :
  Forall (fun ord => 0 <= Order.LockedAmt ord) orders ->
  0 <= totalLocked orders.
Proof. induction 1; simpl; lia. Qed.

Lemma Forall_filter_keep {A : Type} (Q : A -> Prop) (f : A -> bool) (l : list A) :
  Forall Q l -> Forall Q (filter f l).
Proof.
  induction 1 as [|x l Hx _ IH]; simpl; [constructor|].
  destruct (f x); [constructor; assumption | assumption].
Qed.

(** Every order is counted on exactly one side: the base and the quote
    amounts locked in orders add up, as uint64 values, to the sum of the
    [LockedAmt] of all orders of the market; and when that sum fits in a
    uint64 each side is the exact sum over its own orders. *)
Theorem orderLocked_partition (m : Market.t) :
  wrap64 (Market.BaseOrderLocked m + Market.QuoteOrderLocked m)
  = wrap64 (totalLocked (Market.Orders m))
  /\ (Forall (fun ord => 0 <= Order.LockedAmt ord) (Market.Orders m) ->
      totalLocked (Market.Orders m) < 2 ^ 64 ->
      Market.BaseOrderLocked m
      = totalLocked (filter Order.Sell (Market.Orders m))
      /\ Market.QuoteOrderLocked m
         = totalLocked (filter (fun ord => negb (Order.Sell ord))
                               (Market.Orders m))
      /\ Market.BaseOrderLocked m + Market.QuoteOrderLocked m
         = totalLocked (Market.Orders m)).
Proof.
  pose proof (sideOrderLocked_range m true) as Rb.
  pose proof (sideOrderLocked_range m false) as Rq.
  pose proof (sideOrderLocked_from (Market.Orders m) true 0) as Eb.
  pose proof (sideOrderLocked_from (Market.Orders m) false 0) as Eq.
  pose proof (totalLocked_split (Market.Orders m)) as Es.
  fold (Market.sideOrderLocked m true) in Eb.
  fold (Market.sideOrderLocked m false) in Eq.
  rewrite wrap64_small in Eb, Eq by assumption.
  unfold Market.BaseOrderLocked, Market.QuoteOrderLocked.
  simpl in Eb, Eq.
  split.
  - rewrite Eb, Eq, <- Es. unfold wrap64.
    rewrite <- Z.add_mod by lia. reflexivity.
  - intros Hall Hfit.
    pose proof (totalLocked_nonneg _
                  (Forall_filter_keep _ (fun ord => Bool.eqb (Order.Sell ord) true)
                                 _ Hall)) as Nb.
    pose proof (totalLocked_nonneg _
                  (Forall_filter_keep _ (fun ord => Bool.eqb (Order.Sell ord) false)
                                 _ Hall)) as Nq.
    rewrite wrap64_small in Eb, Eq by lia.
    assert (filter Order.Sell (Market.Orders m)
            = filter (fun ord => Bool.eqb (Order.Sell ord) true)
                     (Market.Orders m)) as F1.
    { apply filter_ext. intros ord. destruct (Order.Sell ord); reflexivity. }
    assert (filter (fun ord => negb (Order.Sell ord)) (Market.Orders m)
            = filter (fun ord => Bool.eqb (Order.Sell ord) false)
                     (Market.Orders m)) as F2.
    { apply filter_ext. intros ord. destruct (Order.Sell ord); reflexivity. }
    rewrite F1, F2. repeat split; lia.
Qed.

(** ** setupCryptoV2 and unlock *)

Lemma byteZ_range (v : Byte.byte) : 0 <= byteZ v < 256.
Proof.
  unfold byteZ. pose proof (Byte.to_N_bounded v) as H. lia.
Qed.

Lemma lor_shiftl_add (a b k : Z) :
  0 <= k -> 0 <= a < 2 ^ k -> 0 <= b ->
  Z.lor a (Z.shiftl b k) = a + b * 2 ^ k.
Proof.
  intros Hk Ha Hb.
  pose proof (Z.add_lor_land a (Z.shiftl b k)) as E.
  assert (Z.land a (Z.shiftl b k) = 0) as L.
  { apply Z.bits_inj'. intros n Hn.
    rewrite Z.land_spec, Z.bits_0.
    destruct (Z.lt_ge_cases n k) as [Hlt|Hge].
    - rewrite Z.shiftl_spec_low by exact Hlt. apply andb_false_r.
    - destruct (Z.eq_dec a 0) as [->|Hne]; [rewrite Z.bits_0; reflexivity|].
      rewrite (Z.bits_above_log2 a n); [reflexivity | lia |].
      apply Z.log2_lt_pow2; [lia|].
      assert (2 ^ k <= 2 ^ n) by (apply Z.pow_le_mono_r; lia). lia. }
  rewrite L in E. rewrite Z.shiftl_mul_pow2 in * by exact Hk. lia.
Qed.

Lemma Uint32_bytes (b0 b1 b2 b3 : Byte.byte) :
  Z.lor (Z.lor (Z.lor (byteZ b0) (Z.shiftl (byteZ b1) 8))
               (Z.shiftl (byteZ b2) 16))
        (Z.shiftl (byteZ b3) 24)
  = byteZ b0 + byteZ b1 * 2 ^ 8 + byteZ b2 * 2 ^ 16 + byteZ b3 * 2 ^ 24.
Proof.
  pose proof (byteZ_range b0). pose proof (byteZ_range b1).
  pose proof (byteZ_range b2). pose proof (byteZ_range b3).
  rewrite (lor_shiftl_add (byteZ b0) (byteZ b1) 8) by lia.
  rewrite (lor_shiftl_add _ (byteZ b2) 16) by lia.
  rewrite (lor_shiftl_add _ (byteZ b3) 24) by lia.
  reflexivity.
Qed.

Lemma harden_range (kid : Z) : 2 ^ 31 <= harden kid < 2 ^ 32.
Proof.
  unfold harden, wrap32, hdkeychain.HardenedKeyStart.
  Z.div_mod_to_equations. lia.
Qed.

Lemma harden_word (a b c d a' b' c' d' : Z) :
  0 <= a < 256 -> 0 <= b < 256 -> 0 <= c < 256 -> 0 <= d < 256 ->
  0 <= a' < 256 -> 0 <= b' < 256 -> 0 <= c' < 256 -> 0 <= d' < 256 ->
  (harden (a + b * 2 ^ 8 + c * 2 ^ 16 + d * 2 ^ 24)
   = harden (a' + b' * 2 ^ 8 + c' * 2 ^ 16 + d' * 2 ^ 24)
   <-> a = a' /\ b = b' /\ c = c' /\ d mod 128 = d' mod 128).
Proof.
  intros. unfold harden, wrap32, hdkeychain.HardenedKeyStart.
  split.
  - intros E. Z.div_mod_to_equations. lia.
  - intros (-> & -> & -> & E). Z.div_mod_to_equations. lia.
Qed.

Lemma harden_small (x y : Z) :
  0 <= x < 2 ^ 31 -> 0 <= y < 2 ^ 31 -> (harden x = harden y <-> x = y).
Proof.
  intros. unfold harden, wrap32, hdkeychain.HardenedKeyStart.
  split; [|intros ->; reflexivity].
  intros E. Z.div_mod_to_equations. lia.
Qed.

Lemma chunkKids_some (byteSeq : core.bytes) (n i : nat)
      (kids : list uint32) :
  ((i + n) * 4 <= List.length byteSeq)%nat ->
  exists words,
    dexAccount.chunkKids byteSeq i n kids = Some (kids ++ words)
    /\ List.length words = n.
Proof.
  revert i kids. induction n as [|n IH]; intros i kids Hlen.
  - exists []. simpl. rewrite app_nil_r. split; reflexivity.
  - cbn [dexAccount.chunkKids]. unfold slice.
    replace ((i * 4 <=? i * 4 + 4)%nat) with true
      by (symmetry; apply Nat.leb_le; lia).
    replace ((i * 4 + 4 <=? List.length byteSeq)%nat) with true
      by (symmetry; apply Nat.leb_le; lia).
    cbn [andb].
    replace (i * 4 + 4 - i * 4)%nat with 4%nat by lia.
    assert (List.length (firstn 4 (skipn (i * 4) byteSeq)) = 4%nat) as L.
    { rewrite length_firstn, length_skipn. lia. }
    destruct (firstn 4 (skipn (i * 4) byteSeq))
      as [|b0 [|b1 [|b2 [|b3 [|b4 rest]]]]]; try discriminate L.
    cbn [binary.Uint32].
    edestruct (IH (S i)) as (words & E & Lw); [lia|].
    rewrite E, <- app_assoc. eexists. split; [reflexivity|].
    simpl. rewrite Lw. reflexivity.
Qed.

Lemma kids_hardened_aux (dexPkB : core.bytes) (keyIndex : uint32) :
  List.length dexPkB = 33%nat ->
  exists kids,
    dexAccount.kids dexPkB keyIndex = Some kids
    /\ List.length kids = 11%nat
    /\ Forall (fun kid => hdkeychain.HardenedKeyStart <= kid < 2 ^ 32) kids.
Proof.
  intros Hlen. unfold dexAccount.kids.
  destruct dexPkB as [|v byteSeq]; [discriminate|].
  simpl in Hlen.
  destruct (chunkKids_some byteSeq 8 0 ([hdKeyPurposeAccts] ++ [byteZ v])
              ltac:(lia)) as (words & -> & Lw).
  eexists. split; [reflexivity|]. split.
  - rewrite length_map, !length_app, Lw. reflexivity.
  - apply Forall_forall. intros kid Hin. apply in_map_iff in Hin.
    destruct Hin as (x & <- & _). apply harden_range.
Qed.

(** For a public key of 33 bytes the chain of child indices is there (no
    index expression is out of range), has eleven indices, all hardened
    (at least 2^31, below 2^32), begins with the purpose [hdKeyPurposeAccts]
    and ends, for a key index below 2^31, with the key index plus 2^31. *)
Theorem kids_hardened (dexPkB : core.bytes) (keyIndex : uint32) :
  List.length dexPkB = 33%nat ->
  exists kids,
    dexAccount.kids dexPkB keyIndex = Some kids
    /\ List.length kids = 11%nat
    /\ Forall (fun kid => hdkeychain.HardenedKeyStart <= kid < 2 ^ 32) kids
    /\ hd_error kids = Some hdKeyPurposeAccts
    /\ (0 <= keyIndex < hdkeychain.HardenedKeyStart ->
        last kids 0 = keyIndex + hdkeychain.HardenedKeyStart).
Proof.
  intros Hlen. unfold dexAccount.kids.
  destruct dexPkB as [|v byteSeq]; [discriminate|].
  simpl in Hlen.
  destruct (chunkKids_some byteSeq 8 0 ([hdKeyPurposeAccts] ++ [byteZ v])
              ltac:(lia)) as (words & -> & Lw).
  eexists. split; [reflexivity|].
  fold harden. change (fun kid : uint32 => _) with harden.
  repeat match goal with |- _ /\ _ => split end.
  - rewrite length_map, !length_app, Lw. reflexivity.
  - apply Forall_forall. intros kid Hin. apply in_map_iff in Hin.
    destruct Hin as (x & <- & _). apply harden_range.
  - reflexivity.
  - intros Hk. rewrite map_app. cbn [map]. rewrite last_last.
    unfold harden, wrap32, hdkeychain.HardenedKeyStart in *.
    Z.div_mod_to_equations. lia.
Qed.

Lemma kids_hardened_witness :
  exists kids,
    dexAccount.kids samplePubKey 5 = Some kids
    /\ List.length kids = 11%nat
    /\ Forall (fun kid => hdkeychain.HardenedKeyStart <= kid < 2 ^ 32) kids
    /\ hd_error kids = Some hdKeyPurposeAccts
    /\ (0 <= 5 < hdkeychain.HardenedKeyStart ->
        last kids 0 = 5 + hdkeychain.HardenedKeyStart).
Proof. apply (kids_hardened samplePubKey 5). reflexivity. Defined.

Ltac explicit_bytes l H :=
  do 33 (destruct l as [|? l]; [discriminate H|]);
  destruct l; [clear H | discriminate H].

Lemma cons_eq_iff {A : Type} (x y : A) (l l' : list A) :
  x :: l = y :: l' <-> x = y /\ l = l'.
Proof.
  split; [intros E; injection E; auto | intros [-> ->]; reflexivity].
Qed.

Lemma Some_eq_iff {A : Type} (x y : A) : Some x = Some y <-> x = y.
Proof. split; [intros [= ->] | intros ->]; reflexivity. Qed.

Lemma harden_byte (x y : Byte.byte) :
  harden (byteZ x) = harden (byteZ y) <-> byteZ x = byteZ y.
Proof.
  pose proof (byteZ_range x). pose proof (byteZ_range y).
  apply harden_small; lia.
Qed.

(** Two public keys of 33 bytes and two key indices below 2^31 give the same
    chain of child indices exactly when the key indices are the same and the
    public keys differ at most in the top bit of bytes 4, 8, ..., 32: the
    reduction of every 4-byte word modulo 2^31 drops that bit, so 256 public
    keys share each chain. *)
Theorem kids_same_iff (dexPkB dexPkB' : core.bytes)
        (keyIndex keyIndex' : uint32) :
  List.length dexPkB = 33%nat -> List.length dexPkB' = 33%nat ->
  0 <= keyIndex < hdkeychain.HardenedKeyStart ->
  0 <= keyIndex' < hdkeychain.HardenedKeyStart ->
  (dexAccount.kids dexPkB keyIndex = dexAccount.kids dexPkB' keyIndex'
   <-> keyIndex = keyIndex' /\ pathBytes dexPkB = pathBytes dexPkB').
Proof.
  intros Hlen Hlen' Hk Hk'.
  explicit_bytes dexPkB Hlen. explicit_bytes dexPkB' Hlen'.
  unfold dexAccount.kids, pathBytes.
  cbn [dexAccount.chunkKids slice List.length Nat.leb Nat.mul Nat.add Nat.sub
       firstn skipn andb binary.Uint32 app map pathWords].
  rewrite !Uint32_bytes.
  repeat match goal with
  | |- context [wrap32 (?x mod hdkeychain.HardenedKeyStart
                        + hdkeychain.HardenedKeyStart)] =>
      change (wrap32 (x mod hdkeychain.HardenedKeyStart
                      + hdkeychain.HardenedKeyStart)) with (harden x)
  end.
  rewrite Some_eq_iff, !cons_eq_iff, !harden_byte.
  rewrite (harden_small keyIndex keyIndex') by assumption.
  split; intros H; decompose [and] H; clear H.
  - repeat match goal with
    | H : harden (?a + ?b * 2 ^ 8 + ?c * 2 ^ 16 + ?d * 2 ^ 24)
          = harden (?a' + ?b' * 2 ^ 8 + ?c' * 2 ^ 16 + ?d' * 2 ^ 24) |- _ =>
        pose proof (harden_word a b c d a' b' c' d') as HW;
        specialize (HW ltac:(apply byteZ_range) ltac:(apply byteZ_range)
                      ltac:(apply byteZ_range) ltac:(apply byteZ_range)
                      ltac:(apply byteZ_range) ltac:(apply byteZ_range)
                      ltac:(apply byteZ_range) ltac:(apply byteZ_range));
        destruct HW as [HW _]; specialize (HW H); clear H;
        destruct HW as (? & ? & ? & ?)
    end.
    repeat match goal with |- _ /\ _ => split end;
      solve [assumption | reflexivity].
  - repeat match goal with |- _ /\ _ => split end.
    all: try solve [assumption | reflexivity].
    all: match goal with
      | |- harden (?a + ?b * 2 ^ 8 + ?c * 2 ^ 16 + ?d * 2 ^ 24)
           = harden (?a' + ?b' * 2 ^ 8 + ?c' * 2 ^ 16 + ?d' * 2 ^ 24) =>
          pose proof (harden_word a b c d a' b' c' d') as HW;
          specialize (HW ltac:(apply byteZ_range) ltac:(apply byteZ_range)
                        ltac:(apply byteZ_range) ltac:(apply byteZ_range)
                        ltac:(apply byteZ_range) ltac:(apply byteZ_range)
                        ltac:(apply byteZ_range) ltac:(apply byteZ_range));
          destruct HW as [_ HW]; apply HW
      end.
    all: repeat split; assumption.
Qed.

Lemma kids_same_iff_witness :
  dexAccount.kids samplePubKey 5 = dexAccount.kids collidingPubKey 5.
Proof.
  apply (kids_same_iff samplePubKey collidingPubKey 5 5).
  - reflexivity.
  - reflexivity.
  - unfold hdkeychain.HardenedKeyStart. lia.
  - unfold hdkeychain.HardenedKeyStart. lia.
  - split; reflexivity.
Defined.

Section AccountProps.
Context {K : Keys} {S : core.Signer}.

(** [setupCryptoV2] always returns: the length check on the public key keeps
    every index expression in range. It fails for a key index of 2^31 or
    more and for a public key that is not 33 bytes long. When it succeeds
    the key was derived along a chain of eleven hardened indices, the
    account holds the private key and its encryption under the crypter, it
    is unlocked and initialized only if the encrypted key is not empty, it
    signs with the new key, and the identity is that of the derived public
    key; host, view-only flag and the flags behind [authMtx] are as
    before. *)
Theorem setupCryptoV2_returns (a : core.dexAccount)
        (dexPkB EncSeed : core.bytes) (crypter : encrypt.Crypter)
        (keyIndex : uint32) :
  exists r,
    dexAccount.setupCryptoV2 a dexPkB EncSeed crypter keyIndex = Some r
    /\ (hdkeychain.HardenedKeyStart <= keyIndex -> exists err, r = Err err)
    /\ (List.length dexPkB <> 33%nat -> exists err, r = Err err)
    /\ forall a', r = Ok a' ->
         exists seed kids extKey privB,
           encrypt.Decrypt crypter EncSeed = Ok seed
           /\ dexAccount.kids dexPkB keyIndex = Some kids
           /\ List.length kids = 11%nat
           /\ Forall (fun kid => hdkeychain.HardenedKeyStart <= kid < 2 ^ 32)
                     kids
           /\ GenDeepChild seed kids = Ok extKey
           /\ SerializedPrivKey extKey = Ok privB
           /\ encrypt.Encrypt crypter privB = Ok (core.encKey a')
           /\ core.privKey a' = Some (PrivKeyFromBytes privB)
           /\ core.id a' = NewID (SerializedPubKey extKey)
           /\ core.locked a' = false
           /\ (forall msg,
                 core.sign a' msg
                 = Ok (core.signMsg (PrivKeyFromBytes privB) msg))
           /\ core.host a' = core.host a
           /\ core.viewOnly a' = core.viewOnly a
           /\ core.isAuthed a' = core.isAuthed a
           /\ core.disabled a' = core.disabled a.
Proof.
  assert (forall err : error,
             exists r : result core.dexAccount,
               Some (@Err core.dexAccount err) = Some r
               /\ (hdkeychain.HardenedKeyStart <= keyIndex ->
                   exists err, r = Err err)
               /\ (List.length dexPkB <> 33%nat -> exists err, r = Err err)
               /\ forall a', r = Ok a' -> False) as Fail.
  { intros err. exists (Err err). split; [reflexivity|].
    split; [intros; eexists; reflexivity|].
    split; [intros; eexists; reflexivity|].
    intros a' E. discriminate E. }
  assert (forall (Q : core.dexAccount -> Prop) (err : error),
             exists r : result core.dexAccount,
               Some (@Err core.dexAccount err) = Some r
               /\ (hdkeychain.HardenedKeyStart <= keyIndex ->
                   exists err, r = Err err)
               /\ (List.length dexPkB <> 33%nat -> exists err, r = Err err)
               /\ forall a', r = Ok a' -> Q a') as Fail'.
  { intros Q err. destruct (Fail err) as (r & E & H1 & H2 & H3).
    exists r. repeat split; try assumption.
    intros a' Ea. exfalso. exact (H3 a' Ea). }
  clear Fail.
  unfold dexAccount.setupCryptoV2.
  destruct (Z.leb_spec hdkeychain.HardenedKeyStart keyIndex) as [Hge|Hlt];
    [apply Fail'|].
  destruct (encrypt.Decrypt crypter EncSeed) as [seed|err] eqn:Eseed;
    [|apply Fail'].
  destruct (Nat.eqb_spec (List.length dexPkB) 33) as [Hlen|Hlen]; cbn [negb];
    [|apply Fail'].
  destruct (kids_hardened_aux dexPkB keyIndex Hlen) as (kids & -> & Hl & Hh).
  destruct (GenDeepChild seed kids) as [extKey|err] eqn:Egen; [|apply Fail'].
  destruct (SerializedPrivKey extKey) as [privB|err] eqn:Epriv;
    [|apply Fail'].
  destruct (encrypt.Encrypt crypter privB) as [encKey|err] eqn:Eenc;
    [|apply Fail'].
  clear Fail'. eexists. split; [reflexivity|].
  split; [intros; lia|]. split; [intros; contradiction|].
  intros a' E. injection E as <-.
  exists seed, kids, extKey, privB.
  repeat match goal with |- _ /\ _ => split end;
    try reflexivity; assumption.
Qed.

(** After [setupCryptoV2], locking the account and unlocking it with the
    same crypter brings the account back as it was, provided the crypter
    decrypts what it encrypted and the public key of the private key is the
    public key of the derived extended key. In between, the account is
    locked. *)
Theorem unlock_after_setup (a a' : core.dexAccount)
        (dexPkB EncSeed : core.bytes) (crypter : encrypt.Crypter)
        (keyIndex : uint32) :
  (forall b e, encrypt.Encrypt crypter b = Ok e ->
               encrypt.Decrypt crypter e = Ok b) ->
  (forall extKey privB, SerializedPrivKey extKey = Ok privB ->
      PubKeySerializeCompressed (PrivKeyFromBytes privB)
      = SerializedPubKey extKey) ->
  dexAccount.setupCryptoV2 a dexPkB EncSeed crypter keyIndex = Some (Ok a') ->
  core.locked (core.lock a') = true
  /\ dexAccount.unlock (core.lock a') crypter = Ok a'
  /\ forall msg, (core.sign (core.lock a') msg = Err core.errAccountLocked
                  /\ exists sig, core.sign a' msg = Ok sig).
Proof.
  intros Hcrypt Hpub E.
  unfold dexAccount.setupCryptoV2 in E.
  destruct (hdkeychain.HardenedKeyStart <=? keyIndex); [discriminate E|].
  destruct (encrypt.Decrypt crypter EncSeed) as [seed|err];
    [|discriminate E].
  destruct (negb _); [discriminate E|].
  destruct (dexAccount.kids dexPkB keyIndex) as [kids|]; [|discriminate E].
  destruct (GenDeepChild seed kids) as [extKey|err]; [|discriminate E].
  destruct (SerializedPrivKey extKey) as [privB|err] eqn:Epriv;
    [|discriminate E].
  destruct (encrypt.Encrypt crypter privB) as [encKey|err] eqn:Eenc;
    [|discriminate E].
  injection E as <-.
  split; [reflexivity|]. split.
  - unfold dexAccount.unlock, core.lock, dexAccount.withKeys.
    cbn [core.encKey].
    rewrite (Hcrypt privB encKey Eenc). unfold Ok. cbv beta iota zeta.
    rewrite (Hpub extKey privB Epriv). reflexivity.
  - intros msg. split; [reflexivity|]. eexists. reflexivity.
Qed.

End AccountProps.

Lemma unlock_after_setup_witness :
  exists a',
    @dexAccount.setupCryptoV2 sampleKeys sampleAccount samplePubKey
      [Byte.x01; Byte.x02] sampleCrypter 5 = Some (Ok a')
    /\ core.locked (core.lock a') = true
    /\ @dexAccount.unlock sampleKeys (core.lock a') sampleCrypter = Ok a'.
Proof.
  eexists. split; [vm_compute; reflexivity|].
  match goal with
  | |- core.locked (core.lock ?x) = true /\ _ =>
      destruct (@unlock_after_setup sampleKeys
                  {| core.signMsg := fun k msg => k ++ msg |}
                  sampleAccount x samplePubKey
                  [Byte.x01; Byte.x02] sampleCrypter 5) as (H1 & H2 & _)
  end.
  - intros b e [= <-]. simpl. rewrite rev_involutive. reflexivity.
  - intros extKey privB [= <-]. reflexivity.
  - vm_compute. reflexivity.
  - split; [exact H1 | exact H2].
Defined.

(** ** float64 products and quotients as rationals *)

Lemma shr_1_m (mrs : shr_record) :
  0 <= shr_m mrs -> shr_m (shr_1 mrs) = shr_m mrs / 2.
Proof.
  destruct mrs as [m r s]. cbn [shr_m]. intros Hm.
  destruct m as [|[p|p|]|p]; cbn [shr_1 shr_m]; try lia.
  - reflexivity.
  - rewrite Pos2Z.inj_xI. apply (Z.div_unique _ 2 _ 1); lia.
  - rewrite Pos2Z.inj_xO. apply (Z.div_unique _ 2 _ 0); lia.
  - reflexivity.
Qed.

Lemma shr_m_iter (k : positive) (mrs : shr_record) :
  0 <= shr_m mrs ->
  shr_m (iter_pos shr_1 k mrs) = shr_m mrs / 2 ^ Zpos k.
Proof.
  intros Hm. rewrite iter_pos_Pos_iter.
  induction k as [|k IH] using Pos.peano_ind.
  - simpl Pos.iter. rewrite shr_1_m by exact Hm. reflexivity.
  - rewrite Pos.iter_succ, shr_1_m.
    + rewrite IH, Pos2Z.inj_succ, Z.pow_succ_r by lia.
      rewrite Z.div_div by (try apply Z.pow_pos_nonneg; lia).
      f_equal. lia.
    + rewrite IH. apply Z.div_pos; [exact Hm | apply Z.pow_pos_nonneg; lia].
Qed.

(** Rounding a positive mantissa of [53 + k] bits: the result is the
    mantissa without its [k] low bits, or that plus one. *)
Lemma round_aux_bracket (s : bool) (M : positive) (e k : Z) (l : location) :
  Zpos (digits2_pos M) = 53 + k -> 0 <= k -> -1074 <= e + k <= 970 ->
  exists m1,
    Zpos M / 2 ^ k <= m1 <= Zpos M / 2 ^ k + 1
    /\ 2 ^ 52 <= m1 <= 2 ^ 53
    /\ binary_round_aux 53 1024 s (Zpos M) e l
       = if m1 <? 2 ^ 53 then S754_finite s (Z.to_pos m1) (e + k)
         else S754_finite s (Z.to_pos (2 ^ 52)) (e + k + 1).
Proof.
  intros Hd Hk He.
  pose proof (digits2_pos_bounds M) as [Blo Bhi]. rewrite Hd in Blo, Bhi.
  assert (0 < 2 ^ k) as Hpk by (apply Z.pow_pos_nonneg; lia).
  assert (2 ^ 52 <= Zpos M / 2 ^ k < 2 ^ 53) as Hq.
  { replace (53 + k - 1) with (52 + k) in Blo by lia.
    rewrite Z.pow_add_r in Blo, Bhi by lia. split.
    - apply Z.div_le_lower_bound; lia.
    - apply Z.div_lt_upper_bound; lia. }
  unfold binary_round_aux, shr_fexp.
  change (Zdigits2 (Zpos M)) with (Zpos (digits2_pos M)). rewrite Hd.
  rewrite fexp_normal by lia.
  replace (53 + k + e - 53 - e) with k by lia.
  assert (exists mrs,
             shr (shr_record_of_loc (Zpos M) l) e k = (mrs, e + k)
             /\ shr_m mrs = Zpos M / 2 ^ k) as (mrs & -> & Hm).
  { destruct k as [|p|p]; [| |lia].
    - eexists. split; [cbn [shr]; f_equal; lia|].
      rewrite shr_m_record_of, Z.div_1_r. reflexivity.
    - eexists. split; [reflexivity|].
      rewrite shr_m_iter; rewrite shr_m_record_of; [reflexivity | lia]. }
  rewrite Hm.
  set (m1 := round_nearest_even (Zpos M / 2 ^ k) (loc_of_shr_record mrs)).
  pose proof (round_nearest_even_range (Zpos M / 2 ^ k)
                (loc_of_shr_record mrs)) as Hr. fold m1 in Hr.
  exists m1. split; [exact Hr|]. split; [lia|].
  apply round_aux_tail; lia.
Qed.

Lemma pow2_pos (e : Z) : (0 < 2 ^ e)%Q.
Proof. apply Qpower_0_lt. reflexivity. Qed.

Lemma inject_pow2 (k : Z) : 0 <= k -> (inject_Z (2 ^ k) == 2 ^ k)%Q.
Proof. intros Hk. rewrite Zpower_Qpower by exact Hk. reflexivity. Qed.

Lemma F2Q_round (m1 e : Z) :
  2 ^ 52 <= m1 <= 2 ^ 53 ->
  (F2Q (if m1 <? 2 ^ 53 then S754_finite false (Z.to_pos m1) e
        else S754_finite false (Z.to_pos (2 ^ 52)) (e + 1))
   == inject_Z m1 * 2 ^ e)%Q.
Proof.
  intros Hm. destruct (Z.ltb_spec m1 (2 ^ 53)) as [Hlt|Hge].
  - cbn [F2Q cond_Zopp]. rewrite Z2Pos.id by lia. reflexivity.
  - assert (m1 = 2 ^ 53) as -> by lia.
    cbn [F2Q cond_Zopp]. rewrite Z2Pos.id by lia.
    rewrite Qpower_plus by discriminate.
    change (2 ^ 53)%Z with (2 ^ 52 * 2)%Z. rewrite inject_Z_mult.
    change (2 ^ 1)%Q with 2%Q. change (inject_Z 2) with 2%Q. ring.
Qed.

(** From a bracket on integers to a relative error: [A] approximates the
    quotient [B / C]. *)
Lemma near_of_bracket (A B C : Z) (scale : Q) :
  0 < B -> 0 < C -> (0 < scale)%Q ->
  2 ^ 52 * (A * C - B) <= B -> 2 ^ 52 * (B - A * C) <= B ->
  near (inject_Z B / inject_Z C * scale) (inject_Z A * scale).
Proof.
  intros HB HC Hs H1 H2. unfold near, ulp52.
  rewrite Zle_Qle in H1, H2. rewrite Zlt_Qlt in HB, HC.
  rewrite !inject_Z_mult, ?inject_Z_plus in H1, H2.
  unfold Z.sub in H1, H2. rewrite !inject_Z_plus, !inject_Z_opp in H1, H2.
  rewrite !inject_Z_mult in H1, H2.
  change (inject_Z (2 ^ 52)) with (4503599627370496 # 1)%Q in H1, H2.
  change (inject_Z 0) with 0%Q in HB, HC.
  set (a := inject_Z A) in *. set (b := inject_Z B) in *.
  set (c := inject_Z C) in *.
  assert (b / c * c == b)%Q as Ebc by (field; lra).
  set (q := (b / c)%Q) in *.
  rewrite <- Ebc in H1, H2. clearbody q. clear Ebc HB b.
  assert (q * (1 - (1 # 4503599627370496)) <= a)%Q as L.
  { destruct (Qlt_le_dec a (q * (1 - (1 # 4503599627370496)))) as [Hlt|?];
      [|assumption].
    exfalso. nra. }
  assert (a <= q * (1 + (1 # 4503599627370496)))%Q as U.
  { destruct (Qlt_le_dec (q * (1 + (1 # 4503599627370496))) a) as [Hlt|?];
      [|assumption].
    exfalso. nra. }
  split; nra.
Qed.

Lemma near_compat (x x' y y' : Q) :
  (x == x')%Q -> (y == y')%Q -> near x y -> near x' y'.
Proof. unfold near. intros Ex Ey [H1 H2]. rewrite <- Ex, <- Ey. split; assumption. Qed.

Lemma digits2_pos_mul (a b : positive) :
  Zpos (digits2_pos a) = 53 -> Zpos (digits2_pos b) = 53 ->
  Zpos (digits2_pos (a * b)) = 105 \/ Zpos (digits2_pos (a * b)) = 106.
Proof.
  intros Ha Hb.
  pose proof (digits2_pos_bounds a) as [La Ua].
  pose proof (digits2_pos_bounds b) as [Lb Ub].
  pose proof (digits2_pos_bounds (a * b)) as [L U].
  rewrite Ha in La, Ua. rewrite Hb in Lb, Ub.
  rewrite Pos2Z.inj_mul in L, U.
  assert (2 ^ 104 <= Zpos a * Zpos b < 2 ^ 106) as R.
  { change (2 ^ 104) with (2 ^ (53 - 1) * 2 ^ (53 - 1)).
    change (2 ^ 106) with (2 ^ 53 * 2 ^ 53). split; nia. }
  set (d := Zpos (digits2_pos (a * b))) in *.
  assert (0 < d) by (unfold d; lia).
  destruct (Z.lt_ge_cases d 105) as [Hlt|Hge].
  - assert (2 ^ d <= 2 ^ 104) by (apply Z.pow_le_mono_r; lia). lia.
  - destruct (Z.lt_ge_cases 106 d) as [Hgt|Hle]; [|lia].
    assert (2 ^ 106 <= 2 ^ (d - 1)) by (apply Z.pow_le_mono_r; lia). lia.
Qed.

Lemma normal_after_round (m1 e : Z) :
  2 ^ 52 <= m1 <= 2 ^ 53 -> -1074 <= e -> e + 1 <= 971 ->
  exists m e',
    normalFloat
      (if m1 <? 2 ^ 53 then S754_finite false (Z.to_pos m1) e
       else S754_finite false (Z.to_pos (2 ^ 52)) (e + 1)) m e'
    /\ e <= e' <= e + 1.
Proof.
  intros Hm He He'. destruct (Z.ltb_spec m1 (2 ^ 53)) as [Hlt|Hge].
  - exists (Z.to_pos m1), e. split; [|lia].
    split; [reflexivity|]. split; [|lia].
    apply digits2_pos_unique. rewrite Z2Pos.id by lia. simpl. lia.
  - exists (Z.to_pos (2 ^ 52)), (e + 1). split; [|lia].
    split; [reflexivity|]. split; [reflexivity | lia].
Qed.

(** One rounded multiplication of positive normal floats. *)
Lemma mul_near (x y : float64) (mx my : positive) (ex ey : Z) :
  normalFloat x mx ex -> normalFloat y my ey ->
  -1074 <= ex + ey + 52 -> ex + ey + 54 <= 970 ->
  exists m e,
    normalFloat (F64.mul x y) m e
    /\ ex + ey + 52 <= e <= ex + ey + 54
    /\ near (F2Q x * F2Q y) (F2Q (F64.mul x y)).
Proof.
  intros (-> & Dx & Rx) (-> & Dy & Ry) Hlo Hhi.
  unfold F64.mul, F64.prec, F64.emax. cbn [SFmul xorb].
  pose proof (digits2_pos_mul mx my Dx Dy) as HdM.
  set (M := (mx * my)%positive) in *.
  set (k := Zpos (digits2_pos M) - 53).
  assert (k = 52 \/ k = 53) as Hk by (unfold k; lia).
  destruct (round_aux_bracket false M (ex + ey) k loc_Exact
              ltac:(unfold k; lia) ltac:(lia) ltac:(lia))
    as (m1 & Hb & Hr & ->).
  destruct (normal_after_round m1 (ex + ey + k) Hr ltac:(lia) ltac:(lia))
    as (m & e & Hn & He).
  exists m, e. split; [exact Hn|]. split; [lia|].
  pose proof (digits2_pos_bounds M) as [LM UM].
  replace (Zpos (digits2_pos M) - 1) with (52 + k) in LM by (unfold k; lia).
  assert (0 < 2 ^ k) as Hpk by (apply Z.pow_pos_nonneg; lia).
  rewrite Z.pow_add_r in LM by lia.
  pose proof (Z.mul_div_le (Zpos M) (2 ^ k) Hpk) as Q1.
  pose proof (Z.mul_succ_div_gt (Zpos M) (2 ^ k) Hpk) as Q2.
  eapply near_compat;
    [ | symmetry; apply F2Q_round; exact Hr
      | apply (near_of_bracket m1 (Zpos M) (2 ^ k) (2 ^ (ex + ey + k))%Q);
        [lia | lia | apply pow2_pos | | ] ].
  - cbn [F2Q cond_Zopp]. unfold M. rewrite Pos2Z.inj_mul, inject_Z_mult.
    rewrite inject_pow2 by lia.
    rewrite (Qpower_plus 2 (ex + ey) k) by discriminate.
    rewrite (Qpower_plus 2 ex ey) by discriminate.
    field. apply Qpower_not_0. discriminate.
  - set (p := 2 ^ k) in *. set (q' := Zpos M / p) in *.
    assert (m1 * p <= (q' + 1) * p) as S1
      by (apply Z.mul_le_mono_nonneg_r; lia).
    lia.
  - set (p := 2 ^ k) in *. set (q' := Zpos M / p) in *.
    assert (q' * p <= m1 * p) as S1
      by (apply Z.mul_le_mono_nonneg_r; lia).
    unfold Z.succ in Q2. lia.
Qed.

(** One rounded division of positive normal floats. *)
Lemma div_near (x y : float64) (mx my : positive) (ex ey : Z) :
  normalFloat x mx ex -> normalFloat y my ey ->
  -1074 <= ex - ey - 53 -> ex - ey - 51 <= 970 ->
  exists m e,
    normalFloat (F64.div x y) m e
    /\ ex - ey - 53 <= e <= ex - ey - 51
    /\ near (F2Q x / F2Q y) (F2Q (F64.div x y)).
Proof.
  intros (-> & Dx & Rx) (-> & Dy & Ry) Hlo Hhi.
  unfold F64.div, F64.prec, F64.emax.
  rewrite SFdiv_canonical by assumption. cbn [xorb].
  pose proof (digits2_pos_bounds mx) as [Lx Ux].
  pose proof (digits2_pos_bounds my) as [Ly Uy].
  rewrite Dx in Lx, Ux. rewrite Dy in Ly, Uy.
  pose proof (Z.div_mod (Zpos mx * 2 ^ 53) (Zpos my) ltac:(lia)) as Edm.
  pose proof (Z.mod_pos_bound (Zpos mx * 2 ^ 53) (Zpos my) ltac:(lia)) as Hr.
  set (q := Zpos mx * 2 ^ 53 / Zpos my) in *.
  set (r := (Zpos mx * 2 ^ 53) mod Zpos my) in *.
  pose proof (quotient_range (Zpos mx) (Zpos my) q r
                ltac:(simpl in *; lia) ltac:(simpl in *; lia) Edm Hr) as Hq.
  destruct q as [|Q|Q] eqn:EQ; try lia.
  set (k := Zpos (digits2_pos Q) - 53).
  pose proof (digits2_pos_bounds Q) as [LQ UQ].
  assert (k = 0 \/ k = 1) as Hk.
  { unfold k. set (d := Zpos (digits2_pos Q)) in *.
    destruct (Z.lt_ge_cases d 53) as [Hlt|Hge].
    - assert (2 ^ d <= 2 ^ 52) by (apply Z.pow_le_mono_r; unfold d; lia). lia.
    - destruct (Z.lt_ge_cases 54 d) as [Hgt|Hle]; [|lia].
      assert (2 ^ 54 <= 2 ^ (d - 1)) by (apply Z.pow_le_mono_r; lia). lia. }
  destruct (round_aux_bracket false Q (ex - ey - 53) k
              (new_location (Zpos my) r)
              ltac:(unfold k; lia) ltac:(lia) ltac:(lia))
    as (m1 & Hb & Hr1 & ->).
  destruct (normal_after_round m1 (ex - ey - 53 + k) Hr1 ltac:(lia) ltac:(lia))
    as (m & e & Hn & He).
  exists m, e. split; [exact Hn|]. split; [lia|].
  replace (Zpos (digits2_pos Q) - 1) with (52 + k) in LQ by (unfold k; lia).
  assert (0 < 2 ^ k) as Hpk by (apply Z.pow_pos_nonneg; lia).
  rewrite Z.pow_add_r in LQ by lia.
  pose proof (Z.mul_div_le (Zpos Q) (2 ^ k) Hpk) as Q1.
  pose proof (Z.mul_succ_div_gt (Zpos Q) (2 ^ k) Hpk) as Q2.
  assert (2 ^ k <= 2) as Hk2 by (destruct Hk as [-> | ->]; simpl; lia).
  eapply near_compat;
    [ | symmetry; apply F2Q_round; exact Hr1
      | apply (near_of_bracket m1 (Zpos mx * 2 ^ 53) (Zpos my * 2 ^ k)
                 (2 ^ (ex - ey - 53 + k))%Q);
        [lia | nia | apply pow2_pos | | ] ].
  - cbn [F2Q cond_Zopp]. rewrite !inject_Z_mult.
    rewrite !inject_pow2 by lia.
    rewrite (Qpower_plus 2 (ex - ey - 53) k) by discriminate.
    replace (ex - ey - 53) with (ex + (- ey + - 53)) by lia.
    rewrite (Qpower_plus 2 ex) by discriminate.
    rewrite (Qpower_plus 2 (- ey)) by discriminate.
    rewrite !Qpower_opp.
    change (2 ^ (-53))%Q with (/ 2 ^ 53)%Q.
    pose proof (Qpower_not_0 2 ex ltac:(discriminate)) as Nx.
    pose proof (Qpower_not_0 2 ey ltac:(discriminate)) as Ny.
    pose proof (Qpower_not_0 2 k ltac:(discriminate)) as Nk.
    pose proof (Qpower_not_0 2 53 ltac:(discriminate)) as N53.
    assert (~ inject_Z (Zpos my) == 0)%Q as Nm by discriminate.
    generalize dependent (2 ^ ex)%Q. generalize dependent (2 ^ ey)%Q.
    generalize dependent (2 ^ k)%Q. generalize dependent (2 ^ 53)%Q.
    generalize dependent (inject_Z (Zpos my)).
    generalize dependent (inject_Z (Zpos mx)).
    intros. field. repeat split; assumption.
  - set (p := 2 ^ k) in *. set (q' := Zpos Q / p) in *.
    assert (m1 * p <= (q' + 1) * p) as S1
      by (apply Z.mul_le_mono_nonneg_r; lia).
    assert (m1 * p <= Zpos Q + p) as S2 by lia.
    assert (m1 * p * Zpos my <= (Zpos Q + p) * Zpos my) as S3
      by (apply Z.mul_le_mono_nonneg_r; lia).
    assert (2 ^ 52 * p * Zpos my <= Zpos Q * Zpos my) as S4
      by (apply Z.mul_le_mono_nonneg_r; lia).
    lia.
  - set (p := 2 ^ k) in *. set (q' := Zpos Q / p) in *.
    assert (q' * p <= m1 * p) as S1
      by (apply Z.mul_le_mono_nonneg_r; lia).
    unfold Z.succ in Q2.
    assert (Zpos Q - p + 1 <= m1 * p) as S2 by lia.
    assert ((Zpos Q - p + 1) * Zpos my <= m1 * p * Zpos my) as S3
      by (apply Z.mul_le_mono_nonneg_r; lia).
    assert (2 ^ 52 * p * Zpos my <= Zpos Q * Zpos my) as S4
      by (apply Z.mul_le_mono_nonneg_r; lia).
    lia.
Qed.

(** [uint64(math.Round(y))] of a positive normal float below 2^52 is the
    integer nearest to its value. *)
Lemma Round_to_uint64 {P : Platform} (y : float64) (m : positive) (e : Z) :
  normalFloat y m e -> e < 0 ->
  exists N,
    F64.to_uint64 (F64.Round y) = N /\ 0 <= N
    /\ (inject_Z N <= F2Q y + (1 # 2))%Q
    /\ (F2Q y + (1 # 2) < inject_Z N + 1)%Q.
Proof.
  intros (-> & Dm & Re) He.
  pose proof (digits2_pos_bounds m) as [Lm Um]. rewrite Dm in Lm, Um.
  set (h := 2 ^ (- e - 1)).
  assert (0 < h) as Hh by (apply Z.pow_pos_nonneg; lia).
  assert (2 ^ (- e) = 2 * h) as E2h.
  { unfold h. rewrite <- Z.pow_succ_r by lia. f_equal. lia. }
  set (N := (Zpos m + h) / (2 * h)).
  pose proof (Z.mul_div_le (Zpos m + h) (2 * h) ltac:(lia)) as Q1.
  pose proof (Z.mul_succ_div_gt (Zpos m + h) (2 * h) ltac:(lia)) as Q2.
  fold N in Q1, Q2.
  assert (0 <= N) as HN0 by (apply Z.div_pos; lia).
  assert (N < 2 ^ 53) as HN1.
  { apply Z.div_lt_upper_bound; [lia|].
    change (2 ^ 53) with (2 * 2 ^ 52) in *. nia. }
  exists N. split; [|split; [exact HN0|]].
  - unfold F64.Round.
    destruct (Z.leb_spec 0 e) as [?|_]; [lia|].
    cbn [cond_Zopp]. fold h. rewrite E2h. fold N.
    destruct (Z.eq_dec N 0) as [->|Hne]; [reflexivity|].
    change (binary_normalize F64.prec F64.emax N 0 false) with (F64.of_Z N).
    rewrite of_Z_exact by lia. apply to_uint64_exact. lia.
  - cbn [F2Q cond_Zopp].
    assert (2 ^ e == / inject_Z (2 * h))%Q as ->.
    { rewrite <- E2h, inject_pow2 by lia.
      rewrite <- Qpower_opp. replace (- - e) with e by lia. reflexivity. }
    rewrite Zle_Qle in Q1. rewrite Zlt_Qlt in Q2.
    assert (0 < inject_Z (2 * h))%Q as Hpos.
    { change (inject_Z 0 < inject_Z (2 * h))%Q. rewrite <- Zlt_Qlt. lia. }
    rewrite !inject_Z_mult, ?inject_Z_plus in Q1, Q2.
    unfold Z.succ in Q2. rewrite inject_Z_plus in Q2.
    rewrite (inject_Z_mult 2 h) in *.
    change (inject_Z 2) with 2%Q in *. change (inject_Z 1) with 1%Q in *.
    set (n := inject_Z N) in *. set (mq := inject_Z (Zpos m)) in *.
    set (hq := inject_Z h) in *.
    assert (mq * / (2 * hq) * (2 * hq) == mq)%Q as Em by (field; lra).
    set (v := (mq * / (2 * hq))%Q) in *.
    split.
    + apply (Qmult_le_r _ _ (2 * hq)); [exact Hpos|]. nra.
    + apply (Qmult_lt_r _ _ (2 * hq)); [exact Hpos|]. nra.
Qed.

(** Four rounded operations in a row: divide by [c], multiply by [a],
    divide by [b], multiply by [c]. *)
Lemma near_chain (x c a b v1 v2 v3 v4 : Q) :
  (0 < x)%Q -> (0 < c)%Q -> (0 < a)%Q -> (0 < b)%Q ->
  near (x / c) v1 -> near (v1 * a) v2 -> near (v2 / b) v3 ->
  near (v3 * c) v4 ->
  (x * a / b * ((1 - ulp52) * (1 - ulp52) * (1 - ulp52) * (1 - ulp52)) <= v4
   /\ v4 <= x * a / b
            * ((1 + ulp52) * (1 + ulp52) * (1 + ulp52) * (1 + ulp52)))%Q.
Proof.
  unfold near. set (u := ulp52).
  assert (0 < 1 - u)%Q as Hu1 by (unfold u, ulp52; reflexivity).
  assert (0 < 1 + u)%Q as Hu2 by (unfold u, ulp52; reflexivity).
  clearbody u.
  intros Hx Hc Ha Hb [L1 U1] [L2 U2] [L3 U3] [L4 U4].
  assert (0 < a * (1 - u))%Q as Pa1 by (apply Qmult_lt_0_compat; assumption).
  assert (0 < a * (1 + u))%Q as Pa2 by (apply Qmult_lt_0_compat; assumption).
  assert (0 < b * c)%Q as Pbc by (apply Qmult_lt_0_compat; assumption).
  (* lower bounds *)
  assert (x * (1 - u) <= v1 * c)%Q as A1.
  { setoid_replace (x * (1 - u))%Q with (x / c * (1 - u) * c)%Q
      by (field; lra).
    apply Qmult_le_compat_r; lra. }
  assert (x * (1 - u) * (a * (1 - u)) <= v1 * c * (a * (1 - u)))%Q as A1'
    by (apply Qmult_le_compat_r; lra).
  assert (v1 * a * (1 - u) * c <= v2 * c)%Q as L2'
    by (apply Qmult_le_compat_r; lra).
  assert (x * a * ((1 - u) * (1 - u)) <= v2 * c)%Q as A2 by lra.
  assert (x * a * ((1 - u) * (1 - u)) * (1 - u) <= v2 * c * (1 - u))%Q as A2'
    by (apply Qmult_le_compat_r; lra).
  assert (v2 * (1 - u) * c <= v3 * b * c)%Q as L3'.
  { setoid_replace (v2 * (1 - u) * c)%Q with (v2 / b * (1 - u) * (b * c))%Q
      by (field; lra).
    setoid_replace (v3 * b * c)%Q with (v3 * (b * c))%Q by ring.
    apply Qmult_le_compat_r; lra. }
  assert (x * a * ((1 - u) * (1 - u) * (1 - u)) <= v3 * b * c)%Q as A3 by lra.
  assert (x * a * ((1 - u) * (1 - u) * (1 - u)) * (1 - u)
          <= v3 * b * c * (1 - u))%Q as A3'
    by (apply Qmult_le_compat_r; lra).
  assert (v3 * c * (1 - u) * b <= v4 * b)%Q as L4'
    by (apply Qmult_le_compat_r; lra).
  (* upper bounds *)
  assert (v1 * c <= x * (1 + u))%Q as B1.
  { setoid_replace (x * (1 + u))%Q with (x / c * (1 + u) * c)%Q
      by (field; lra).
    apply Qmult_le_compat_r; lra. }
  assert (v1 * c * (a * (1 + u)) <= x * (1 + u) * (a * (1 + u)))%Q as B1'
    by (apply Qmult_le_compat_r; lra).
  assert (v2 * c <= v1 * a * (1 + u) * c)%Q as U2'
    by (apply Qmult_le_compat_r; lra).
  assert (v2 * c <= x * a * ((1 + u) * (1 + u)))%Q as B2 by lra.
  assert (v2 * c * (1 + u) <= x * a * ((1 + u) * (1 + u)) * (1 + u))%Q as B2'
    by (apply Qmult_le_compat_r; lra).
  assert (v3 * b * c <= v2 * (1 + u) * c)%Q as U3'.
  { setoid_replace (v2 * (1 + u) * c)%Q with (v2 / b * (1 + u) * (b * c))%Q
      by (field; lra).
    setoid_replace (v3 * b * c)%Q with (v3 * (b * c))%Q by ring.
    apply Qmult_le_compat_r; lra. }
  assert (v3 * b * c <= x * a * ((1 + u) * (1 + u) * (1 + u)))%Q as B3 by lra.
  assert (v3 * b * c * (1 + u)
          <= x * a * ((1 + u) * (1 + u) * (1 + u)) * (1 + u))%Q as B3'
    by (apply Qmult_le_compat_r; lra).
  assert (v4 * b <= v3 * c * (1 + u) * b)%Q as U4'
    by (apply Qmult_le_compat_r; lra).
  split.
  - apply (Qmult_le_r _ _ b Hb).
    setoid_replace
      (x * a / b * ((1 - u) * (1 - u) * (1 - u) * (1 - u)) * b)%Q
      with (x * a * ((1 - u) * (1 - u) * (1 - u)) * (1 - u))%Q
      by (field; lra).
    lra.
  - apply (Qmult_le_r _ _ b Hb).
    setoid_replace
      (x * a / b * ((1 + u) * (1 + u) * (1 + u) * (1 + u)) * b)%Q
      with (x * a * ((1 + u) * (1 + u) * (1 + u)) * (1 + u))%Q
      by (field; lra).
    lra.
Qed.

Lemma F2Q_exactFloat (n : Z) :
  0 < n < 2 ^ 53 -> (F2Q (exactFloat false n) == inject_Z n)%Q.
Proof.
  intros Hn. destruct (canonMant_value n Hn) as (Ec & Rc & Dc).
  pose proof (Zdigits2_le_53 n Hn) as Ld.
  unfold exactFloat. cbn [F2Q cond_Zopp]. rewrite Ec, inject_Z_mult.
  rewrite inject_pow2 by lia. rewrite <- Qmult_assoc.
  rewrite <- Qpower_plus by discriminate.
  replace (53 - Zdigits2 n + (Zdigits2 n - 53)) with 0 by lia.
  change (2 ^ 0)%Q with 1%Q. ring.
Qed.

Lemma normal_exactFloat (n : Z) :
  0 < n < 2 ^ 53 ->
  normalFloat (exactFloat false n) (canonMant n) (Zdigits2 n - 53)
  /\ -52 <= Zdigits2 n - 53 <= 0.
Proof.
  intros Hn. destruct (canonMant_value n Hn) as (Ec & Rc & Dc).
  pose proof (Zdigits2_le_53 n Hn) as Ld.
  destruct (Zdigits2_bounds n ltac:(lia)) as [Hd _].
  split; [|lia]. split; [reflexivity|]. split; [exact Dc | lia].
Qed.

Lemma Zdigits2_le (n k : Z) : 0 < n < 2 ^ k -> 0 <= k -> Zdigits2 n <= k.
Proof.
  intros [H0 H1] Hk. destruct (Zdigits2_bounds n H0) as [Hd [Hlo _]].
  destruct (Z.le_gt_cases (Zdigits2 n) k) as [|Hgt]; [assumption|].
  assert (2 ^ k <= 2 ^ (Zdigits2 n - 1)) by (apply Z.pow_le_mono_r; lia).
  lia.
Qed.

(** A positive normal float whose value is below 2^52 has a negative
    exponent. *)
Lemma normal_small_exponent (y : float64) (m : positive) (e : Z) :
  normalFloat y m e -> (F2Q y < 4503599627370496 # 1)%Q -> e < 0.
Proof.
  intros (-> & Dm & _) Hv. cbn [F2Q cond_Zopp] in Hv.
  destruct (Z.lt_ge_cases e 0) as [|Hge]; [assumption|exfalso].
  pose proof (digits2_pos_bounds m) as [Lm _]. rewrite Dm in Lm.
  rewrite Zle_Qle in Lm.
  change (inject_Z (2 ^ (53 - 1))) with (4503599627370496 # 1)%Q in Lm.
  pose proof (Qpower_1_le 2 e ltac:(discriminate) Hge) as Hp.
  set (mq := inject_Z (Zpos m)) in *. set (p := (2 ^ e)%Q) in *.
  assert (mq * 1 <= mq * p)%Q by (apply Qmult_le_l; lra).
  lra.
Qed.

Section RateProps.
Context {P : Platform}.

(** The numeric step: four roundings move a value below 2^48 by less than
    5/16. *)
Lemma four_roundings (x v : Q) :
  (0 < x)%Q -> (x < 281474976710656 # 1)%Q ->
  (x * ((1 - ulp52) * (1 - ulp52) * (1 - ulp52) * (1 - ulp52)) <= v)%Q ->
  (v <= x * ((1 + ulp52) * (1 + ulp52) * (1 + ulp52) * (1 + ulp52)))%Q ->
  (x - (5 # 16) < v /\ v < x + (5 # 16))%Q.
Proof. unfold ulp52. intros. split; lra. Qed.

(** A message rate below 2^48 survives the conversion to a conventional
    rate and back, for every positive normal conversion factor that is
    neither tiny nor huge. *)
Theorem rate_round_trip (m : Market.t) (ma : positive) (ea : Z)
        (r : uint64) :
  normalFloat (Market.AtomToConv m) ma ea -> -900 <= ea <= 800 ->
  0 <= r < 2 ^ 48 ->
  @Market.ConventionalRateToMsg P sampleConstants m
    (@Market.MsgRateToConventional sampleConstants m r)
  = r.
Proof.
  intros Ha Hea Hr.
  unfold Market.ConventionalRateToMsg, Market.MsgRateToConventional.
  cbn [calc.RateEncodingFactor sampleConstants].
  destruct (Z.eq_dec r 0) as [->|Hr0].
  { destruct Ha as (-> & _ & _). reflexivity. }
  assert (0 < r < 2 ^ 53) as Hr53
    by (change (2 ^ 53) with (32 * 2 ^ 48); lia).
  rewrite (of_Z_exact r Hr53), (of_Z_exact (10 ^ 8)) by (simpl; lia).
  destruct (normal_exactFloat r Hr53) as [N0 R0].
  destruct (normal_exactFloat (10 ^ 8) ltac:(simpl; lia)) as [Nc _].
  change (Zdigits2 (10 ^ 8) - 53) with (-26) in Nc.
  pose proof (F2Q_exactFloat r Hr53) as V0.
  pose proof (F2Q_exactFloat (10 ^ 8) ltac:(simpl; lia)) as Vc.
  set (x0 := exactFloat false r) in *.
  set (c := exactFloat false (10 ^ 8)) in *.
  set (e0 := Zdigits2 r - 53) in *.
  destruct (div_near x0 c _ _ _ _ N0 Nc ltac:(lia) ltac:(lia))
    as (m1 & e1 & N1 & E1 & A1).
  destruct (mul_near _ _ _ _ _ _ N1 Ha ltac:(lia) ltac:(lia))
    as (m2 & e2 & N2 & E2 & A2).
  destruct (div_near _ _ _ _ _ _ N2 Ha ltac:(lia) ltac:(lia))
    as (m3 & e3 & N3 & E3 & A3).
  destruct (mul_near _ _ _ _ _ _ N3 Nc ltac:(lia) ltac:(lia))
    as (m4 & e4 & N4 & E4 & A4).
  set (x4 := F64.mul (F64.div (F64.mul (F64.div x0 c) (Market.AtomToConv m))
                              (Market.AtomToConv m)) c) in *.
  assert (0 < F2Q (Market.AtomToConv m))%Q as Pa.
  { destruct Ha as (-> & _ & _). cbn [F2Q cond_Zopp].
    apply Qmult_lt_0_compat; [reflexivity | apply pow2_pos]. }
  assert (0 < inject_Z r)%Q as Pr.
  { change (inject_Z 0 < inject_Z r)%Q. rewrite <- Zlt_Qlt. lia. }
  assert (inject_Z r < 281474976710656 # 1)%Q as Br.
  { change (inject_Z r < inject_Z (2 ^ 48))%Q. rewrite <- Zlt_Qlt. lia. }
  assert (near (inject_Z r / inject_Z (10 ^ 8)) (F2Q (F64.div x0 c))) as A1'.
  { eapply near_compat; [ | reflexivity | exact A1].
    rewrite V0, Vc. reflexivity. }
  assert (near (F2Q (F64.div (F64.mul (F64.div x0 c) (Market.AtomToConv m))
                             (Market.AtomToConv m))
                * inject_Z (10 ^ 8)) (F2Q x4)) as A4'.
  { eapply near_compat; [ | reflexivity | exact A4].
    rewrite Vc. reflexivity. }
  destruct (near_chain (inject_Z r) (inject_Z (10 ^ 8))
              (F2Q (Market.AtomToConv m)) (F2Q (Market.AtomToConv m))
              _ _ _ _ Pr ltac:(reflexivity) Pa Pa A1' A2 A3 A4') as [Lo Hi].
  assert (inject_Z r * F2Q (Market.AtomToConv m)
          / F2Q (Market.AtomToConv m) == inject_Z r)%Q as Era
    by (field; lra).
  rewrite Era in Lo, Hi.
  destruct (four_roundings _ _ Pr Br Lo Hi) as [Lo' Hi'].
  assert (e4 < 0) as He4.
  { apply (normal_small_exponent x4 m4 e4 N4). lra. }
  destruct (Round_to_uint64 x4 m4 e4 N4 He4) as (N & -> & HN0 & HN1 & HN2).
  assert (inject_Z N < inject_Z (r + 1))%Q as G1
    by (rewrite inject_Z_plus; change (inject_Z 1) with 1%Q; lra).
  assert (inject_Z r < inject_Z (N + 1))%Q as G2
    by (rewrite inject_Z_plus; change (inject_Z 1) with 1%Q; lra).
  rewrite <- Zlt_Qlt in G1, G2. lia.
Qed.

End RateProps.

Lemma rate_round_trip_witness :
  @Market.ConventionalRateToMsg indefinite63 sampleConstants sampleRateMarket
    (@Market.MsgRateToConventional sampleConstants sampleRateMarket 123456789)
  = 123456789.
Proof.
  apply (@rate_round_trip indefinite63 sampleRateMarket
           8796093022208000 (-43) 123456789).
  - split; [vm_compute; reflexivity | split; [reflexivity | lia]].
  - lia.
  - lia.
Defined.

Section HalfGapProps.
Context {P : Platform}.

(** With [calc.RateEncodingFactor] = 1e8, a basis price below 2^48 and
    fees and lot size with [f + 2 * l] below 2^53, the half gap computed in
    float64 is the exact break-even [f * basisPrice / (f + 2 * l)] up to less
    than one unit: it differs from it by at most 13/16 (half a unit for the
    final rounding to an integer, 5/16 for the four float64 roundings). *)
Theorem halfGap_accuracy (basisPrice f l : uint64) :
  0 < basisPrice < 2 ^ 48 -> 0 <= f -> 0 < l -> f + 2 * l < 2 ^ 53 ->
  let h := @basicMMCalculatorImpl.halfGap P sampleConstants basisPrice f l in
  16 * Z.abs (h * (f + 2 * l) - f * basisPrice) <= 13 * (f + 2 * l).
Proof.
  intros Hbp Hf Hl HD. cbv zeta.
  unfold basicMMCalculatorImpl.halfGap.
  cbn [calc.RateEncodingFactor sampleConstants].
  rewrite (wrap64_small (2 * l)) by lia.
  rewrite (wrap64_small (f + 2 * l)) by lia.
  set (D := f + 2 * l) in *.
  assert (0 < basisPrice < 2 ^ 53) as Hbp53
    by (change (2 ^ 53) with (32 * 2 ^ 48); lia).
  rewrite (of_Z_exact basisPrice Hbp53), (of_Z_exact (10 ^ 8)) by (simpl; lia).
  rewrite (of_Z_exact D) by lia.
  destruct (normal_exactFloat basisPrice Hbp53) as [N0 R0].
  destruct (normal_exactFloat (10 ^ 8) ltac:(simpl; lia)) as [Nc _].
  destruct (normal_exactFloat D ltac:(lia)) as [ND RD].
  change (Zdigits2 (10 ^ 8) - 53) with (-26) in Nc.
  pose proof (F2Q_exactFloat basisPrice Hbp53) as V0.
  pose proof (F2Q_exactFloat (10 ^ 8) ltac:(simpl; lia)) as Vc.
  pose proof (F2Q_exactFloat D ltac:(lia)) as VD.
  set (x0 := exactFloat false basisPrice) in *.
  set (c := exactFloat false (10 ^ 8)) in *.
  set (d := exactFloat false D) in *.
  destruct (div_near x0 c _ _ _ _ N0 Nc ltac:(lia) ltac:(lia))
    as (m1 & e1 & N1 & E1 & A1).
  destruct (Z.eq_dec f 0) as [->|Hf0].
  { (* no fees: every product and quotient is zero *)
    destruct N1 as (-> & _ & _). unfold d, exactFloat.
    change (F64.of_Z 0) with (S754_zero false).
    cbn [F64.mul F64.div SFmul SFdiv xorb F64.Round].
    unfold c, exactFloat. cbn [SFmul xorb F64.Round].
    change (F64.to_uint64 (S754_zero false)) with 0. lia. }
  assert (0 < f < 2 ^ 53) as Hf53 by lia.
  rewrite (of_Z_exact f Hf53).
  destruct (normal_exactFloat f Hf53) as [Nf Rf].
  pose proof (F2Q_exactFloat f Hf53) as Vf.
  set (xf := exactFloat false f) in *.
  destruct (mul_near _ _ _ _ _ _ Nf N1 ltac:(lia) ltac:(lia))
    as (m2 & e2 & N2 & E2 & A2).
  destruct (div_near _ _ _ _ _ _ N2 ND ltac:(lia) ltac:(lia))
    as (m3 & e3 & N3 & E3 & A3).
  destruct (mul_near _ _ _ _ _ _ N3 Nc ltac:(lia) ltac:(lia))
    as (m4 & e4 & N4 & E4 & A4).
  set (x1 := F64.div x0 c) in *.
  set (x2 := F64.mul xf x1) in *.
  set (x3 := F64.div x2 d) in *.
  set (x4 := F64.mul x3 c) in *.
  assert (near (inject_Z basisPrice / inject_Z (10 ^ 8)) (F2Q x1)) as A1'.
  { eapply near_compat; [ | reflexivity | exact A1].
    rewrite V0, Vc. reflexivity. }
  assert (near (F2Q x1 * inject_Z f) (F2Q x2)) as A2'.
  { eapply near_compat; [ | reflexivity | exact A2].
    rewrite Vf. ring. }
  assert (near (F2Q x2 / inject_Z D) (F2Q x3)) as A3'.
  { eapply near_compat; [ | reflexivity | exact A3].
    rewrite VD. reflexivity. }
  assert (near (F2Q x3 * inject_Z (10 ^ 8)) (F2Q x4)) as A4'.
  { eapply near_compat; [ | reflexivity | exact A4].
    rewrite Vc. reflexivity. }
  assert (0 < inject_Z basisPrice)%Q as Pb.
  { change (inject_Z 0 < inject_Z basisPrice)%Q. rewrite <- Zlt_Qlt. lia. }
  assert (0 < inject_Z f)%Q as Pf.
  { change (inject_Z 0 < inject_Z f)%Q. rewrite <- Zlt_Qlt. lia. }
  assert (0 < inject_Z D)%Q as PD.
  { change (inject_Z 0 < inject_Z D)%Q. rewrite <- Zlt_Qlt. lia. }
  assert (inject_Z f <= inject_Z D)%Q as FD.
  { rewrite <- Zle_Qle. lia. }
  assert (inject_Z basisPrice < 281474976710656 # 1)%Q as Bb.
  { change (inject_Z basisPrice < inject_Z (2 ^ 48))%Q.
    rewrite <- Zlt_Qlt. lia. }
  destruct (near_chain (inject_Z basisPrice) (inject_Z (10 ^ 8))
              (inject_Z f) (inject_Z D) _ _ _ _
              Pb ltac:(reflexivity) Pf PD A1' A2' A3' A4') as [Lo Hi].
  set (X := (inject_Z basisPrice * inject_Z f / inject_Z D)%Q) in *.
  assert (X * inject_Z D == inject_Z basisPrice * inject_Z f)%Q as EX
    by (unfold X; field; lra).
  assert (0 < X)%Q as PX.
  { unfold X. apply Qlt_shift_div_l; [exact PD|].
    assert (0 < inject_Z basisPrice * inject_Z f)%Q
      by (apply Qmult_lt_0_compat; assumption).
    lra. }
  assert (X <= inject_Z basisPrice)%Q as XB.
  { apply (Qmult_le_r _ _ (inject_Z D) PD). rewrite EX.
    apply Qmult_le_l; assumption. }
  destruct (four_roundings X (F2Q x4) PX ltac:(lra) Lo Hi) as [Lo' Hi'].
  assert (e4 < 0) as He4.
  { apply (normal_small_exponent x4 m4 e4 N4). lra. }
  destruct (Round_to_uint64 x4 m4 e4 N4 He4) as (N & -> & HN0 & HN1 & HN2).
  (* back to integers, over the common denominator D *)
  assert (16 * (inject_Z N * inject_Z D)
          <= 16 * (inject_Z basisPrice * inject_Z f) + 13 * inject_Z D)%Q
    as G1.
  { rewrite <- EX.
    assert (inject_Z N * inject_Z D <= (X + (13 # 16)) * inject_Z D)%Q
      by (apply Qmult_le_compat_r; lra).
    lra. }
  assert (16 * (inject_Z basisPrice * inject_Z f)
          <= 16 * (inject_Z N * inject_Z D) + 13 * inject_Z D)%Q as G2.
  { rewrite <- EX.
    assert ((X - (13 # 16)) * inject_Z D <= inject_Z N * inject_Z D)%Q
      by (apply Qmult_le_compat_r; lra).
    lra. }
  rewrite <- !inject_Z_mult in G1, G2.
  change 16%Q with (inject_Z 16) in G1, G2.
  change 13%Q with (inject_Z 13) in G1, G2.
  rewrite <- !inject_Z_mult, <- !inject_Z_plus in G1, G2.
  rewrite <- Zle_Qle in G1, G2. lia.
Qed.

End HalfGapProps.

Lemma halfGap_accuracy_witness :
  16 * Z.abs
         (@basicMMCalculatorImpl.halfGap indefinite63 sampleConstants
            100000000 2 10 * (2 + 2 * 10) - 2 * 100000000)
  <= 13 * (2 + 2 * 10).
Proof.
  apply (@halfGap_accuracy indefinite63 100000000 2 10); lia.
Defined.

(** The value of a positive normal float is at least 2^52 units of its
    exponent. *)
Lemma normal_value_lower (x : float64) (m : positive) (e : Z) :
  normalFloat x m e -> ((4503599627370496 # 1) * 2 ^ e <= F2Q x)%Q.
Proof.
  intros (-> & Dm & _). cbn [F2Q cond_Zopp].
  pose proof (digits2_pos_bounds m) as [Lm _]. rewrite Dm in Lm.
  rewrite Zle_Qle in Lm.
  change (inject_Z (2 ^ (53 - 1))) with (4503599627370496 # 1)%Q in Lm.
  apply Qmult_le_compat_r; [exact Lm|].
  apply Qlt_le_weak, pow2_pos.
Qed.

(** Two positive normal floats whose product is below 2^48 have exponents
    that add up to less than -56. *)
Lemma product_small_exponents (x y : float64) (mx my : positive)
      (ex ey : Z) :
  normalFloat x mx ex -> normalFloat y my ey ->
  (F2Q x * F2Q y < 281474976710656 # 1)%Q -> ex + ey < -56.
Proof.
  intros Nx Ny Hv.
  pose proof (normal_value_lower x mx ex Nx) as Lx.
  pose proof (normal_value_lower y my ey Ny) as Ly.
  destruct (Z.lt_ge_cases (ex + ey) (-56)) as [|Hge]; [assumption|exfalso].
  pose proof (Qpower_1_le 2 (ex + ey + 56) ltac:(discriminate) ltac:(lia))
    as Hp.
  rewrite (Qpower_plus 2 (ex + ey) 56) in Hp by discriminate.
  rewrite (Qpower_plus 2 ex ey) in Hp by discriminate.
  pose proof (pow2_pos ex) as Px. pose proof (pow2_pos ey) as Py.
  change (2 ^ 56)%Q with (72057594037927936 # 1)%Q in Hp.
  set (px := (2 ^ ex)%Q) in *. set (py := (2 ^ ey)%Q) in *.
  set (vx := F2Q x) in *. set (vy := F2Q y) in *.
  set (c := (4503599627370496 # 1)%Q) in *.
  assert (0 < c * px)%Q as Pcx
    by (apply Qmult_lt_0_compat; [reflexivity | exact Px]).
  assert (0 < c * py)%Q as Pcy
    by (apply Qmult_lt_0_compat; [reflexivity | exact Py]).
  assert ((c * px) * (c * py) <= vx * (c * py))%Q as S1
    by (apply Qmult_le_compat_r; [exact Lx | lra]).
  assert (vx * (c * py) <= vx * vy)%Q as S2
    by (apply Qmult_le_l; [lra | exact Ly]).
  assert ((c * px) * (c * py) == c * c * (px * py))%Q as E by ring.
  rewrite E in S1.
  assert (c * c * (px * py) * (72057594037927936 # 1)
          == c * c * (px * py * (72057594037927936 # 1)))%Q as E2 by ring.
  assert (c * c * 1 <= c * c * (px * py * (72057594037927936 # 1)))%Q as S3
    by (apply Qmult_le_l; [reflexivity | exact Hp]).
  unfold c in *. lra.
Qed.

Section ProductProps.
Context {P : Platform}.

(** [uint64(math.Round(x * y))] for positive normal floats whose exact
    product is below 2^48: the integer found is within 9/16 of the exact
    product (half a unit for the rounding to an integer, 1/16 for the
    rounding of the product). *)
Lemma rounded_product_accuracy (x y : float64) (mx my : positive)
      (ex ey : Z) :
  normalFloat x mx ex -> normalFloat y my ey ->
  -1074 <= ex + ey + 52 ->
  (F2Q x * F2Q y < 281474976710656 # 1)%Q ->
  exists N,
    F64.to_uint64 (F64.Round (F64.mul x y)) = N /\ 0 <= N
    /\ (inject_Z N - (9 # 16) < F2Q x * F2Q y)%Q
    /\ (F2Q x * F2Q y < inject_Z N + (9 # 16))%Q.
Proof.
  intros Nx Ny Hlo Hv.
  pose proof (product_small_exponents x y mx my ex ey Nx Ny Hv) as He.
  destruct (mul_near x y mx my ex ey Nx Ny Hlo ltac:(lia))
    as (m & e & Np & Ep & [Lo Hi]).
  unfold ulp52 in Lo, Hi.
  assert (e < 0) as He0.
  { apply (normal_small_exponent (F64.mul x y) m e Np). lra. }
  destruct (Round_to_uint64 (F64.mul x y) m e Np He0)
    as (N & EN & HN0 & HN1 & HN2).
  exists N. split; [exact EN|]. split; [exact HN0|]. split; lra.
Qed.

End ProductProps.

Section OffsetProps.
Context {P : Platform}.
Variable m : basicMarketMaker.

(** The offset that [orderPrice] takes from a product is the exact product
    up to less than one unit. For a positive normal gap factor, a base
    amount (the fee adjustment for the multiplier strategy, the basis price
    for percent and percent-plus) that is positive and below 2^53, and an
    exact product [gapFactor * base] below 2^48, the integer [adj] handed to
    the rest of [orderPrice] (the break-even added for percent-plus, then
    [steppedRate] and the side) is within 9/16 of the exact product. *)
Theorem orderPrice_offset_accuracy (basisPrice feeAdj : uint64)
        (sell : bool) (gapFactor : float64) (mg : positive) (eg : Z) :
  let strat := BasicMarketMakingConfig.GapStrategy (cfg m) in
  let rate raw :=
    let adj := steppedRate raw (rateStep (mmMarket m)) in
    if sell then wrap64 (basisPrice + adj)
    else if basisPrice <? adj then 0 else basisPrice - adj in
  let within (N base : Z) :=
    0 <= N
    /\ (inject_Z N - (9 # 16) < F2Q gapFactor * inject_Z base)%Q
    /\ (F2Q gapFactor * inject_Z base < inject_Z N + (9 # 16))%Q in
  normalFloat gapFactor mg eg ->
  (strat = GapStrategyMultiplier -> 0 < feeAdj < 2 ^ 53 ->
   (F2Q gapFactor * inject_Z feeAdj < 281474976710656 # 1)%Q ->
   exists N, within N feeAdj
             /\ orderPrice m basisPrice feeAdj sell gapFactor = rate N)
  /\ (strat = GapStrategyPercent -> 0 < basisPrice < 2 ^ 53 ->
      (F2Q gapFactor * inject_Z basisPrice < 281474976710656 # 1)%Q ->
      exists N, within N basisPrice
                /\ orderPrice m basisPrice feeAdj sell gapFactor = rate N)
  /\ (strat = GapStrategyPercentPlus -> 0 < basisPrice < 2 ^ 53 ->
      (F2Q gapFactor * inject_Z basisPrice < 281474976710656 # 1)%Q ->
      exists N, within N basisPrice
                /\ orderPrice m basisPrice feeAdj sell gapFactor
                   = rate (wrap64 (N + feeAdj))).
Proof.
  intros strat rate within Ng.
  assert (-1074 <= eg) as Hg by (destruct Ng as (_ & _ & ?); lia).
  assert (forall base, 0 < base < 2 ^ 53 ->
            (F2Q gapFactor * inject_Z base < 281474976710656 # 1)%Q ->
            exists N, within N base
              /\ F64.to_uint64 (F64.Round (F64.mul gapFactor (F64.of_Z base)))
                 = N) as Hleft.
  { intros base Hb Hv.
    rewrite (of_Z_exact base Hb).
    destruct (normal_exactFloat base Hb) as [Nb Rb].
    pose proof (F2Q_exactFloat base Hb) as Vb.
    assert (F2Q gapFactor * F2Q (exactFloat false base)
            < 281474976710656 # 1)%Q as Hv1 by (rewrite Vb; exact Hv).
    destruct (rounded_product_accuracy _ _ _ _ _ _ Ng Nb ltac:(lia) Hv1)
      as (N & EN & HN0 & HN1 & HN2).
    rewrite Vb in HN1, HN2.
    exists N. repeat split; assumption. }
  assert (forall base, 0 < base < 2 ^ 53 ->
            (F2Q gapFactor * inject_Z base < 281474976710656 # 1)%Q ->
            exists N, within N base
              /\ F64.to_uint64 (F64.Round (F64.mul (F64.of_Z base) gapFactor))
                 = N) as Hright.
  { intros base Hb Hv.
    rewrite (of_Z_exact base Hb).
    destruct (normal_exactFloat base Hb) as [Nb Rb].
    pose proof (F2Q_exactFloat base Hb) as Vb.
    assert (F2Q (exactFloat false base) * F2Q gapFactor
            < 281474976710656 # 1)%Q as Hv1
      by (rewrite Vb, Qmult_comm; exact Hv).
    destruct (rounded_product_accuracy _ _ _ _ _ _ Nb Ng ltac:(lia) Hv1)
      as (N & EN & HN0 & HN1 & HN2).
    rewrite Vb, Qmult_comm in HN1. rewrite Vb, Qmult_comm in HN2.
    exists N. repeat split; assumption. }
  repeat match goal with |- _ /\ _ => split end; intros Hs Hb Hv.
  - destruct (Hright _ Hb Hv) as (N & HW & E).
    exists N. split; [exact HW|].
    unfold orderPrice. fold strat. rewrite Hs, E. reflexivity.
  - destruct (Hleft _ Hb Hv) as (N & HW & E).
    exists N. split; [exact HW|].
    unfold orderPrice. fold strat. rewrite Hs, E. reflexivity.
  - destruct (Hleft _ Hb Hv) as (N & HW & E).
    exists N. split; [exact HW|].
    unfold orderPrice. fold strat. rewrite Hs, E. reflexivity.
Qed.

End OffsetProps.

Lemma orderPrice_offset_accuracy_witness :
  exists N,
    (0 <= N
     /\ (inject_Z N - (9 # 16) < F2Q gap1pc * inject_Z 500000)%Q
     /\ (F2Q gap1pc * inject_Z 500000 < inject_Z N + (9 # 16))%Q)
    /\ @orderPrice indefinite63 (sampleMaker GapStrategyPercent 1 500000 true)
         500000 0 true gap1pc
       = wrap64 (500000 + steppedRate N 1).
Proof.
  destruct (@orderPrice_offset_accuracy indefinite63
              (sampleMaker GapStrategyPercent 1 500000 true) 500000 0 true
              gap1pc 5764607523034235 (-59)) as (_ & H & _).
  - split; [vm_compute; reflexivity | split; [reflexivity | lia]].
  - apply H; [reflexivity | lia | reflexivity].
Defined.
